(** * Half-edge mesh operations and the Delaunay / Voronoi drivers of compas

    A shallow embedding of

    - [src/compas/datastructures/mesh/operations/split.py]
      ([mesh_split_edge], [mesh_split_face]) and
    - [src/compas/geometry/triangulation.py]
      ([mesh_dual], [delaunay_from_points], [voronoi_from_delaunay]).

    Python floats are IEEE binary64 numbers and are modelled by Rocq's
    primitive floats.  The dictionaries of the mesh ([vertex], [face],
    [halfedge]) are finite maps.  Mutation of the mesh is explicit state
    passing in a state-and-exception monad: a raised exception is a result
    [inl e] next to the mesh as it was when the exception was raised. *)

From Stdlib Require Import Floats ZArith String.
From stdpp Require Import gmap list sorting.

Local Open Scope nat_scope.

(* Decimal constants of the source such as 1.73205 and 1e-12 are read as
   the nearest binary64 number, as Python reads them. *)
Set Warnings "-inexact-float".

(** ** Data model *)

(** Vertex and face keys.  The drivers only use integer keys. *)
Abbreviation key := nat.

(** The [x], [y], [z] attributes of a vertex; also the type of points. *)
Abbreviation point := (float * float * float)%type.

(** A half-edge entry is a face key or Python's [None] (the outside). *)
Abbreviation hface := (option key).

Record Mesh : Type := mkMesh {
  vertex    : gmap key point;
  face      : gmap key (list key);
  halfedge  : gmap key (gmap key hface);
  next_vkey : key;   (* next automatically allocated vertex key *)
  next_fkey : key    (* next automatically allocated face key *)
}.

(** [Mesh()] *)
Definition empty_mesh : Mesh := mkMesh ∅ ∅ ∅ 0 0.

(** Python exceptions raised by the modelled code.  [Degenerate] is the
    failure of the circumcircle construction; [OutOfFuel] is not a Python
    exception, it marks a loop of the model that was given too little fuel. *)
Inductive exn : Type :=
  | ValueError (msg : string)
  | KeyError
  | IndexError
  | UnboundLocalError (name : string)
  | Degenerate
  | BoundaryFlip
  | NotTriangle
  | OutOfFuel.

Definition NotOnFace : exn :=
  ValueError "The split vertices do not belong to the split face.".
Definition Adjacent : exn :=
  ValueError "The split vertices are neighbours.".
Definition Unpack : exn :=
  ValueError "wrong number of values to unpack".

(** ** The state-and-exception monad *)

Definition M (A : Type) : Type := Mesh → (exn + A) * Mesh.

Definition ret {A} (a : A) : M A := λ m, (inr a, m).
Definition raise {A} (e : exn) : M A := λ m, (inl e, m).
Definition bind {A B} (c : M A) (f : A → M B) : M B :=
  λ m, match c m with
       | (inr a, m') => f a m'
       | (inl e, m') => (inl e, m')
       end.

Declare Scope mesh_scope.
Delimit Scope mesh_scope with mesh.
Notation "'let*' x := c 'in' k" := (bind c (λ x, k))
  (at level 10, x pattern, c at level 100, k at level 200) : mesh_scope.
Notation "c ;;; k" := (bind c (λ _, k))
  (at level 100, k at level 200, right associativity) : mesh_scope.
Local Open Scope mesh_scope.

Definition get : M Mesh := λ m, (inr m, m).
Definition modify (f : Mesh → Mesh) : M unit := λ m, (inr tt, f m).
(** Lift a partial read: [None] raises [e]. *)
Definition lift_opt {A} (e : exn) (o : option A) : M A :=
  match o with Some a => ret a | None => raise e end.

(** ** Python list primitives *)

(** [l.index(x)]: position of the first occurrence. *)
Fixpoint index (x : key) (l : list key) : option nat :=
  match l with
  | [] => None
  | y :: l' => if decide (x = y) then Some 0 else S <$> index x l'
  end.

(** [l[a:b]] for non-negative [a], [b]. *)
Definition slice {A} (l : list A) (a b : nat) : list A := drop a (take b l).

(** [l.insert(i, x)] for non-negative [i]. *)
Definition list_insert_at {A} (i : nat) (x : A) (l : list A) : list A :=
  take i l ++ x :: drop i l.

(** [x in l] *)
Definition py_in (x : key) (l : list key) : bool := bool_decide (x ∈ l).

(** The directed edges [(v_i, v_{i+1 mod k})] of a vertex cycle. *)
Definition cycle_pairs (c : list key) : list (key * key) :=
  zip c (rotate 1 c).

(** ** Mesh primitives *)

(** [mesh.face[fkey]] *)
Definition face_at (fkey : key) : M (list key) :=
  let* m := get in lift_opt KeyError (face m !! fkey).

(** [mesh.face[fkey] = c] *)
Definition set_face (fkey : key) (c : list key) : M unit :=
  modify (λ m, mkMesh (vertex m) (<[fkey := c]> (face m)) (halfedge m)
                      (next_vkey m) (next_fkey m)).

(** [del mesh.face[fkey]] *)
Definition del_face (fkey : key) : M unit :=
  let* m := get in
  match face m !! fkey with
  | None => raise KeyError
  | Some _ =>
      modify (λ m, mkMesh (vertex m) (delete fkey (face m)) (halfedge m)
                          (next_vkey m) (next_fkey m))
  end.

(** Nested lookup in the half-edge directory. *)
Definition he (m : Mesh) (u v : key) : option hface :=
  row ← halfedge m !! u; row !! v.

(** [mesh.halfedge[u][v]] *)
Definition halfedge_at (u v : key) : M hface :=
  let* m := get in lift_opt KeyError (he m u v).

Definition with_halfedge (h : gmap key (gmap key hface)) (m : Mesh) : Mesh :=
  mkMesh (vertex m) (face m) h (next_vkey m) (next_fkey m).

(** [mesh.halfedge[u][v] = f]: the row of [u] has to exist. *)
Definition set_halfedge (u v : key) (f : hface) : M unit :=
  let* m := get in
  match halfedge m !! u with
  | None => raise KeyError
  | Some row => modify (with_halfedge (<[u := <[v := f]> row]> (halfedge m)))
  end.

(** [del mesh.halfedge[u][v]] *)
Definition del_halfedge (u v : key) : M unit :=
  let* m := get in
  match halfedge m !! u with
  | None => raise KeyError
  | Some row =>
      match row !! v with
      | None => raise KeyError
      | Some _ => modify (with_halfedge (<[u := delete v row]> (halfedge m)))
      end
  end.

(** [mesh.vertex[k]] read as a point. *)
Definition vertex_at (k : key) : M point :=
  let* m := get in lift_opt KeyError (vertex m !! k).

(** ** Mesh methods that the operations call *)

(** Modelled from the spec: [Mesh.add_vertex] is not part of the sources at
    hand.  "add_vertex(key?, x, y, z) → key"; "keys are allocated
    monotonically".  A vertex that is new to the mesh also gets an empty row
    in the half-edge directory, which the writes [mesh.halfedge[w][v] = ...]
    of [mesh_split_edge] rely on. *)
Definition add_vertex (k : option key) (xyz : point) : M key :=
  let* m := get in
  let w := default (next_vkey m) k in
  let rows := match vertex m !! w with
              | None => <[w := ∅]> (halfedge m)
              | Some _ => halfedge m
              end in
  modify (λ m, mkMesh (<[w := xyz]> (vertex m)) (face m) rows
                      (next_vkey m `max` S w) (next_fkey m)) ;;;
  ret w.

(** Install the directed edge [(u → v)] of face [f], and the outside twin
    when the twin is not in the directory yet. *)
Definition install_edge (f : key) (h : gmap key (gmap key hface))
    (uv : key * key) : gmap key (gmap key hface) :=
  let '(u, v) := uv in
  let h1 := <[u := <[v := Some f]> (default ∅ (h !! u))]> h in
  let rowv := default ∅ (h1 !! v) in
  match rowv !! u with
  | Some _ => h1
  | None => <[v := <[u := None]> rowv]> h1
  end.

(** Modelled from the spec: [Mesh.add_face] is not part of the sources at
    hand.  "add_face(cycle, fkey?) → key"; for a face with cycle
    v₀ … vₖ₋₁ "the entry (vᵢ → v_{i+1 mod k}) maps to that face", and
    "every directed edge present in the directory has a twin also
    present (either another face, or outside)". *)
Definition add_face (c : list key) (fk : option key) : M key :=
  let* m := get in
  let f := default (next_fkey m) fk in
  modify (λ m, mkMesh (vertex m) (<[f := c]> (face m))
                      (foldl (install_edge f) (halfedge m) (cycle_pairs c))
                      (next_vkey m) (next_fkey m `max` S f)) ;;;
  ret f.

(** The point [a + t (b - a)]. *)
Definition lerp (a b : point) (t : float) : point :=
  let '(ax, ay, az) := a in
  let '(bx, b_y, bz) := b in
  (ax + t * (bx - ax), ay + t * (b_y - ay), az + t * (bz - az))%float.

(** Modelled from the spec: [Mesh.edge_point] is not part of the sources at
    hand.  The new vertex is "at the interpolated coordinates", "at
    parameter t ∈ (0, 1), measured from u". *)
Definition edge_point (u v : key) (t : float) : M point :=
  let* a := vertex_at u in
  let* b := vertex_at v in
  ret (lerp a b t).

(** ** [split.py] *)

(** [mesh_split_edge(mesh, u, v, t=0.5, allow_boundary=False)].
    The result [None] is Python's bare [return]. *)
Definition mesh_split_edge (u v : key) (t : float) (allow_boundary : bool)
  : M (option key) :=
  if (t <=? 0)%float then raise (ValueError "t should be greater than 0.0.")
  else if (1 <=? t)%float then
    raise (ValueError "t should be smaller than 1.0.")
  else
    let* fkey_uv := halfedge_at u v in
    let* fkey_vu := halfedge_at v u in
    if negb allow_boundary &&
       (bool_decide (fkey_uv = None) || bool_decide (fkey_vu = None))
    then ret None
    else
      let* xyz := edge_point u v t in
      let* w := add_vertex None xyz in
      (* split half-edge UV *)
      set_halfedge u w fkey_uv ;;;
      set_halfedge w v fkey_uv ;;;
      del_halfedge u v ;;;
      (* update the UV face if it is not the None face *)
      match fkey_uv with
      | Some f =>
          let* c := face_at f in
          let* j := lift_opt (ValueError "not in list") (index v c) in
          set_face f (list_insert_at j w c)
      | None => ret tt
      end ;;;
      (* split half-edge VU *)
      set_halfedge v w fkey_vu ;;;
      set_halfedge w u fkey_vu ;;;
      del_halfedge v u ;;;
      (* update the VU face if it is not the None face *)
      match fkey_vu with
      | Some f =>
          let* c := face_at f in
          let* i := lift_opt (ValueError "not in list") (index u c) in
          set_face f (list_insert_at i w c)
      | None => ret tt
      end ;;;
      ret (Some w).

(** The two vertex lists that [mesh_split_face] hands to [add_face], for
    [i = face.index(u)] and [j = face.index(v)]. *)
Definition split_cycles (c : list key) (i j : nat) : list key * list key :=
  if bool_decide (i < j)
  then (slice c i (j + 1), drop j c ++ take (i + 1) c)
  else (drop i c ++ take (j + 1) c, slice c j (i + 1)).

(** [mesh_split_face(mesh, fkey, u, v)] *)
Definition mesh_split_face (fkey u v : key) : M (key * key) :=
  let* c := face_at fkey in
  if negb (py_in u c) || negb (py_in v c) then raise NotOnFace
  else
    let* i := lift_opt (ValueError "not in list") (index u c) in
    let* j := lift_opt (ValueError "not in list") (index v c) in
    if bool_decide (i + 1 = j) then raise Adjacent
    else
      let '(f, g) := split_cycles c i j in
      let* f := add_face f None in
      let* g := add_face g None in
      del_face fkey ;;;
      ret (f, g).

(** ** Structural invariants of the data model (spec, section 3) *)

(** Directed edge [(u → v)] is an edge of the vertex cycle of face [f]. *)
Definition on_face (m : Mesh) (f u v : key) : Prop :=
  from_option (λ c, (u, v) ∈ cycle_pairs c) False (face m !! f).

(** A face cycle has at least three vertices, no vertex twice, only vertices
    of the mesh, and each of its directed edges maps to the face. *)
Definition face_ok (m : Mesh) (f : key) (c : list key) : Prop :=
  3 ≤ length c ∧ NoDup c ∧
  Forall (λ v, is_Some (vertex m !! v)) c ∧
  Forall (λ uv, he m uv.1 uv.2 = Some (Some f)) (cycle_pairs c).

(** A directory entry [(u → v)] has a twin, and when it maps to a face the
    cycle of that face contains the subsequence [u, v]. *)
Definition entry_ok (m : Mesh) (u v : key) (x : hface) : Prop :=
  is_Some (he m v u) ∧ from_option (λ f, on_face m f u v) True x.

Definition mesh_wf (m : Mesh) : Prop :=
  map_Forall (face_ok m) (face m) ∧
  map_Forall (λ u row, is_Some (vertex m !! u) ∧ map_Forall (entry_ok m u) row)
             (halfedge m) ∧
  map_Forall (λ k _, k < next_vkey m) (vertex m) ∧
  map_Forall (λ k _, k < next_fkey m) (face m).

#[global] Instance from_option_dec {A} (P : A → Prop) (Q : Prop)
  `{∀ a, Decision (P a)} `{Decision Q} (o : option A) :
  Decision (from_option P Q o).
Proof. destruct o; simpl; apply _. Defined.

#[global] Instance on_face_dec m f u v : Decision (on_face m f u v).
Proof. unfold on_face. apply _. Defined.

#[global] Instance face_ok_dec m f c : Decision (face_ok m f c).
Proof. unfold face_ok. apply _. Defined.

#[global] Instance entry_ok_dec m u v x : Decision (entry_ok m u v x).
Proof. unfold entry_ok. apply _. Defined.

#[global] Instance mesh_wf_dec m : Decision (mesh_wf m).
Proof. unfold mesh_wf. apply _. Defined.

(** ** The two arcs of a cycle, in the words of the spec *)

(** The arc of cycle [c] from position [i] to position [j], both inclusive,
    traversed in the sense of [c] (wrapping around the end of the list). *)
Definition arc (c : list key) (i j : nat) : list key :=
  take (S ((j + length c - i) mod length c)) (rotate i c).

(** Positions [i] and [j] are neighbours on the cycle [c], in either
    direction, the last and the first position included. *)
Definition cyclically_adjacent (c : list key) (i j : nat) : Prop :=
  (i + 1) mod length c = j ∨ (j + 1) mod length c = i.

(** ** Example meshes *)

Definition exec {A} (c : M A) (m : Mesh) : Mesh := (c m).2.

(** The unit square as a single quad face [0, 1, 2, 3]. *)
Definition quad_mesh : Mesh :=
  exec (add_vertex None (0, 0, 0)%float ;;;
        add_vertex None (1, 0, 0)%float ;;;
        add_vertex None (1, 1, 0)%float ;;;
        add_vertex None (0, 1, 0)%float ;;;
        add_face [0; 1; 2; 3] None) empty_mesh.

(** The unit square as two triangles [0, 1, 2] and [0, 2, 3] sharing the
    interior edge 0–2. *)
Definition two_triangles : Mesh :=
  exec (add_vertex None (0, 0, 0)%float ;;;
        add_vertex None (1, 0, 0)%float ;;;
        add_vertex None (1, 1, 0)%float ;;;
        add_vertex None (0, 1, 0)%float ;;;
        add_face [0; 1; 2] None ;;;
        add_face [0; 2; 3] None) empty_mesh.

(** ** Collaborators of [triangulation.py] *)

(** 2D points: the lists [[x, y]] that the driver builds. *)
Abbreviation xy := (float * float)%type.

Definition xy_of (p : point) : xy := (p.1.1, p.1.2).

(** A circle: [(center, radius, normal)]. *)
Abbreviation circle := (point * float * point)%type.

(** The functions that [triangulation.py] imports from [compas.geometry].
    They are not part of the sources at hand and are taken as parameters.
    Following the spec, [circle_from_points_xy] can fail ("Fails with
    Degenerate when the three points are colinear"); the others are total. *)
Class Geometry : Type := {
  centroid_points : list point → point;
  bounding_box : list point → list point;
  distance_point_point : point → point → float;
  add_vectors : point → point → point;
  is_point_in_polygon_xy : point → list point → bool;
  is_point_in_triangle_xy : point → xy * xy * xy → bool → bool;
  is_point_in_circle_xy : point → circle → bool;
  circle_from_points_xy : xy → xy → xy → exn + circle
}.

(** The order in which Python iterates over a set or over the keys of a
    dictionary is not fixed by the program; it is a parameter.  It lists
    every element exactly once. *)
Class IterOrder : Type := {
  iter_keys : gset key → list key;
  iter_keys_perm : ∀ s, iter_keys s ≡ₚ elements s
}.

(** CPython's [random.uniform(a, b)] is [a + (b - a) * random()]; [r] is
    the value of [random()]. *)
Definition uniform (a b r : float) : float := (a + (b - a) * r)%float.

(** [l.pop()] on a non-empty list takes the last element. *)
Definition pop (l : list key) : option (key * list key) :=
  match last l with
  | Some x => Some (x, removelast l)
  | None => None
  end.

Fixpoint mapM {A B} (f : A → M B) (l : list A) : M (list B) :=
  match l with
  | [] => ret []
  | x :: l' => let* y := f x in let* ys := mapM f l' in ret (y :: ys)
  end.

(** [for x in l: body(x)], stopping at the first exception. *)
Fixpoint forM {A} (l : list A) (body : A → M unit) : M unit :=
  match l with
  | [] => ret tt
  | x :: l' => body x ;;; forM l' body
  end.

(** Run a computation that only reads the mesh. *)
Definition query {A} (c : M A) (m : Mesh) : exn + A := (c m).1.

(** Lift a result of a collaborator into the monad. *)
Definition lift_res {A} (r : exn + A) : M A :=
  match r with inr a => ret a | inl e => raise e end.

Section Triangulation.
Context `{Geometry} `{IterOrder}.

(** *** More mesh methods *)

(** [list(mesh.faces())] *)
Definition faces (m : Mesh) : list key := iter_keys (dom (face m)).

(** [list(mesh.vertices())] *)
Definition vertices (m : Mesh) : list key := iter_keys (dom (vertex m)).

(** [mesh.face_vertices(fkey)] *)
Definition face_vertices (fkey : key) : M (list key) := face_at fkey.

(** Modelled from the spec: [Mesh.face_coordinates] is not part of the
    sources at hand; the coordinates of the vertices of the face, in the
    order of its cycle. *)
Definition face_coordinates (fkey : key) : M (list point) :=
  let* c := face_at fkey in mapM vertex_at c.

(** Modelled from the spec: [Mesh.face_centroid] is not part of the sources
    at hand; "centroid(points) — arithmetic mean of coordinates" of the
    face's vertices. *)
Definition face_centroid (fkey : key) : M point :=
  let* ps := face_coordinates fkey in ret (centroid_points ps).

(** Remove the directed edge [(u → v)] of a deleted face: the entry
    reverts to the outside when the twin belongs to a face, and both
    entries go otherwise. *)
Definition retire_edge (h : gmap key (gmap key hface)) (uv : key * key)
  : gmap key (gmap key hface) :=
  let '(u, v) := uv in
  match (h !! v) ≫= (λ row, row !! u) with
  | Some (Some _) => alter (insert v None) u h
  | _ => alter (delete u) v (alter (delete v) u h)
  end.

(** Modelled from the spec: [Mesh.delete_face] is not part of the sources at
    hand.  "Deletion of a face removes all its directed edges unless those
    edges are shared with another face, in which case the entries revert to
    outside." *)
Definition delete_face (fkey : key) : M unit :=
  let* c := face_at fkey in
  modify (λ m, mkMesh (vertex m) (delete fkey (face m))
                      (foldl retire_edge (halfedge m) (cycle_pairs c))
                      (next_vkey m) (next_fkey m)).

(** Modelled from the spec: [Mesh.delete_vertex] is not part of the sources
    at hand.  "Removes all faces incident to the vertex, then removes the
    vertex and all directory entries mentioning it.  The exposed boundary of
    the removed region becomes outside." *)
Definition delete_vertex (k : key) : M unit :=
  let* m := get in
  forM (faces m) (λ fkey,
    let* c := face_at fkey in
    if py_in k c then delete_face fkey else ret tt) ;;;
  let* m := get in
  match vertex m !! k with
  | None => raise KeyError
  | Some _ =>
      modify (λ m, mkMesh (delete k (vertex m)) (face m)
                          (delete k <$> delete k (halfedge m))
                          (next_vkey m) (next_fkey m))
  end.

(** Modelled from the spec: [Mesh.insert_vertex] is not part of the sources
    at hand.  "Creates a new vertex at xyz (allocating a key if not given).
    Retires face fkey.  Creates k new triangular faces, one per edge
    (vᵢ, v_{i+1}) of the original cycle: (vᵢ, v_{i+1}, w).  Returns the new
    vertex key and the list of new face keys." *)
Definition insert_vertex (fkey : key) (k : option key) (xyz : point)
  : M (key * list key) :=
  let* c := face_at fkey in
  let* w := add_vertex k xyz in
  let* fkeys := mapM (λ uv : key * key, add_face [uv.1; uv.2; w] None)
                     (cycle_pairs c) in
  del_face fkey ;;;
  ret (w, fkeys).

(** The vertex of a triangle that is neither [u] nor [v]. *)
Definition apex (c : list key) (u v : key) : option key :=
  head (filter (λ k, k ≠ u ∧ k ≠ v) c).

(** Modelled from the spec: [trimesh_swap_edge] is not part of the sources
    at hand.  "Precondition: both (u→v) and (v→u) map to faces (not
    outside), and both faces are triangles (u, v, o₁) and (v, u, o₂).
    Deletes both faces; installs triangles (u, o₂, o₁) and (v, o₁, o₂).
    Returns the two new face keys.  Fails with BoundaryFlip if either side
    is outside, NotTriangle if either face is not a triangle." *)
Definition trimesh_swap_edge (u v : key) : M (key * key) :=
  let* fuv := halfedge_at u v in
  let* fvu := halfedge_at v u in
  match fuv, fvu with
  | Some f1, Some f2 =>
      let* c1 := face_at f1 in
      let* c2 := face_at f2 in
      if negb (bool_decide (length c1 = 3 ∧ length c2 = 3))
      then raise NotTriangle
      else
        let* o1 := lift_opt NotTriangle (apex c1 u v) in
        let* o2 := lift_opt NotTriangle (apex c2 u v) in
        delete_face f1 ;;;
        delete_face f2 ;;;
        let* a := add_face [u; o2; o1] None in
        let* b := add_face [v; o1; o2] None in
        ret (a, b)
  | _, _ => raise BoundaryFlip
  end.

(** The three vertex keys of a triangle and their 2D coordinates:
    [keya, keyb, keyc = mesh.face_vertices(fkey)] and the three reads of
    [mesh.vertex]. *)
Definition triangle_xy (fkey : key) : M (xy * xy * xy) :=
  let* c := face_vertices fkey in
  match c with
  | [keya; keyb; keyc] =>
      let* dicta := vertex_at keya in
      let* dictb := vertex_at keyb in
      let* dictc := vertex_at keyc in
      ret (xy_of dicta, xy_of dictb, xy_of dictc)
  | _ => raise Unpack
  end.

(** *** [delaunay_from_points] *)

(** The local function [super_triangle(coords)]. *)
Definition super_triangle (coords : list point)
  : exn + (point * point * point) :=
  let centpt := centroid_points coords in
  let bbpts := bounding_box coords in
  match bbpts !! 0, bbpts !! 2 with
  | Some bb0, Some bb2 =>
      let dis := distance_point_point bb0 bb2 in
      let dis := (dis * 300)%float in
      let v1 := (0 * dis, 2 * dis, 0)%float in
      let v2 := (1.73205 * dis, -1.0000000000001 * dis, 0)%float in
      let v3 := (-1.73205 * dis, -1 * dis, 0)%float in
      let pt1 := add_vectors centpt v1 in
      let pt2 := add_vectors centpt v2 in
      let pt3 := add_vectors centpt v3 in
      inr (pt1, pt2, pt3)
  | _, _ => inl IndexError
  end.

(** The perturbed sites: point [i] draws [rand (2 i)] and [rand (2 i + 1)]
    from the random number generator. *)
Definition jitter (tiny : float) (rand : nat → float) (points : list point)
  : list point :=
  imap (λ i p,
          let r0 := rand (2 * i) in
          let r1 := rand (2 * i + 1) in
          (p.1.1 + uniform (- tiny) tiny r0,
           p.1.2 + uniform (- tiny) tiny r1,
           0)%float) points.

(** "create super triangle" and "add super triangle vertices to mesh";
    returns [super_keys]. *)
Definition bootstrap (points : list point) : M (key * key * key) :=
  let* tri := lift_res (super_triangle points) in
  let '(pt1, pt2, pt3) := tri in
  let n := length points in
  let super_keys := (n, n + 1, n + 2) in
  add_vertex (Some n) pt1 ;;;
  add_vertex (Some (n + 1)) pt2 ;;;
  add_vertex (Some (n + 2)) pt3 ;;;
  add_face [n; n + 1; n + 2] None ;;;
  ret super_keys.

(** "check in which triangle this point falls": the [for fkey in
    list(mesh.faces())] loop with its [break].  The result is the pair
    that [mesh.insert_vertex] returned, or [None] when the loop ran to its
    end without an assignment. *)
Fixpoint locate (pt : point) (k : key) (fkeys : list key)
  : M (option (key * list key)) :=
  match fkeys with
  | [] => ret None
  | fkey :: rest =>
      let* abc := triangle_xy fkey in
      if is_point_in_triangle_xy pt abc true then
        let* r := insert_vertex fkey (Some k) pt in
        ret (Some r)
      else locate pt k rest
  end.

(** "get opposite_face": the entry across the edge of [fkey] that does not
    contain [k], with the two vertices of that edge. *)
Definition opposite_face (k fkey : key) : M (hface * key * key) :=
  let* keys := face_vertices fkey in
  let s := iter_keys (list_to_set keys ∖ {[k]}) in
  match s with
  | u :: v :: _ =>
      let* fkey1 := halfedge_at u v in
      if bool_decide (fkey1 ≠ Some fkey) then ret (fkey1, u, v)
      else
        let* fkey_vu := halfedge_at v u in
        ret (fkey_vu, u, v)
  | _ => raise IndexError
  end.

(** One pass through the body of [while newtris:]; [newtris] is not empty
    and the result is the list after the pass. *)
Definition lawson_body (k : key) (pt : point) (fkey : key)
    (newtris : list key) : M (list key) :=
  let* opp := opposite_face k fkey in
  let '(fkey_op, u, v) := opp in
  match fkey_op with
  | Some (S _ as fop) =>
      let* abc := triangle_xy fop in
      let '(a, b, c) := abc in
      let* circle := lift_res (circle_from_points_xy a b c) in
      if is_point_in_circle_xy pt circle then
        let* fg := trimesh_swap_edge u v in
        ret (newtris ++ [fg.1; fg.2])
      else ret newtris
  | _ => ret newtris   (* [if fkey_op:] is false for [None] and for key 0 *)
  end.

(** [while newtris: ...].  The loop of the source has no bound; the model
    gives up with [OutOfFuel] after [fuel] passes. *)
Fixpoint lawson (fuel : nat) (k : key) (pt : point) (newtris : list key)
  : M unit :=
  match pop newtris with
  | None => ret tt
  | Some (fkey, newtris) =>
      match fuel with
      | 0 => raise OutOfFuel
      | S fuel =>
          let* newtris := lawson_body k pt fkey newtris in
          lawson fuel k pt newtris
      end
  end.

(** The body of [for i, pt in enumerate(points)].  The local variable
    [newtris] is [None] as long as no assignment to it was executed, and
    the list it is bound to otherwise. *)
Definition insert_site (fuel : nat) (newtris : option (list key))
    (i : nat) (pt : point) : M (option (list key)) :=
  let k := i in
  let* m := get in
  let* r := locate pt k (faces m) in
  let newtris := match r with
                 | Some (_, tris) => Some tris
                 | None => newtris
                 end in
  let k := match r with Some (k', _) => k' | None => k end in
  match newtris with
  | None => raise (UnboundLocalError "newtris")
  | Some tris => lawson fuel k pt tris ;;; ret (Some [])
  end.

Fixpoint insert_sites (fuel : nat) (newtris : option (list key))
    (i : nat) (points : list point) : M (option (list key)) :=
  match points with
  | [] => ret newtris
  | pt :: rest =>
      let* newtris := insert_site fuel newtris i pt in
      insert_sites fuel newtris (S i) rest
  end.

(** Python's truth value of an optional list argument. *)
Definition given {A} (o : option (list A)) : list A := default [] o.

(** "Delete faces outside of boundary" *)
Definition clip_boundary (boundary : option (list point)) : M unit :=
  match given boundary with
  | [] => ret tt
  | polygon =>
      let* m := get in
      forM (faces m) (λ fkey,
        let* centroid := face_centroid fkey in
        if negb (is_point_in_polygon_xy centroid polygon)
        then delete_face fkey else ret tt)
  end.

(** "Delete faces inside of inside boundaries" *)
Definition clip_holes (holes : option (list (list point))) : M unit :=
  forM (given holes) (λ polygon,
    let* m := get in
    forM (faces m) (λ fkey,
      let* centroid := face_centroid fkey in
      if is_point_in_polygon_xy centroid polygon
      then delete_face fkey else ret tt)).

(** [[mesh.face_vertices(fkey) for fkey in mesh.faces()]] *)
Definition emit : M (list (list key)) :=
  let* m := get in mapM face_vertices (faces m).

(** The body of [delaunay_from_points], run on the mesh it creates. *)
Definition delaunay_run (fuel : nat) (rand : nat → float)
    (points : list point) (boundary : option (list point))
    (holes : option (list (list point))) (tiny : float)
  : M (list (list key)) :=
  let points := jitter tiny rand points in
  let* super_keys := bootstrap points in
  let '(s0, s1, s2) := super_keys in
  insert_sites fuel None 0 points ;;;
  forM [s0; s1; s2] delete_vertex ;;;
  clip_boundary boundary ;;;
  clip_holes holes ;;;
  emit.

(** [delaunay_from_points(points, boundary=None, holes=None, tiny=1e-12)] *)
Definition delaunay_from_points (fuel : nat) (rand : nat → float)
    (points : list point) (boundary : option (list point))
    (holes : option (list (list point))) (tiny : float)
  : exn + list (list key) :=
  query (delaunay_run fuel rand points boundary holes tiny) empty_mesh.

(** *** [mesh_dual] and [voronoi_from_delaunay] *)

(** Modelled from the spec: [Mesh.vertices_on_boundary] is not part of the
    sources at hand.  "If u → v lies on the outer boundary, the directory
    stores the outside sentinel": the end points of the entries that map to
    the outside. *)
Definition vertices_on_boundary (m : Mesh) : list key :=
  let ends :=
    flat_map (λ ur : key * gmap key hface,
      flat_map (λ vx : key * hface,
        match vx.2 with None => [ur.1; vx.1] | Some _ => [] end)
        (map_to_list ur.2))
      (map_to_list (halfedge m)) in
  iter_keys (list_to_set ends).

(** The vertex after [k] on the cycle [c]. *)
Definition face_vertex_descendant (c : list key) (k : key) : option key :=
  i ← index k c; c !! ((i + 1) mod length c).

(** Walk around [k]: the face of [(nbr → k)] leads to the next neighbour. *)
Fixpoint walk_around (m : Mesh) (fuel : nat) (k start nbr : key) : list key :=
  match fuel with
  | 0 => []
  | S fuel =>
      match he m nbr k with
      | Some (Some f) =>
          match face m !! f ≫= (λ c, face_vertex_descendant c k) with
          | Some next =>
              if decide (next = start) then []
              else next :: walk_around m fuel k start next
          | None => []
          end
      | _ => []
      end
  end.

(** Modelled from the spec: [Mesh.vertex_faces(key, ordered=True)] is not
    part of the sources at hand.  The incident faces of the vertex "in
    cyclic order around v"; "for boundary vertices the result is an open
    walk from one outside edge to the other". *)
Definition vertex_faces (m : Mesh) (k : key) : list key :=
  let nbrs := iter_keys (dom (default ∅ (halfedge m !! k))) in
  match nbrs with
  | [] => []
  | n0 :: _ =>
      let start :=
        default n0 (head (filter (λ n, he m k n = Some None) nbrs)) in
      let ordered := start :: walk_around m (length nbrs) k start start in
      omap (λ n, he m k n ≫= id) ordered
  end.

(** The two local dictionaries [vertices] and [faces] of [mesh_dual]. *)
Definition dual_tables (mesh : Mesh)
  : exn + (gmap key point * gmap key (list key)) :=
  let build : M (gmap key point * gmap key (list key)) :=
    let* cs := mapM (λ fkey, let* c := face_centroid fkey in ret (fkey, c))
                    (faces mesh) in
    let fkey_centroid : gmap key point := list_to_map cs in
    let outer := vertices_on_boundary mesh in
    let inner :=
      iter_keys (list_to_set (vertices mesh) ∖ list_to_set outer) in
    let step (acc : gmap key point * gmap key (list key)) (k : key) :=
      let fkeys := vertex_faces mesh k in
      let* vs :=
        (fix go (vs : gmap key point) (l : list key) : M (gmap key point) :=
           match l with
           | [] => ret vs
           | fkey :: l' =>
               match vs !! fkey with
               | Some _ => go vs l'
               | None =>
                   let* c := lift_opt KeyError (fkey_centroid !! fkey) in
                   go (<[fkey := c]> vs) l'
               end
           end) acc.1 fkeys in
      ret (vs, <[k := fkeys]> acc.2) in
    (fix loop acc (l : list key) :=
       match l with
       | [] => ret acc
       | k :: l' => let* acc' := step acc k in loop acc' l'
       end) (∅, ∅) inner in
  query build mesh.

(** [mesh_dual(mesh)] *)
Definition mesh_dual (mesh : Mesh) : exn + Mesh :=
  match dual_tables mesh with
  | inl e => inl e
  | inr (vertices_, faces_) =>
      let build : M unit :=
        forM (iter_keys (dom vertices_)) (λ k,
          let* xyz := lift_opt KeyError (vertices_ !! k) in
          add_vertex (Some k) xyz ;;; ret tt) ;;;
        forM (iter_keys (dom faces_)) (λ fkey,
          let* c := lift_opt KeyError (faces_ !! fkey) in
          add_face c (Some fkey) ;;; ret tt) in
      match build empty_mesh with
      | (inr _, dual) => inr dual
      | (inl e, _) => inl e
      end
  end.

(** [voronoi.vertex[key]['x'] = center[0]] and the same for [y], [z]. *)
Definition set_vertex_xyz (k : key) (p : point) : M unit :=
  let* m := get in
  match vertex m !! k with
  | None => raise KeyError
  | Some _ =>
      modify (λ m, mkMesh (<[k := p]> (vertex m)) (face m) (halfedge m)
                          (next_vkey m) (next_fkey m))
  end.

(** The body of the loop of [voronoi_from_delaunay]. *)
Definition move_to_circumcenter (delaunay : Mesh) (k : key) : M unit :=
  let* abc := lift_res (query (face_coordinates k) delaunay) in
  match abc with
  | [a; b; c] =>
      let* crn := lift_res (circle_from_points_xy (xy_of a) (xy_of b) (xy_of c)) in
      let '(center, radius, normal) := crn in
      set_vertex_xyz k center
  | _ => raise Unpack
  end.

(** [voronoi_from_delaunay(delaunay)] *)
Definition voronoi_from_delaunay (delaunay : Mesh) : exn + Mesh :=
  match mesh_dual delaunay with
  | inl e => inl e
  | inr voronoi =>
      match forM (vertices voronoi) (move_to_circumcenter delaunay) voronoi with
      | (inr _, voronoi') => inr voronoi'
      | (inl e, _) => inl e
      end
  end.

End Triangulation.

(** ** Instances for running the drivers *)

(** Ascending keys: the order in which CPython lists a small set of small
    integers, and the insertion order of a dictionary whose keys were
    allocated one after the other. *)
Definition ascending_order : IterOrder := {|
  iter_keys := λ s, merge_sort (≤) (elements s);
  iter_keys_perm := λ s, merge_sort_Permutation (≤) (elements s)
|}.

Definition float_of_nat (n : nat) : float :=
  PrimFloat.of_uint63 (Uint63.of_Z (Z.of_nat n)).

(** [sum(xs)] *)
Definition fsum (xs : list float) : float := foldl PrimFloat.add 0%float xs.

(** [min(xs)] and [max(xs)] of a non-empty list; [nan] stands for the
    exception on an empty one. *)
Definition fmin (xs : list float) : float :=
  match xs with
  | [] => nan
  | x :: xs => foldl (λ m y, if (y <? m)%float then y else m) x xs
  end.
Definition fmax (xs : list float) : float :=
  match xs with
  | [] => nan
  | x :: xs => foldl (λ m y, if (m <? y)%float then y else m) x xs
  end.

(** Twice the signed area of the triangle [a], [b], [p]. *)
Definition cross (a b : xy) (p : xy) : float :=
  ((b.1 - a.1) * (p.2 - a.2) - (b.2 - a.2) * (p.1 - a.1))%float.

(** One edge of a polygon crosses the horizontal ray to the right of [p]. *)
Definition ray_crosses (p a b : xy) : bool :=
  (negb (Bool.eqb ((p.2 <? a.2)%float) ((p.2 <? b.2)%float))) &&
  (p.1 <? a.1 + (p.2 - a.2) * (b.1 - a.1) / (b.2 - a.2))%float.

(** Modelled from the spec: the predicates of [compas.geometry] are not
    part of the sources at hand.
    - "centroid(points) — arithmetic mean of coordinates";
    - "bounding_box(points) — axis-aligned" corners; the driver takes
      corners 0 and 2 as the two ends of the diagonal;
    - "distance(p, q) — Euclidean";
    - "is_point_in_polygon(p, polygon) — ray-casting", "polygon is closed
      implicitly";
    - "is_point_in_triangle(p, [a,b,c], inclusive) — same-sign check of
      three edge cross products; inclusive mode treats zero as inside";
    - "is_point_in_circle(p, (center, radius)) — strict inequality
      ‖p − center‖ < radius";
    - "circle_from_points(a, b, c) — returns (center, radius, normal).
      Fails with Degenerate when the three points are colinear." *)
Definition float_geometry : Geometry := {|
  centroid_points ps :=
    let n := float_of_nat (length ps) in
    (fsum (map (λ p : point, p.1.1) ps) / n,
     fsum (map (λ p : point, p.1.2) ps) / n,
     fsum (map (λ p : point, p.2) ps) / n)%float;
  bounding_box ps :=
    let xs := map (λ p : point, p.1.1) ps in
    let ys := map (λ p : point, p.1.2) ps in
    let zs := map (λ p : point, p.2) ps in
    [(fmin xs, fmin ys, fmin zs); (fmax xs, fmin ys, fmin zs);
     (fmax xs, fmax ys, fmin zs); (fmin xs, fmax ys, fmin zs)];
  distance_point_point p q :=
    (let dx := q.1.1 - p.1.1 in
     let dy := q.1.2 - p.1.2 in
     let dz := q.2 - p.2 in
     sqrt (dx * dx + dy * dy + dz * dz))%float;
  add_vectors p q := (p.1.1 + q.1.1, p.1.2 + q.1.2, p.2 + q.2)%float;
  is_point_in_polygon_xy p polygon :=
    let q := xy_of p in
    let vs := map xy_of polygon in
    foldl xorb false (zip_with (ray_crosses q) vs (rotate 1 vs));
  is_point_in_triangle_xy p abc inclusive :=
    let '(a, b, c) := abc in
    let q := xy_of p in
    let d1 := cross a b q in
    let d2 := cross b c q in
    let d3 := cross c a q in
    if inclusive
    then ((0 <=? d1) && (0 <=? d2) && (0 <=? d3)
          || (d1 <=? 0) && (d2 <=? 0) && (d3 <=? 0))%float
    else ((0 <? d1) && (0 <? d2) && (0 <? d3)
          || (d1 <? 0) && (d2 <? 0) && (d3 <? 0))%float;
  is_point_in_circle_xy p crn :=
    (let dx := p.1.1 - crn.1.1.1.1 in
     let dy := p.1.2 - crn.1.1.1.2 in
     sqrt (dx * dx + dy * dy) <? crn.1.2)%float;
  circle_from_points_xy a b c :=
    (let d := 2 * (a.1 * (b.2 - c.2) + b.1 * (c.2 - a.2) + c.1 * (a.2 - b.2)) in
     if d =? 0 then inl Degenerate
     else
       let a2 := a.1 * a.1 + a.2 * a.2 in
       let b2 := b.1 * b.1 + b.2 * b.2 in
       let c2 := c.1 * c.1 + c.2 * c.2 in
       let ux := (a2 * (b.2 - c.2) + b2 * (c.2 - a.2) + c2 * (a.2 - b.2)) / d in
       let uy := (a2 * (c.1 - b.1) + b2 * (a.1 - c.1) + c2 * (b.1 - a.1)) / d in
       let r := sqrt ((a.1 - ux) * (a.1 - ux) + (a.2 - uy) * (a.2 - uy)) in
       inr ((ux, uy, 0), r, (0, 0, 1)))%float
|}.

(** ** Notions for stating and proving facts about the drivers *)

(** The coordinates of a list of vertex keys, read from a vertex table. *)
Fixpoint coords_of (vs : gmap key point) (c : list key) : exn + list point :=
  match c with
  | [] => inr []
  | k :: c' =>
      match vs !! k with
      | None => inl KeyError
      | Some p =>
          match coords_of vs c' with
          | inr ps => inr (p :: ps)
          | inl e => inl e
          end
      end
  end.

(** The body shared by the two clipping loops: delete the face when its
    centroid passes [test]. *)
Definition clip_pass `{Geometry} (test : point → bool) (fkey : key) : M unit :=
  let* centroid := face_centroid fkey in
  if test centroid then delete_face fkey else ret tt.

(** [m'] has the vertices of [m] and some of its faces. *)
Definition shrinks (m m' : Mesh) : Prop :=
  vertex m' = vertex m ∧ ∀ f c, face m' !! f = Some c → face m !! f = Some c.

(** Every face of [m] has a centroid, and the centroid fails [test]. *)
Definition kept_ok `{Geometry} (test : point → bool) (m : Mesh) : Prop :=
  ∀ f c, face m !! f = Some c →
    ∃ ctr, face_centroid f m = (inr ctr, m) ∧ test ctr = false.

(** ** The claims of the spec about the driver, as it words them *)

(** The super-triangle of the spec: "vertices c + d·300·(0, 2),
    c + d·300·(√3, −1), c + d·300·(−√3, −1)". *)
Definition spec_super_triangle `{Geometry} (c : point) (d : float)
  : point * point * point :=
  (add_vectors c (d * 300 * 0, d * 300 * 2, 0)%float,
   add_vectors c (d * 300 * sqrt 3, d * 300 * -1, 0)%float,
   add_vectors c (d * 300 * - sqrt 3, d * 300 * -1, 0)%float).

(** "The Delaunay driver swallows Degenerate circumcircle tests (treats as
    not in circle)": a pass of the flipping loop whose circumcircle
    construction fails leaves the mesh and the work list as they were and
    raises nothing. *)
Definition swallows_degenerate `{Geometry} `{IterOrder} : Prop :=
  ∀ k pt fkey newtris m fop u v a b c,
    opposite_face k fkey m = (inr (Some fop, u, v), m) →
    fop ≠ 0 →
    triangle_xy fop m = (inr (a, b, c), m) →
    circle_from_points_xy a b c = inl Degenerate →
    lawson_body k pt fkey newtris m = (inr newtris, m).

(** ** Example inputs *)

Section Examples.
#[local] Existing Instances float_geometry ascending_order.

(** A random number generator that always returns 0.5: the perturbation
    [uniform(-tiny, tiny)] is then exactly zero. *)
Definition rand_half : nat → float := λ _, 0.5%float.

(** Two sites with the same coordinates.  At this magnitude a perturbation
    of at most 1e-12 is absorbed by rounding, whatever the random numbers. *)
Definition twin_sites : list point := [(1e6, 1e6, 0); (1e6, 1e6, 0)]%float.

(** The mesh of [delaunay_from_points(twin_sites)] when the flipping loop
    for the second site starts: after the bootstrap, the insertion of
    site 0 and the location of site 1. *)
Definition twin_sites_state : Mesh :=
  exec (bootstrap twin_sites ;;;
        insert_site 100 None 0 (1e6, 1e6, 0)%float ;;;
        let* m := get in
        locate (1e6, 1e6, 0)%float 1 (faces m)) empty_mesh.


(** The unit square as four sites. *)
Definition square_sites : list point :=
  [(0, 0, 0); (1, 0, 0); (1, 1, 0); (0, 1, 0)]%float.

(** A fan of four triangles around the interior vertex 4. *)
Definition fan_mesh : Mesh :=
  exec (add_vertex None (0, 0, 0)%float ;;;
        add_vertex None (2, 0, 0)%float ;;;
        add_vertex None (2, 2, 0)%float ;;;
        add_vertex None (0, 2, 0)%float ;;;
        add_vertex None (1, 1, 0)%float ;;;
        add_face [0; 1; 4] None ;;;
        add_face [1; 2; 4] None ;;;
        add_face [2; 3; 4] None ;;;
        add_face [3; 0; 4] None) empty_mesh.

(** The Voronoi mesh of the fan. *)
Definition fan_voronoi : Mesh :=
  match voronoi_from_delaunay fan_mesh with
  | inr voronoi => voronoi
  | inl _ => empty_mesh
  end.



End Examples.

(** ** Notions for further facts about [split.py] *)

(** [c.insert(c.index(k), w)]: [w] goes directly before the first
    occurrence of [k]. *)
Definition insert_before (k w : key) (c : list key) : list key :=
  match index k c with
  | Some j => list_insert_at j w c
  | None => c
  end.

(** The face table after one side of a split edge was updated: when the
    side [x] is a face, [w] goes before [k] in its cycle. *)
Definition split_side (x : hface) (k w : key) (fm : gmap key (list key))
  : gmap key (list key) :=
  match x with
  | Some f =>
      match fm !! f with
      | Some c => <[f := insert_before k w c]> fm
      | None => fm
      end
  | None => fm
  end.

(** The directory after the edge [u]–[v] with sides [fuv], [fvu] was split
    at [w], read at [(a → b)]. *)
Definition split_he (m : Mesh) (u v w : key) (fuv fvu : hface) (a b : key)
  : option hface :=
  if decide ((a, b) = (u, w) ∨ (a, b) = (w, v)) then Some fuv
  else if decide ((a, b) = (v, w) ∨ (a, b) = (w, u)) then Some fvu
  else if decide ((a, b) = (u, v) ∨ (a, b) = (v, u)) then None
  else if decide (a = w) then None
  else he m a b.

(** A binary64 number that is not NaN. *)
Definition is_number (t : float) : Prop := (t =? t)%float = true.

(** The pairs of neighbours in a list, the pair that joins two lists, and
    the pair that closes a list into a cycle. *)
Definition adj (l : list key) : list (key * key) := zip l (tail l).

Definition bridge (l1 l2 : list key) : list (key * key) :=
  match last l1, head l2 with
  | Some a, Some b => [(a, b)]
  | _, _ => []
  end.

Definition closing (l : list key) : list (key * key) := bridge l l.

(** The entry [(a → b)] of a half-edge directory; [he m a b] is the entry
    of the directory of [m]. *)
Definition dir_entry (h : gmap key (gmap key hface)) (a b : key)
  : option hface :=
  row ← h !! a; row !! b.

(** ** Notions for further facts about [triangulation.py] *)

(** Every face of the mesh is a triangle of vertex keys below [N]. *)
Definition triangles_below (N : nat) (m : Mesh) : Prop :=
  ∀ f c, face m !! f = Some c → length c = 3 ∧ ∀ x, x ∈ c → x < N.

Section DualLoops.
Context `{Geometry} `{IterOrder}.

(** The loops of [mesh_dual], by name.  [dual_fill] is
    [for fkey in fkeys: if fkey not in vertices: vertices[fkey] =
    fkey_centroid[fkey]]; [dual_loop] is [for key in inner] around it,
    with [faces[key] = fkeys]. *)
Definition dual_fill (fkey_centroid : gmap key point)
  : gmap key point → list key → M (gmap key point) :=
  fix go (vs : gmap key point) (l : list key) : M (gmap key point) :=
    match l with
    | [] => ret vs
    | fkey :: l' =>
        match vs !! fkey with
        | Some _ => go vs l'
        | None =>
            let* c := lift_opt KeyError (fkey_centroid !! fkey) in
            go (<[fkey := c]> vs) l'
        end
    end.

Definition dual_loop (mesh : Mesh) (fkey_centroid : gmap key point)
  : gmap key point * gmap key (list key) → list key →
    M (gmap key point * gmap key (list key)) :=
  fix loop acc (l : list key) :=
    match l with
    | [] => ret acc
    | k :: l' =>
        let* acc' :=
          (let fkeys := vertex_faces mesh k in
           let* vs := dual_fill fkey_centroid acc.1 fkeys in
           ret (vs, <[k := fkeys]> acc.2)) in
        loop acc' l'
    end.

(** The vertices of the mesh that are not on its boundary, as [mesh_dual]
    lists them. *)
Definition inner_vertices (mesh : Mesh) : list key :=
  iter_keys (list_to_set (vertices mesh)
             ∖ list_to_set (vertices_on_boundary mesh)).

End DualLoops.

Section DualExample.
#[local] Existing Instances float_geometry ascending_order.

(** The dual of the fan of four triangles. *)
Definition fan_dual : Mesh :=
  match mesh_dual fan_mesh with
  | inr dual => dual
  | inl _ => empty_mesh
  end.

End DualExample.

(** ** [trimesh_split_edge] *)

(** [l[k]] for an integer [k]; a negative [k] counts from the end of the
    list. *)
Definition py_getitem (l : list key) (k : Z) : option key :=
  let n := Z.of_nat (length l) in
  if (k <? 0)%Z then
    if (0 <=? n + k)%Z then l !! Z.to_nat (n + k) else None
  else l !! Z.to_nat k.

(** [trimesh_split_edge(mesh, u, v, t=0.5, allow_boundary=False)].
    The result [None] is Python's bare [return]. *)
Definition trimesh_split_edge (u v : key) (t : float) (allow_boundary : bool)
  : M (option key) :=
  if (t <=? 0)%float then raise (ValueError "t should be greater than 0.0.")
  else if (1 <=? t)%float then
    raise (ValueError "t should be smaller than 1.0.")
  else
    let* fkey_uv := halfedge_at u v in
    let* fkey_vu := halfedge_at v u in
    if negb allow_boundary &&
       (bool_decide (fkey_uv = None) || bool_decide (fkey_vu = None))
    then ret None
    else
      let* xyz := edge_point u v t in
      let* w := add_vertex None xyz in
      (* the UV face *)
      match fkey_uv with
      | None =>
          set_halfedge u w None ;;;
          set_halfedge w v None ;;;
          del_halfedge u v
      | Some f =>
          let* c := face_at f in
          let* i := lift_opt (ValueError "not in list") (index u c) in
          let* o := lift_opt IndexError (py_getitem c (Z.of_nat i - 1)) in
          add_face [u; w; o] None ;;;
          add_face [w; v; o] None ;;;
          del_halfedge u v ;;;
          del_face f
      end ;;;
      (* the VU face *)
      match fkey_vu with
      | None =>
          set_halfedge v w None ;;;
          set_halfedge w u None ;;;
          del_halfedge v u
      | Some f =>
          let* c := face_at f in
          let* i := lift_opt (ValueError "not in list") (index v c) in
          let* o := lift_opt IndexError (py_getitem c (Z.of_nat i - 1)) in
          add_face [v; w; o] None ;;;
          add_face [w; u; o] None ;;;
          del_halfedge v u ;;;
          del_face f
      end ;;;
      ret (Some w).

(** The directory as a function, after [add_face c] with the key [f] and
    after [del mesh.halfedge[u][v]]. *)
Definition face_entry (f : key) (c : list key)
    (old : key → key → option hface) (a b : key) : option hface :=
  if decide ((a, b) ∈ cycle_pairs c) then Some (Some f)
  else match old a b with
       | Some x => Some x
       | None => if decide ((b, a) ∈ cycle_pairs c) then Some None else None
       end.

Definition removed_entry (u v : key) (old : key → key → option hface)
    (a b : key) : option hface :=
  if decide ((a, b) = (u, v)) then None else old a b.

(** The directory after [trimesh_split_edge] split the edge [u]–[v]
    between the triangles [(u, v, o1)] and [(v, u, o2)] at [w], with the
    new faces [n], …, [n + 3], read at [(a → b)]. *)
Definition trisplit_he (m : Mesh) (u v w o1 o2 n : key) (a b : key)
  : option hface :=
  if decide ((a, b) ∈ cycle_pairs [w; u; o2]) then Some (Some (S (S (S n))))
  else if decide ((a, b) ∈ cycle_pairs [v; w; o2]) then Some (Some (S (S n)))
  else if decide ((a, b) ∈ cycle_pairs [w; v; o1]) then Some (Some (S n))
  else if decide ((a, b) ∈ cycle_pairs [u; w; o1]) then Some (Some n)
  else if decide ((a, b) = (u, v) ∨ (a, b) = (v, u)) then None
  else he m a b.

(** The directory as a function after [mesh.halfedge[u][v] = f]. *)
Definition set_entry (u v : key) (f : hface)
    (old : key → key → option hface) (a b : key) : option hface :=
  if decide ((a, b) = (u, v)) then Some f else old a b.

(** The directory after [trimesh_split_edge] split the edge [u]–[v] with
    the triangle [(u, v, o1)] on one side and the outside on the other at
    [w], with the new faces [n] and [n + 1], read at [(a → b)]. *)
Definition trisplit_he_boundary (m : Mesh) (u v w o1 n : key) (a b : key)
  : option hface :=
  if decide ((a, b) = (v, w) ∨ (a, b) = (w, u)) then Some None
  else if decide ((a, b) ∈ cycle_pairs [w; v; o1]) then Some (Some (S n))
  else if decide ((a, b) ∈ cycle_pairs [u; w; o1]) then Some (Some n)
  else if decide ((a, b) = (u, v) ∨ (a, b) = (v, u)) then None
  else he m a b.

(** The triangle mesh of a tetrahedron without its base: three triangles
    around vertex 3. *)
Definition three_triangles : Mesh :=
  exec (add_vertex None (0, 0, 0)%float ;;;
        add_vertex None (2, 0, 0)%float ;;;
        add_vertex None (1, 2, 0)%float ;;;
        add_vertex None (1, 1, 0)%float ;;;
        add_face [0; 1; 3] None ;;;
        add_face [1; 2; 3] None ;;;
        add_face [2; 0; 3] None) empty_mesh.

(** * Facts about [split.py] *)

Lemma quad_mesh_wf : mesh_wf quad_mesh.
Proof. apply (bool_decide_unpack _). vm_compute. exact I. Qed.

Lemma two_triangles_wf : mesh_wf two_triangles.
Proof. apply (bool_decide_unpack _). vm_compute. exact I. Qed.

(** *** [list.index] *)

Lemma index_lookup x l i : index x l = Some i → l !! i = Some x.
Proof.
  revert i. induction l as [|y l IH]; intros i; simpl; [done|].
  destruct (decide (x = y)) as [->|Hne].
  - intros [= <-]. done.
  - destruct (index x l) as [k|] eqn:E; simpl; [|done].
    intros [= <-]. simpl. by apply IH.
Qed.

Lemma index_elem_of x l i : index x l = Some i → x ∈ l.
Proof. intros H. eapply list_elem_of_lookup_2, index_lookup, H. Qed.

Lemma index_lt x l i : index x l = Some i → i < length l.
Proof. intros H. eapply lookup_lt_Some, index_lookup, H. Qed.

Lemma index_elem_of_Some x l : x ∈ l → is_Some (index x l).
Proof.
  induction l as [|y l IH]; [by intros ?%elem_of_nil|].
  intros [->|Hin]%elem_of_cons; simpl.
  - rewrite decide_True by done. eauto.
  - destruct (decide (x = y)); [eauto|].
    destruct (IH Hin) as [k ->]. simpl. eauto.
Qed.

Lemma index_NoDup x l i : NoDup l → l !! i = Some x → index x l = Some i.
Proof.
  intros Hnd Hi.
  destruct (index_elem_of_Some x l) as [k Hk].
  { eapply list_elem_of_lookup_2, Hi. }
  rewrite Hk. f_equal.
  eapply NoDup_lookup; eauto using index_lookup.
Qed.

Lemma py_in_true x l : x ∈ l → py_in x l = true.
Proof. intros H. unfold py_in. by apply bool_decide_eq_true_2. Qed.

(** *** The slices of [mesh_split_face] are the two arcs *)

Lemma mod_wrap a n : a < n → (a + n) mod n = a.
Proof.
  intros H. replace (a + n) with (a + 1 * n) by lia.
  rewrite Nat.Div0.mod_add. by apply Nat.mod_small.
Qed.

Lemma rotate_lt {A} (l : list A) i : i < length l → rotate i l = drop i l ++ take i l.
Proof. intros H. unfold rotate. by rewrite Nat.mod_small. Qed.

(** The arc that does not wrap around: a plain slice. *)
Lemma arc_forward c i j :
  i < j → j < length c → arc c i j = slice c i (j + 1).
Proof.
  intros Hij Hj. unfold arc, slice.
  rewrite rotate_lt by lia.
  replace (j + length c - i) with ((j - i) + length c) by lia.
  rewrite mod_wrap by lia.
  rewrite take_app_le by (rewrite length_drop; lia).
  rewrite take_drop_commute. f_equal. f_equal. lia.
Qed.

(** The arc that wraps around: the tail of the list, then its head. *)
Lemma arc_wrap c i j :
  j < i → i < length c → arc c i j = drop i c ++ take (j + 1) c.
Proof.
  intros Hji Hi. unfold arc.
  rewrite rotate_lt by lia.
  rewrite Nat.mod_small by lia.
  rewrite take_app_ge by (rewrite length_drop; lia).
  rewrite length_drop. f_equal.
  rewrite take_take. f_equal. lia.
Qed.

Lemma split_cycles_arcs c i j :
  i < length c → j < length c → i ≠ j →
  split_cycles c i j = (arc c i j, arc c j i).
Proof.
  intros Hi Hj Hne. unfold split_cycles. case_bool_decide.
  - by rewrite arc_forward, arc_wrap by lia.
  - by rewrite arc_wrap, arc_forward by lia.
Qed.

(** The arc from [i] to [j] visits the positions [i], [i+1], …, [j] of the
    cycle, modulo its length. *)
Lemma arc_length c i j :
  i < length c → j < length c →
  length (arc c i j) = S ((j + length c - i) mod length c).
Proof.
  intros Hi Hj. unfold arc. rewrite length_take, length_rotate.
  pose proof (Nat.mod_upper_bound (j + length c - i) (length c)). lia.
Qed.

Lemma arc_lookup c i j k :
  i < length c → j < length c → k ≤ (j + length c - i) mod length c →
  arc c i j !! k = c !! ((i + k) mod length c).
Proof.
  intros Hi Hj Hk. unfold arc.
  pose proof (Nat.mod_upper_bound (j + length c - i) (length c)).
  rewrite lookup_take_lt by lia.
  rewrite lookup_rotate_r by lia.
  unfold rotate_nat_add. f_equal.
  rewrite <- Nat2Z.inj_add, <- Nat2Z.inj_mod. by rewrite Nat2Z.id.
Qed.

(** *** Running [mesh_split_face] *)

Tactic Notation "unfold_monad" :=
  cbv beta iota delta [bind get modify ret raise lift_opt].
Tactic Notation "unfold_monad" "in" hyp(H) :=
  cbv beta iota delta [bind get modify ret raise lift_opt] in H.

Lemma wf_fresh_fkey m k : mesh_wf m → next_fkey m ≤ k → face m !! k = None.
Proof.
  intros (_ & _ & _ & Hf) Hk.
  destruct (face m !! k) eqn:E; [|done].
  apply Hf in E. simpl in E. lia.
Qed.

Lemma wf_fkey_lt m k c : mesh_wf m → face m !! k = Some c → k < next_fkey m.
Proof. intros (_ & _ & _ & Hf) E. by apply Hf in E. Qed.

(** Whenever the guards of [mesh_split_face] pass, the two lists of
    [split_cycles] become the faces [next_fkey] and [next_fkey + 1], and the
    split face is removed. *)
Lemma mesh_split_face_run m fkey u v c i j :
  mesh_wf m →
  face m !! fkey = Some c →
  index u c = Some i → index v c = Some j → i + 1 ≠ j →
  ∃ m', mesh_split_face fkey u v m
          = (inr (next_fkey m, S (next_fkey m)), m') ∧
        face m' = <[S (next_fkey m) := (split_cycles c i j).2]>
                    (<[next_fkey m := (split_cycles c i j).1]>
                       (delete fkey (face m))) ∧
        vertex m' = vertex m.
Proof.
  intros Hwf Hc Hi Hj Hne.
  pose proof (wf_fkey_lt _ _ _ Hwf Hc) as Hlt.
  unfold mesh_split_face, face_at. unfold_monad. rewrite Hc. unfold_monad.
  rewrite !py_in_true by eauto using index_elem_of. simpl.
  rewrite Hi, Hj. unfold_monad. rewrite bool_decide_eq_false_2 by done.
  destruct (split_cycles c i j) as [F G]. simpl.
  unfold add_face, del_face. unfold_monad. simpl.
  rewrite Nat.max_r by lia. rewrite Nat.max_r by lia.
  rewrite lookup_insert_ne by lia. rewrite lookup_insert_ne by lia.
  rewrite Hc. eexists. split; [reflexivity|]. simpl. split; [|done].
  rewrite delete_insert_ne by lia. by rewrite delete_insert_ne by lia.
Qed.

(** [mesh_split_face] rejects [v] directly after [u] in list order, before
    it touches the mesh. *)
Lemma mesh_split_face_neighbours m fkey u v c i :
  face m !! fkey = Some c →
  index u c = Some i → index v c = Some (i + 1) →
  mesh_split_face fkey u v m = (inl Adjacent, m).
Proof.
  intros Hc Hi Hj.
  unfold mesh_split_face, face_at. unfold_monad. rewrite Hc. unfold_monad.
  rewrite !py_in_true by eauto using index_elem_of. simpl.
  rewrite Hi, Hj. unfold_monad. by rewrite bool_decide_eq_true_2.
Qed.

(** C7.  In a mesh that satisfies the invariants, let face [fkey] have the
    cycle [c], with [u] at position [i] and [v] at position [j], [u ≠ v],
    and [i], [j] not cyclically adjacent.  Then [mesh_split_face] returns two
    face keys [f], [g] that were not in use, and the faces of the mesh are the
    old ones without [fkey], plus [f] with the arc of [c] from [u] to [v]
    and [g] with the arc from [v] to [u], both inclusive and in the sense
    of [c]. *)
Theorem mesh_split_face_arcs m fkey u v c i j :
  mesh_wf m →
  face m !! fkey = Some c →
  c !! i = Some u → c !! j = Some v → u ≠ v →
  ¬ cyclically_adjacent c i j →
  ∃ f g m',
    mesh_split_face fkey u v m = (inr (f, g), m') ∧
    f ≠ g ∧ face m !! f = None ∧ face m !! g = None ∧
    face m' = <[g := arc c j i]> (<[f := arc c i j]> (delete fkey (face m))) ∧
    face m' !! fkey = None ∧
    vertex m' = vertex m.
Proof.
  intros Hwf Hc Hu Hv Huv Hadj.
  assert (NoDup c) as Hnd by (destruct Hwf as (Hf & _); by apply Hf in Hc as (_ & ? & _)).
  pose proof (lookup_lt_Some _ _ _ Hu) as Hi.
  pose proof (lookup_lt_Some _ _ _ Hv) as Hj.
  assert (i ≠ j) as Hij by (intros ->; congruence).
  assert (i + 1 ≠ j) as Hne.
  { intros <-. apply Hadj. left. by apply Nat.mod_small. }
  destruct (mesh_split_face_run m fkey u v c i j) as (m' & Hrun & Hface & Hvert);
    auto using index_NoDup.
  rewrite split_cycles_arcs in Hface by done. simpl in Hface.
  pose proof (wf_fkey_lt _ _ _ Hwf Hc) as Hlt.
  exists (next_fkey m), (S (next_fkey m)), m'.
  repeat split; auto using wf_fresh_fkey.
  rewrite Hface, !lookup_insert_ne by lia. apply lookup_delete_eq.
Qed.

(** C7, at the unit quad: the chord 1–3 splits [0, 1, 2, 3] into [1, 2, 3]
    and [3, 0, 1]. *)
Lemma mesh_split_face_arcs_witness :
  ∃ f g m',
    mesh_split_face 0 1 3 quad_mesh = (inr (f, g), m') ∧
    f ≠ g ∧ face quad_mesh !! f = None ∧ face quad_mesh !! g = None ∧
    face m' = <[g := [3; 0; 1]]> (<[f := [1; 2; 3]]> (delete 0 (face quad_mesh))) ∧
    face m' !! 0 = None ∧
    vertex m' = vertex quad_mesh.
Proof.
  apply (mesh_split_face_arcs quad_mesh 0 1 3 [0; 1; 2; 3] 1 3).
  - exact quad_mesh_wf.
  - reflexivity.
  - reflexivity.
  - reflexivity.
  - lia.
  - unfold cyclically_adjacent. simpl. lia.
Defined.

(** C1, where the code departs from it.  On the unit quad [0, 1, 2, 3] the
    vertices 1, 0 (u directly after v) and 3, 0 (neighbours across the end
    of the list) are cyclically adjacent, yet [mesh_split_face] raises
    nothing: it removes face 0 and adds a two-vertex face next to a copy of
    the whole cycle. *)
Theorem mesh_split_face_adjacent_not_rejected :
  cyclically_adjacent [0; 1; 2; 3] 1 0 ∧
  (mesh_split_face 0 1 0 quad_mesh).1 = inr (1, 2) ∧
  face (exec (mesh_split_face 0 1 0) quad_mesh)
    = <[2 := [0; 1]]> {[1 := [1; 2; 3; 0]]} ∧
  cyclically_adjacent [0; 1; 2; 3] 3 0 ∧
  (mesh_split_face 0 3 0 quad_mesh).1 = inr (1, 2) ∧
  face (exec (mesh_split_face 0 3 0) quad_mesh)
    = <[2 := [0; 1; 2; 3]]> {[1 := [3; 0]]}.
Proof.
  repeat split; try (vm_compute; reflexivity).
  - right. reflexivity.
  - left. reflexivity.
Qed.



(** *** Comparisons of binary64 numbers *)

Lemma SFcompare_Lt_Gt x y :
  SFcompare x y = Some Lt → SFcompare y x = Some Gt.
Proof.
  destruct x as [sx|sx| |sx mx ex], y as [sy|sy| |sy my ey]; simpl;
    try discriminate; try (destruct sx; try destruct sy; simpl; congruence);
    try (destruct sy; simpl; congruence).
  rewrite (Z.compare_antisym ex ey).
  assert (Pos.compare_cont Eq my mx = CompOpp (Pos.compare_cont Eq mx my))
    as -> by (rewrite Pos.compare_cont_antisym; reflexivity).
  destruct sx, sy; try congruence;
    destruct (ex ?= ey)%Z; simpl; try congruence;
    destruct (Pos.compare_cont Eq mx my); simpl; congruence.
Qed.

(** [x < y] excludes [y <= x]. *)
Lemma ltb_leb_false (x y : float) :
  (x <? y)%float = true → (y <=? x)%float = false.
Proof.
  rewrite ltb_spec, leb_spec. unfold SFltb, SFleb.
  destruct (SFcompare (Prim2SF x) (Prim2SF y)) as [[]|] eqn:E;
    try discriminate.
  intros _. by rewrite (SFcompare_Lt_Gt _ _ E).
Qed.

(** *** What the invariants say about an edge *)

Lemma cycle_pairs_lookup c u v :
  (u, v) ∈ cycle_pairs c →
  ∃ i, i < length c ∧ c !! i = Some u ∧ c !! ((i + 1) mod length c) = Some v.
Proof.
  unfold cycle_pairs. intros (i & Hi)%list_elem_of_lookup_1.
  apply lookup_zip_with_Some in Hi as (x & y & [= <- <-] & Hx & Hy).
  pose proof (lookup_lt_Some _ _ _ Hx) as Hlt.
  exists i. split; [done|]. split; [done|].
  rewrite lookup_rotate_r in Hy by done.
  rewrite <- Hy. f_equal. unfold rotate_nat_add.
  replace (i + 1) with (1 + i) by lia.
  rewrite <- Nat2Z.inj_add, <- Nat2Z.inj_mod. by rewrite Nat2Z.id.
Qed.

Lemma wf_he_face m u v f :
  mesh_wf m → he m u v = Some (Some f) →
  ∃ c i, face m !! f = Some c ∧ NoDup c ∧ 3 ≤ length c ∧ i < length c ∧
         c !! i = Some u ∧ c !! ((i + 1) mod length c) = Some v.
Proof.
  intros (Hf & Hh & _) Huv. unfold he in Huv.
  destruct (halfedge m !! u) as [row|] eqn:Hrow; [|done]. simpl in Huv.
  apply Hh in Hrow as (_ & Hrow). apply Hrow in Huv as (_ & Hon).
  simpl in Hon. unfold on_face in Hon.
  destruct (face m !! f) as [c|] eqn:Hc; [|done]. simpl in Hon.
  apply cycle_pairs_lookup in Hon as (i & Hi & Hu & Hv).
  apply Hf in Hc as Hok. destruct Hok as (Hlen & Hnd & _).
  by exists c, i.
Qed.

Lemma wf_he_vertex m u v x :
  mesh_wf m → he m u v = Some x → is_Some (vertex m !! u).
Proof.
  intros (_ & Hh & _) Huv. unfold he in Huv.
  destruct (halfedge m !! u) as [row|] eqn:Hrow; [|done].
  by apply Hh in Hrow as (? & _).
Qed.

Lemma wf_fresh_vkey m : mesh_wf m →
  vertex m !! next_vkey m = None ∧ halfedge m !! next_vkey m = None.
Proof.
  intros (_ & Hh & Hv & _).
  assert (vertex m !! next_vkey m = None) as Hnone.
  { destruct (vertex m !! next_vkey m) eqn:E; [|done].
    apply Hv in E. simpl in E. lia. }
  split; [done|].
  destruct (halfedge m !! next_vkey m) eqn:E; [|done].
  apply Hh in E as ([? E] & _). congruence.
Qed.

(** The endpoints of a directory entry that maps to a face are distinct. *)
Lemma wf_he_ne m u v f : mesh_wf m → he m u v = Some (Some f) → u ≠ v.
Proof.
  intros Hwf Huv ->.
  destruct (wf_he_face _ _ _ _ Hwf Huv) as (c & i & _ & Hnd & Hlen & Hi & Hu & Hv).
  assert (i = (i + 1) mod length c) as Heq by (eapply NoDup_lookup; eauto).
  destruct (decide (i + 1 < length c)).
  - rewrite Nat.mod_small in Heq by done. lia.
  - replace (i + 1) with (length c) in Heq by lia.
    rewrite Nat.Div0.mod_same in Heq. lia.
Qed.

(** The two sides of an interior edge are different faces. *)
Lemma wf_he_twin_ne m u v f g :
  mesh_wf m → he m u v = Some (Some f) → he m v u = Some (Some g) → f ≠ g.
Proof.
  intros Hwf Huv Hvu ->.
  destruct (wf_he_face _ _ _ _ Hwf Huv) as (c & i & Hc & Hnd & Hlen & Hi & Hu & Hv).
  destruct (wf_he_face _ _ _ _ Hwf Hvu) as (c' & j & Hc' & _ & _ & Hj & Hv' & Hu').
  assert (c' = c) as -> by congruence.
  assert ((i + 1) mod length c = j) as Hij by (eapply NoDup_lookup; eauto).
  assert ((j + 1) mod length c = i) as Hji by (eapply NoDup_lookup; eauto).
  destruct (decide (i + 1 < length c)).
  - rewrite Nat.mod_small in Hij by done. subst j.
    destruct (decide (i + 1 + 1 < length c)).
    + rewrite Nat.mod_small in Hji by done. lia.
    + replace (i + 1 + 1) with (length c) in Hji by lia.
      rewrite Nat.Div0.mod_same in Hji. lia.
  - replace (i + 1) with (length c) in Hij by lia.
    rewrite Nat.Div0.mod_same in Hij. subst j.
    rewrite Nat.mod_small in Hji by lia. lia.
Qed.

(** *** Running [mesh_split_edge] *)

Lemma set_halfedge_run m u v f row :
  halfedge m !! u = Some row →
  set_halfedge u v f m
    = (inr tt, with_halfedge (<[u := <[v := f]> row]> (halfedge m)) m).
Proof. intros H. unfold set_halfedge. unfold_monad. by rewrite H. Qed.

Lemma del_halfedge_run m u v row x :
  halfedge m !! u = Some row → row !! v = Some x →
  del_halfedge u v m
    = (inr tt, with_halfedge (<[u := delete v row]> (halfedge m)) m).
Proof.
  intros H1 H2. unfold del_halfedge. unfold_monad. by rewrite H1, H2.
Qed.

Lemma face_at_run m f c : face m !! f = Some c → face_at f m = (inr c, m).
Proof. intros H. unfold face_at. unfold_monad. by rewrite H. Qed.

Lemma he_Some m u v x :
  he m u v = Some x ↔ ∃ row, halfedge m !! u = Some row ∧ row !! v = Some x.
Proof.
  unfold he. destruct (halfedge m !! u) as [row|]; simpl; split.
  - intros Hx. by exists row.
  - by intros (? & [= <-] & Hx).
  - done.
  - by intros (? & [=] & _).
Qed.



(** * Facts about [triangulation.py] *)

(** *** Running monadic code *)

Lemma bind_inr {A B} (c : M A) (f : A → M B) m b m' :
  bind c f m = (inr b, m') ↔
  ∃ a m1, c m = (inr a, m1) ∧ f a m1 = (inr b, m').
Proof.
  unfold bind. destruct (c m) as [[e|a] m1]; split.
  - done.
  - by intros (? & ? & [=] & _).
  - intros Hf. by exists a, m1.
  - by intros (? & ? & [= <- <-] & Hf).
Qed.

Lemma bind_inl {A B} (c : M A) (f : A → M B) m e m' :
  c m = (inl e, m') → bind c f m = (inl e, m').
Proof. intros Hc. unfold bind. by rewrite Hc. Qed.

Lemma bind_run {A B} (c : M A) (f : A → M B) m a m1 :
  c m = (inr a, m1) → bind c f m = f a m1.
Proof. intros Hc. unfold bind. by rewrite Hc. Qed.

Lemma forM_cons_inr {A} (x : A) l (body : A → M unit) m m' :
  forM (x :: l) body m = (inr tt, m') ↔
  ∃ m1, body x m = (inr tt, m1) ∧ forM l body m1 = (inr tt, m').
Proof.
  simpl. rewrite bind_inr. split.
  - intros ([] & m1 & ? & ?). eauto.
  - intros (m1 & ? & ?). by exists tt, m1.
Qed.

Section TriangulationFacts.
Context `{Geometry} `{IterOrder}.

Lemma elem_of_iter_keys (s : gset key) k : k ∈ iter_keys s ↔ k ∈ s.
Proof. by rewrite iter_keys_perm, elem_of_elements. Qed.

Lemma elem_of_faces m f : f ∈ faces m ↔ is_Some (face m !! f).
Proof. unfold faces. by rewrite elem_of_iter_keys, elem_of_dom. Qed.

Lemma elem_of_vertices m k : k ∈ vertices m ↔ is_Some (vertex m !! k).
Proof. unfold vertices. by rewrite elem_of_iter_keys, elem_of_dom. Qed.

(** *** The super-triangle *)

(** C5, as the code has it.  The three super-triangle vertices are the
    centroid [c] of the perturbed sites plus (0·dis, 2·dis, 0),
    (1.73205·dis, −1.0000000000001·dis, 0) and (−1.73205·dis, −1·dis, 0),
    where [dis] is 300 times the distance between corners 0 and 2 of the
    bounding box of the perturbed sites.  They get the keys n, n+1, n+2 for
    n sites, none of which is a key of the empty mesh, and the only face
    of the mesh is (n, n+1, n+2). *)
Theorem bootstrap_super_triangle tiny rand points bb0 bb2 :
  let sites := jitter tiny rand points in
  bounding_box sites !! 0 = Some bb0 →
  bounding_box sites !! 2 = Some bb2 →
  let c := centroid_points sites in
  let dis := (distance_point_point bb0 bb2 * 300)%float in
  let n := length points in
  ∃ m,
    bootstrap sites empty_mesh = (inr (n, n + 1, n + 2), m) ∧
    vertex m =
      <[n + 2 := add_vectors c (-1.73205 * dis, -1 * dis, 0)%float]>
        (<[n + 1 := add_vectors c (1.73205 * dis, -1.0000000000001 * dis, 0)%float]>
           (<[n := add_vectors c (0 * dis, 2 * dis, 0)%float]> ∅)) ∧
    face m = {[0 := [n; n + 1; n + 2]]} ∧
    ∀ i, i < n → vertex m !! i = None.
Proof.
  intros sites Hb0 Hb2 c dis n.
  assert (length sites = n) as Hlen by (unfold sites, jitter; by rewrite length_imap).
  eexists. split.
  - unfold bootstrap, super_triangle. rewrite Hb0, Hb2, Hlen.
    unfold lift_res, add_vertex, add_face. unfold_monad.
    reflexivity.
  - cbn [vertex face from_option id].
    split; [reflexivity|]. split; [reflexivity|].
    intros i Hi. rewrite !lookup_insert_ne by lia. apply lookup_empty.
Qed.

(** *** Point location and the unbound work list *)

(** The scan runs to its end when no visited triangle contains the site. *)
Lemma locate_none pt k fkeys m :
  Forall (λ fkey, ∃ abc, triangle_xy fkey m = (inr abc, m) ∧
                         is_point_in_triangle_xy pt abc true = false) fkeys →
  locate pt k fkeys m = (inr None, m).
Proof.
  induction 1 as [|fkey rest (abc & Htri & Hout) _ IH]; [done|].
  simpl. rewrite (bind_run _ _ _ _ _ Htri). by rewrite Hout.
Qed.

(** A site that is not located while [newtris] was never assigned: the
    test [while newtris:] raises. *)
Lemma insert_site_unbound fuel i pt m :
  locate pt i (faces m) m = (inr None, m) →
  insert_site fuel None i pt m = (inl (UnboundLocalError "newtris"), m).
Proof.
  intros Hloc. unfold insert_site. unfold_monad. by rewrite Hloc.
Qed.

Lemma lawson_nil fuel k pt m : lawson fuel k pt [] m = (inr tt, m).
Proof. by destruct fuel. Qed.

(** A site that is not located after an earlier site was inserted: the
    work list is the empty list that the earlier [while] loop left, and
    the site is skipped. *)
Lemma insert_site_skipped fuel i pt m :
  locate pt i (faces m) m = (inr None, m) →
  insert_site fuel (Some []) i pt m = (inr (Some []), m).
Proof.
  intros Hloc. unfold insert_site. unfold_monad. rewrite Hloc.
  by rewrite lawson_nil.
Qed.

(** Whenever a pass of the site loop ends normally, the work list is bound
    to the empty list. *)
Lemma insert_site_leaves_empty fuel newtris i pt m r m' :
  insert_site fuel newtris i pt m = (inr r, m') → r = Some [].
Proof.
  unfold insert_site. intros (m0 & m1 & _ & Hrest)%bind_inr.
  apply bind_inr in Hrest as (loc & m2 & _ & Hrest).
  destruct (match loc with Some (_, tris) => Some tris | None => newtris end);
    [|done].
  by apply bind_inr in Hrest as ([] & m3 & _ & [= <- _]).
Qed.

(** *** The flipping loop *)

Lemma lawson_unfold fuel k pt newtris' fkey newtris m :
  pop newtris' = Some (fkey, newtris) →
  lawson (S fuel) k pt newtris' m =
    bind (lawson_body k pt fkey newtris) (lawson fuel k pt) m.
Proof. intros Hpop. simpl. by rewrite Hpop. Qed.

(** C4, as the code has it.  In any pass of the flipping loop, if the
    construction of the circumcircle of the opposite face fails, then the
    pass fails with that error: the mesh is as it was (no edge is
    flipped), the loop ends with the error, and so does the loop over the
    sites. *)
Theorem lawson_degenerate_propagates
    fuel k pt newtris' fkey newtris m fop u v a b c :
  pop newtris' = Some (fkey, newtris) →
  opposite_face k fkey m = (inr (Some fop, u, v), m) →
  fop ≠ 0 →
  triangle_xy fop m = (inr (a, b, c), m) →
  circle_from_points_xy a b c = inl Degenerate →
  lawson_body k pt fkey newtris m = (inl Degenerate, m) ∧
  lawson (S fuel) k pt newtris' m = (inl Degenerate, m) ∧
  ∀ held i m0 rest,
    locate pt i (faces m0) m0 = (inr (Some (k, newtris')), m) →
    insert_sites (S fuel) held i (pt :: rest) m0 = (inl Degenerate, m).
Proof.
  intros Hpop Hopp Hne Htri Hcirc.
  assert (lawson_body k pt fkey newtris m = (inl Degenerate, m)) as Hbody.
  { unfold lawson_body. rewrite (bind_run _ _ _ _ _ Hopp).
    destruct fop as [|fop']; [done|].
    rewrite (bind_run _ _ _ _ _ Htri). by rewrite Hcirc. }
  assert (lawson (S fuel) k pt newtris' m = (inl Degenerate, m)) as Hloop.
  { rewrite (lawson_unfold _ _ _ _ _ _ _ Hpop). by apply bind_inl. }
  split; [done|]. split; [done|].
  intros held i m0 rest Hloc.
  cbn [insert_sites]. apply bind_inl.
  unfold insert_site. unfold_monad. rewrite Hloc.
  by rewrite Hloop.
Qed.

(** *** Clipping *)

Lemma mapM_vertex_at c m : mapM vertex_at c m = (coords_of (vertex m) c, m).
Proof.
  induction c as [|k c IH]; [done|].
  simpl. unfold vertex_at at 1. unfold_monad.
  destruct (vertex m !! k) as [p|]; [|done].
  rewrite IH. by destruct (coords_of (vertex m) c).
Qed.

Lemma face_centroid_run f m :
  face_centroid f m =
    (match face m !! f with
     | None => inl KeyError
     | Some c =>
         match coords_of (vertex m) c with
         | inr ps => inr (centroid_points ps)
         | inl e => inl e
         end
     end, m).
Proof.
  unfold face_centroid, face_coordinates, face_at. unfold_monad.
  destruct (face m !! f) as [c|]; [|done].
  rewrite mapM_vertex_at. by destruct (coords_of (vertex m) c).
Qed.

Lemma delete_face_run f m c :
  face m !! f = Some c →
  ∃ m', delete_face f m = (inr tt, m') ∧
        vertex m' = vertex m ∧ face m' = delete f (face m).
Proof.
  intros Hc. unfold delete_face, face_at. unfold_monad. rewrite Hc.
  eexists. split; [reflexivity|]. done.
Qed.

Lemma delete_face_inr f m m' :
  delete_face f m = (inr tt, m') →
  vertex m' = vertex m ∧ face m' = delete f (face m).
Proof.
  unfold delete_face, face_at. unfold_monad.
  destruct (face m !! f) as [c|]; [|done].
  by intros [= <-].
Qed.

Lemma shrinks_refl m : shrinks m m.
Proof. by split. Qed.

Lemma shrinks_trans m1 m2 m3 : shrinks m1 m2 → shrinks m2 m3 → shrinks m1 m3.
Proof.
  intros [Hv1 Hf1] [Hv2 Hf2]. split; [congruence|]. eauto.
Qed.

Lemma kept_ok_shrinks test m m' : shrinks m m' → kept_ok test m → kept_ok test m'.
Proof.
  intros [Hv Hf] Hok f c Hc.
  destruct (Hok f c (Hf _ _ Hc)) as (ctr & Hctr & Htest).
  exists ctr. split; [|done].
  rewrite face_centroid_run in Hctr |- *.
  rewrite Hv, Hc. rewrite (Hf _ _ Hc) in Hctr. by injection Hctr as ->.
Qed.

(** One pass over the faces [fkeys]: the mesh shrinks, and the faces of
    [fkeys] that are left fail the test. *)
Lemma clip_loop test fkeys m m' :
  forM fkeys (clip_pass test) m = (inr tt, m') →
  shrinks m m' ∧
  ∀ f c, f ∈ fkeys → face m' !! f = Some c →
    ∃ ctr, face_centroid f m' = (inr ctr, m') ∧ test ctr = false.
Proof.
  revert m. induction fkeys as [|g fkeys IH]; intros m.
  - intros [= <-]. split; [apply shrinks_refl|]. by intros ?? ?%elem_of_nil.
  - intros (m1 & Hg & Hrest)%forM_cons_inr.
    destruct (IH _ Hrest) as [Hsh Hok].
    assert (shrinks m m1 ∧
            (is_Some (face m1 !! g) →
             ∃ ctr, face_centroid g m1 = (inr ctr, m1) ∧ test ctr = false))
      as [Hsh1 Hg1].
    { unfold clip_pass in Hg.
      apply bind_inr in Hg as (ctr & m0 & Hctr & Hg).
      assert (m0 = m) as -> by (rewrite face_centroid_run in Hctr; congruence).
      destruct (test ctr) eqn:Htest.
      - apply delete_face_inr in Hg as [Hv Hf]. split.
        + split; [done|]. intros f c. rewrite Hf.
          by intros [_ ?]%lookup_delete_Some.
        + rewrite Hf, lookup_delete_eq. by intros [? ?].
      - injection Hg as <-. split; [apply shrinks_refl|]. eauto. }
    split; [by eapply shrinks_trans|].
    intros f c [->|Hin]%elem_of_cons Hc; [|by eauto].
    destruct Hsh as [Hv Hf].
    destruct Hg1 as (ctr & Hctr & Htest); [by eauto|].
    exists ctr. split; [|done].
    rewrite face_centroid_run in Hctr |- *.
    rewrite Hv, Hc. rewrite (Hf _ _ Hc) in Hctr. by injection Hctr as ->.
Qed.

(** A pass over all faces of the mesh. *)
Lemma clip_all test m m' :
  forM (faces m) (clip_pass test) m = (inr tt, m') →
  shrinks m m' ∧ kept_ok test m'.
Proof.
  intros Hrun. destruct (clip_loop _ _ _ _ Hrun) as [Hsh Hok].
  split; [done|]. intros f c Hc. apply (Hok f c); [|done].
  apply elem_of_faces. destruct Hsh as [_ Hf]. eauto.
Qed.

Lemma clip_boundary_inr boundary m m' :
  clip_boundary boundary m = (inr tt, m') →
  shrinks m m' ∧
  ∀ b, boundary = Some b → b ≠ [] →
    kept_ok (λ ctr, negb (is_point_in_polygon_xy ctr b)) m'.
Proof.
  unfold clip_boundary. destruct boundary as [[|p b]|]; simpl.
  - intros [= <-]. split; [apply shrinks_refl|]. by intros ? [= <-].
  - intros Hrun. unfold_monad.
    apply clip_all in Hrun as [Hsh Hok]. split; [done|].
    by intros ? [= <-] _.
  - intros [= <-]. split; [apply shrinks_refl|]. done.
Qed.

Lemma clip_holes_inr hs m m' :
  forM hs (λ polygon,
    let* m := get in
    forM (faces m) (λ fkey,
      let* centroid := face_centroid fkey in
      if is_point_in_polygon_xy centroid polygon
      then delete_face fkey else ret tt)) m = (inr tt, m') →
  shrinks m m' ∧
  ∀ h, h ∈ hs → kept_ok (λ ctr, is_point_in_polygon_xy ctr h) m'.
Proof.
  revert m. induction hs as [|h hs IH]; intros m.
  - intros [= <-]. split; [apply shrinks_refl|]. by intros ? ?%elem_of_nil.
  - intros (m1 & Hh & Hrest)%forM_cons_inr.
    unfold_monad.
    apply (clip_all (λ ctr, is_point_in_polygon_xy ctr h)) in Hh as [Hsh1 Hok1].
    destruct (IH _ Hrest) as [Hsh Hok].
    split; [by eapply shrinks_trans|].
    intros h' [->|Hin]%elem_of_cons; [|by eauto].
    by eapply kept_ok_shrinks.
Qed.

Lemma mapM_face_vertices l m out m' :
  mapM face_vertices l m = (inr out, m') →
  m' = m ∧ Forall2 (λ f tri, face m !! f = Some tri) l out.
Proof.
  revert out. induction l as [|f l IH]; intros out; simpl.
  - intros [= <- <-]. by split.
  - intros (c & m1 & Hc & Hrest)%bind_inr.
    apply bind_inr in Hrest as (cs & m2 & Hcs & [= <- <-]).
    unfold face_vertices, face_at in Hc. unfold_monad in Hc.
    destruct (face m !! f) as [c'|] eqn:Hf; [|done].
    injection Hc as <- <-.
    destruct (IH _ Hcs) as [-> Hall]. split; [done|]. by constructor.
Qed.


(** *** The Voronoi vertices *)

Lemma set_vertex_xyz_inr k p m m' :
  set_vertex_xyz k p m = (inr tt, m') →
  vertex m' = <[k := p]> (vertex m) ∧ is_Some (vertex m !! k).
Proof.
  unfold set_vertex_xyz. unfold_monad.
  destruct (vertex m !! k) as [q|]; [|done].
  intros [= <-]. split; [done|]. eauto.
Qed.

(** A successful pass of the loop body writes the circumcenter of face [k]
    of the Delaunay mesh to vertex [k]. *)
Lemma move_to_circumcenter_inr delaunay k m m' :
  move_to_circumcenter delaunay k m = (inr tt, m') →
  is_Some (vertex m !! k) ∧
  ∃ a b c center radius normal,
    query (face_coordinates k) delaunay = inr [a; b; c] ∧
    circle_from_points_xy (xy_of a) (xy_of b) (xy_of c)
      = inr (center, radius, normal) ∧
    vertex m' = <[k := center]> (vertex m).
Proof.
  unfold move_to_circumcenter. intros (abc & m1 & Habc & Hrest)%bind_inr.
  unfold lift_res in Habc.
  destruct (query (face_coordinates k) delaunay) as [e|abc'] eqn:Hq; [done|].
  injection Habc as <- <-.
  destruct abc' as [|a [|b [|c [|? ?]]]]; try done.
  apply bind_inr in Hrest as ([[center radius] normal] & m1 & Hc & Hset).
  unfold lift_res in Hc.
  destruct (circle_from_points_xy (xy_of a) (xy_of b) (xy_of c))
    as [e|crn] eqn:Hcirc; [done|].
  injection Hc as -> <-.
  apply set_vertex_xyz_inr in Hset as [Hv Hk].
  split; [done|]. by exists a, b, c, center, radius, normal.
Qed.

(** The loop over the vertices [ks]: the keys of the vertex table do not
    change, the vertices outside [ks] stay as they are, and every vertex
    of [ks] ends at the circumcenter of its face. *)
Lemma move_loop delaunay ks m m' :
  forM ks (move_to_circumcenter delaunay) m = (inr tt, m') →
  dom (vertex m') = dom (vertex m) ∧
  (∀ k, k ∉ ks → vertex m' !! k = vertex m !! k) ∧
  ∀ k xyz, k ∈ ks → vertex m' !! k = Some xyz →
    ∃ a b c center radius normal,
      query (face_coordinates k) delaunay = inr [a; b; c] ∧
      circle_from_points_xy (xy_of a) (xy_of b) (xy_of c)
        = inr (center, radius, normal) ∧
      xyz = center.
Proof.
  revert m. induction ks as [|g ks IH]; intros m.
  - intros [= <-]. split; [done|]. split; [done|]. by intros ?? ?%elem_of_nil.
  - intros (m1 & Hg & Hrest)%forM_cons_inr.
    destruct (IH _ Hrest) as (Hdom & Hframe & Hok).
    apply move_to_circumcenter_inr in Hg
      as (Hin & a & b & c & center & radius & normal & Hq & Hcirc & Hv).
    split.
    { rewrite Hdom, Hv, dom_insert_L.
      apply elem_of_dom in Hin. apply set_eq. intros x.
      rewrite elem_of_union, elem_of_singleton.
      split; [intros [->|?]; done | auto]. }
    split.
    { intros k [Hne Hks]%not_elem_of_cons.
      by rewrite Hframe, Hv, lookup_insert_ne. }
    intros k xyz Hk Hxyz.
    destruct (decide (k ∈ ks)) as [Hks|Hks]; [by eauto|].
    apply elem_of_cons in Hk as [->|?]; [|done].
    exists a, b, c, center, radius, normal. split; [done|]. split; [done|].
    rewrite Hframe, Hv, lookup_insert_eq in Hxyz by done. congruence.
Qed.

(** C9.  Every vertex [k] of the mesh that [voronoi_from_delaunay] returns
    has the coordinates of the center that [circle_from_points_xy] returns
    for the three vertex coordinates of face [k] of the Delaunay mesh. *)
Theorem voronoi_vertices_are_circumcenters delaunay voronoi k xyz :
  voronoi_from_delaunay delaunay = inr voronoi →
  vertex voronoi !! k = Some xyz →
  ∃ a b c center radius normal,
    query (face_coordinates k) delaunay = inr [a; b; c] ∧
    circle_from_points_xy (xy_of a) (xy_of b) (xy_of c)
      = inr (center, radius, normal) ∧
    xyz = center.
Proof.
  unfold voronoi_from_delaunay.
  destruct (mesh_dual delaunay) as [e|dual]; [done|].
  destruct (forM (vertices dual) (move_to_circumcenter delaunay) dual)
    as [[e|[]] m'] eqn:Hloop; [done|].
  intros [= <-] Hk.
  destruct (move_loop _ _ _ _ Hloop) as (Hdom & _ & Hok).
  apply (Hok k xyz); [|done].
  apply elem_of_vertices. apply elem_of_dom. rewrite <- Hdom.
  apply elem_of_dom. eauto.
Qed.

End TriangulationFacts.

(** *** The drivers on the example inputs *)

Section ExampleFacts.
#[local] Existing Instances float_geometry ascending_order.

(** C5, on the unit square without perturbation: bounding-box diagonal
    √2, centroid (0.5, 0.5, 0). *)
Lemma bootstrap_super_triangle_witness :
  let sites := jitter 1e-12 rand_half square_sites in
  let c := centroid_points sites in
  let dis := (distance_point_point (0, 0, 0) (1, 1, 0) * 300)%float in
  ∃ m,
    bootstrap sites empty_mesh = (inr (4, 5, 6), m) ∧
    vertex m =
      <[6 := add_vectors c (-1.73205 * dis, -1 * dis, 0)%float]>
        (<[5 := add_vectors c (1.73205 * dis, -1.0000000000001 * dis, 0)%float]>
           (<[4 := add_vectors c (0 * dis, 2 * dis, 0)%float]> ∅)) ∧
    face m = {[0 := [4; 5; 6]]} ∧
    ∀ i, i < 4 → vertex m !! i = None.
Proof.
  apply (bootstrap_super_triangle 1e-12 rand_half square_sites
           (0, 0, 0)%float (1, 1, 0)%float).
  - vm_compute. reflexivity.
  - vm_compute. reflexivity.
Defined.

(** C5 as the spec words it fails.  For the sites (0, 0) and (1, 0), with
    centroid (0.5, 0) and bounding-box diagonal 1, the second vertex of the
    code's super-triangle is (520.115, −300.00000000003), not
    (0.5 + 300·√3, −300). *)
Lemma super_triangle_not_spec :
  let sites := [(0, 0, 0); (1, 0, 0)]%float in
  centroid_points sites = (0.5, 0, 0)%float ∧
  distance_point_point (0, 0, 0)%float (1, 0, 0)%float = 1%float ∧
  super_triangle sites ≠ inr (spec_super_triangle (0.5, 0, 0)%float 1).
Proof.
  split; [vm_compute; reflexivity|]. split; [vm_compute; reflexivity|].
  intros Heq.
  apply (f_equal (λ r : exn + point * point * point,
                    match r with
                    | inr (_, p2, _) => (p2.1.2 =? -300)%float
                    | inl _ => false
                    end)) in Heq.
  vm_compute in Heq. discriminate Heq.
Qed.


(** C4, on two sites with the same coordinates: when the flipping loop for
    the second site pops face 6, the opposite face 3 has three equal
    vertices and the circumcircle construction fails. *)
Lemma lawson_degenerate_propagates_witness :
  let pt := (1e6, 1e6, 0)%float in
  lawson_body 1 pt 6 [4; 5] twin_sites_state = (inl Degenerate, twin_sites_state) ∧
  lawson 100 1 pt [4; 5; 6] twin_sites_state = (inl Degenerate, twin_sites_state) ∧
  ∀ held i m0 rest,
    locate pt i (faces m0) m0 = (inr (Some (1, [4; 5; 6])), twin_sites_state) →
    insert_sites 100 held i (pt :: rest) m0 = (inl Degenerate, twin_sites_state).
Proof.
  apply (lawson_degenerate_propagates 99 1 (1e6, 1e6, 0)%float [4; 5; 6] 6 [4; 5]
           twin_sites_state 3 0 2
           (1e6, 1e6)%float (1e6, 1e6)%float (1e6, 1e6)%float).
  - reflexivity.
  - vm_compute. reflexivity.
  - lia.
  - vm_compute. reflexivity.
  - vm_compute. reflexivity.
Defined.

(** C4 as the spec words it fails: in the state above the pass does not
    leave the work list as it was, it raises [Degenerate], and so does the
    whole call. *)
Lemma degenerate_not_swallowed :
  opposite_face 1 6 twin_sites_state = (inr (Some 3, 0, 2), twin_sites_state) ∧
  triangle_xy 3 twin_sites_state
    = (inr ((1e6, 1e6), (1e6, 1e6), (1e6, 1e6))%float, twin_sites_state) ∧
  circle_from_points_xy (1e6, 1e6)%float (1e6, 1e6)%float (1e6, 1e6)%float
    = inl Degenerate ∧
  lawson_body 1 (1e6, 1e6, 0)%float 6 [4; 5] twin_sites_state
    = (inl Degenerate, twin_sites_state) ∧
  delaunay_from_points 100 rand_half twin_sites None None 1e-12
    = inl Degenerate ∧
  ¬ swallows_degenerate.
Proof.
  assert (lawson_body 1 (1e6, 1e6, 0)%float 6 [4; 5] twin_sites_state
          = (inl Degenerate, twin_sites_state)) as Hbody
    by (vm_compute; reflexivity).
  split; [vm_compute; reflexivity|].
  split; [vm_compute; reflexivity|].
  split; [vm_compute; reflexivity|].
  split; [exact Hbody|].
  split; [vm_compute; reflexivity|].
  intros Hclaim.
  specialize (Hclaim 1 (1e6, 1e6, 0)%float 6 [4; 5] twin_sites_state 3 0 2
                (1e6, 1e6)%float (1e6, 1e6)%float (1e6, 1e6)%float).
  rewrite Hbody in Hclaim.
  discriminate Hclaim; try lia; vm_compute; reflexivity.
Qed.


(** C9, on the fan of four triangles: Voronoi vertex 0 is at (1, 0, 0),
    the circumcenter of the triangle (0, 0), (2, 0), (1, 1). *)
Lemma voronoi_vertices_are_circumcenters_witness :
  ∃ a b c center radius normal,
    query (face_coordinates 0) fan_mesh = inr [a; b; c] ∧
    circle_from_points_xy (xy_of a) (xy_of b) (xy_of c)
      = inr (center, radius, normal) ∧
    (1, 0, 0)%float = center.
Proof.
  apply (voronoi_vertices_are_circumcenters fan_mesh fan_voronoi 0 (1, 0, 0)%float).
  - vm_compute. reflexivity.
  - vm_compute. reflexivity.
Defined.

End ExampleFacts.

(** * Further facts about [split.py] *)

(** *** The parameter check of [mesh_split_edge] *)

Lemma SFcompare_antisym x y c :
  SFcompare x y = Some c → SFcompare y x = Some (CompOpp c).
Proof.
  destruct x as [sx|sx| |sx mx ex], y as [sy|sy| |sy my ey]; simpl;
    try discriminate;
    try (intros [= <-]; destruct sx; try destruct sy; reflexivity);
    try (intros [= <-]; destruct sy; reflexivity).
  rewrite (Z.compare_antisym ex ey).
  assert (Pos.compare_cont Eq my mx = CompOpp (Pos.compare_cont Eq mx my))
    as -> by (rewrite Pos.compare_cont_antisym; reflexivity).
  intros [= <-]. f_equal.
  destruct sx, sy; try reflexivity;
    destruct (ex ?= ey)%Z; simpl; try reflexivity;
    destruct (Pos.compare_cont Eq mx my); reflexivity.
Qed.

Lemma SFcompare_number x y :
  x ≠ S754_nan → y ≠ S754_nan → is_Some (SFcompare x y).
Proof.
  destruct x as [sx|sx| |sx mx ex], y as [sy|sy| |sy my ey]; simpl;
    intros ??; try done; eauto.
Qed.

Lemma is_number_not_nan t : is_number t → Prim2SF t ≠ S754_nan.
Proof.
  unfold is_number. rewrite FloatAxioms.eqb_spec. unfold SFeqb.
  intros Heq Hnan. rewrite Hnan in Heq. discriminate Heq.
Qed.

(** For numbers, [¬ (x < y)] is [y <= x]. *)
Lemma ltb_false_leb (x y : float) :
  is_number x → is_number y →
  (x <? y)%float = false → (y <=? x)%float = true.
Proof.
  intros Hx%is_number_not_nan Hy%is_number_not_nan.
  rewrite ltb_spec, leb_spec. unfold SFltb, SFleb.
  destruct (SFcompare_number _ _ Hx Hy) as [c Hc].
  rewrite Hc, (SFcompare_antisym _ _ _ Hc). by destruct c.
Qed.

(** X1.  [mesh_split_edge] rejects every number [t] that is not strictly
    between 0 and 1, before it reads the mesh: it raises [ValueError] and
    the mesh is as it was, whether or not [u]–[v] is an edge. *)
Theorem mesh_split_edge_rejects_parameter m u v t allow_boundary :
  is_number t →
  (0 <? t)%float && (t <? 1)%float = false →
  ∃ msg, mesh_split_edge u v t allow_boundary m = (inl (ValueError msg), m).
Proof.
  intros Ht Hout. unfold mesh_split_edge.
  destruct (t <=? 0)%float eqn:H0; [by eexists|].
  destruct (1 <=? t)%float eqn:H1; [by eexists|].
  exfalso. apply andb_false_iff in Hout as [Hlt|Hlt].
  - apply ltb_false_leb in Hlt; [congruence|done|done].
  - apply ltb_false_leb in Hlt; [congruence|done|done].
Qed.

Lemma mesh_split_edge_rejects_parameter_witness :
  ∃ msg, mesh_split_edge 0 2 1.5 false two_triangles
           = (inl (ValueError msg), two_triangles).
Proof.
  apply (mesh_split_edge_rejects_parameter two_triangles 0 2 1.5 false).
  - reflexivity.
  - reflexivity.
Defined.

(** *** [mesh_split_edge] past its checks *)

Lemma index_is_Some x l : x ∈ l → ∃ i, index x l = Some i ∧ l !! i = Some x.
Proof.
  intros [i Hi]%index_elem_of_Some. exists i. eauto using index_lookup.
Qed.

Ltac pair_cases :=
  repeat match goal with
         | H : _ ∨ _ |- _ => destruct H as [H|H]
         | H : (_, _) = (_, _) |- _ => injection H as ??
         | H : ¬ (_ ∨ _) |- _ => apply Decidable.not_or in H as [??]
         end.

Ltac norm_mesh :=
  unfold with_halfedge;
  cbn [vertex face halfedge next_vkey next_fkey from_option id].

(** The mesh that [mesh_split_edge] leaves when it gets past its checks. *)
Lemma mesh_split_edge_run m u v t allow_boundary fuv fvu a b :
  (t <=? 0)%float = false → (1 <=? t)%float = false →
  he m u v = Some fuv → he m v u = Some fvu →
  allow_boundary = true ∨ (is_Some fuv ∧ is_Some fvu) →
  vertex m !! u = Some a → vertex m !! v = Some b →
  vertex m !! next_vkey m = None →
  u ≠ v →
  (∀ f, fuv = Some f → ∃ c, face m !! f = Some c ∧ v ∈ c) →
  (∀ g, fvu = Some g → ∃ c, face m !! g = Some c ∧ u ∈ c ∧ fuv ≠ Some g) →
  ∃ m',
    mesh_split_edge u v t allow_boundary m = (inr (Some (next_vkey m)), m') ∧
    vertex m' = <[next_vkey m := lerp a b t]> (vertex m) ∧
    face m' = split_side fvu u (next_vkey m)
                (split_side fuv v (next_vkey m) (face m)) ∧
    (∀ x y, he m' x y = split_he m u v (next_vkey m) fuv fvu x y) ∧
    (∀ x, is_Some (halfedge m' !! x) ↔
          x = next_vkey m ∨ is_Some (halfedge m !! x)) ∧
    next_vkey m' = S (next_vkey m) ∧ next_fkey m' = next_fkey m.
Proof.
  intros Ht0 Ht1 Huv Hvu Hallow Ha Hb Hw Hne Hfuv Hfvu.
  assert (u ≠ next_vkey m) as Huw by congruence.
  assert (v ≠ next_vkey m) as Hvw by congruence.
  apply he_Some in Huv as Huv'. destruct Huv' as (ru & Hru & Hruv).
  apply he_Some in Hvu as Hvu'. destruct Hvu' as (rv & Hrv & Hrvu).
  assert (∃ m', mesh_split_edge u v t allow_boundary m
                  = (inr (Some (next_vkey m)), m') ∧
    vertex m' = <[next_vkey m := lerp a b t]> (vertex m) ∧
    face m' = split_side fvu u (next_vkey m)
                (split_side fuv v (next_vkey m) (face m)) ∧
    halfedge m' =
      <[v := delete u (<[next_vkey m := fvu]> rv)]>
        (<[next_vkey m := <[u := fvu]> (<[v := fuv]> ∅)]>
           (<[v := <[next_vkey m := fvu]> rv]>
              (<[u := delete v (<[next_vkey m := fuv]> ru)]>
                 (<[next_vkey m := <[v := fuv]> ∅]>
                    (<[u := <[next_vkey m := fuv]> ru]>
                       (<[next_vkey m := ∅]> (halfedge m))))))) ∧
    next_vkey m' = S (next_vkey m) ∧ next_fkey m' = next_fkey m)
    as (m' & Hrun & Hv & Hf & Hh & Hnv & Hnf).
  { assert (negb allow_boundary &&
            (bool_decide (fuv = None) || bool_decide (fvu = None)) = false)
      as Hgo.
    { destruct Hallow as [->|[[? ->] [? ->]]]; [done|].
      rewrite !bool_decide_eq_false_2 by done. apply andb_false_r. }
    assert (∀ f, fuv = Some f →
              ∃ c j, face m !! f = Some c ∧ index v c = Some j) as Hfuv'.
    { intros f Hf. destruct (Hfuv f Hf) as (c & Hc & Hin).
      destruct (index_is_Some _ _ Hin) as (j & Hj & _). eauto. }
    assert (∀ g, fvu = Some g →
              ∃ c i, face m !! g = Some c ∧ index u c = Some i ∧
                     fuv ≠ Some g) as Hfvu'.
    { intros g Hg. destruct (Hfvu g Hg) as (c & Hc & Hin & ?).
      destruct (index_is_Some _ _ Hin) as (i & Hi & _). eauto 6. }
    clear Hfuv Hfvu Hallow.
    assert (next_vkey m `max` S (next_vkey m) = S (next_vkey m)) as Hmax by lia.
    unfold mesh_split_edge. rewrite Ht0, Ht1.
    unfold halfedge_at. unfold_monad. rewrite Huv. unfold_monad.
    rewrite Hvu. unfold_monad. rewrite Hgo.
    unfold edge_point, vertex_at. unfold_monad.
    rewrite Ha. unfold_monad. rewrite Hb. unfold_monad.
    unfold add_vertex. unfold_monad. norm_mesh.
    rewrite Hw, Hmax.
    erewrite set_halfedge_run
      by (norm_mesh; by rewrite lookup_insert_ne).
    unfold_monad. norm_mesh.
    erewrite set_halfedge_run
      by (norm_mesh; by rewrite lookup_insert_ne, lookup_insert_eq).
    unfold_monad. norm_mesh.
    erewrite del_halfedge_run;
      [| norm_mesh; by rewrite lookup_insert_ne, lookup_insert_eq
       | by rewrite lookup_insert_ne ].
    unfold_monad. norm_mesh.
    destruct fuv as [f|].
    - destruct (Hfuv' f eq_refl) as (c & j & Hc & Hj).
      erewrite face_at_run by (norm_mesh; exact Hc).
      unfold_monad. rewrite Hj. unfold_monad.
      unfold set_face at 1. unfold_monad. norm_mesh.
      erewrite set_halfedge_run
        by (norm_mesh; rewrite !lookup_insert_ne by done; done).
      unfold_monad. norm_mesh.
      erewrite set_halfedge_run
        by (norm_mesh; rewrite !lookup_insert_ne by done;
            apply lookup_insert_eq).
      unfold_monad. norm_mesh.
      erewrite del_halfedge_run;
        [| norm_mesh; by rewrite lookup_insert_ne, lookup_insert_eq
         | by rewrite lookup_insert_ne ].
      unfold_monad. norm_mesh.
      destruct fvu as [g|].
      + destruct (Hfvu' g eq_refl) as (c' & i & Hc' & Hi & Hfg).
        assert (f ≠ g) as Hfg' by congruence.
        erewrite face_at_run by (norm_mesh; by rewrite lookup_insert_ne).
        unfold_monad. rewrite Hi. unfold_monad.
        unfold set_face. unfold_monad. norm_mesh.
        eexists. split; [reflexivity|]. norm_mesh.
        split; [done|]. split; [|done].
        unfold split_side, insert_before.
        rewrite Hc, Hj, lookup_insert_ne, Hc', Hi by done.
        done.
      + eexists. split; [reflexivity|]. norm_mesh.
        split; [done|]. split; [|done].
        unfold split_side, insert_before. by rewrite Hc, Hj.
    - erewrite set_halfedge_run
        by (norm_mesh; rewrite !lookup_insert_ne by done; done).
      unfold_monad. norm_mesh.
      erewrite set_halfedge_run
        by (norm_mesh; rewrite !lookup_insert_ne by done;
            apply lookup_insert_eq).
      unfold_monad. norm_mesh.
      erewrite del_halfedge_run;
        [| norm_mesh; by rewrite lookup_insert_ne, lookup_insert_eq
         | by rewrite lookup_insert_ne ].
      unfold_monad. norm_mesh.
      destruct fvu as [g|].
      + destruct (Hfvu' g eq_refl) as (c' & i & Hc' & Hi & Hfg).
        erewrite face_at_run by (norm_mesh; exact Hc').
        unfold_monad. rewrite Hi. unfold_monad.
        unfold set_face. unfold_monad. norm_mesh.
        eexists. split; [reflexivity|]. norm_mesh.
        split; [done|]. split; [|done].
        unfold split_side, insert_before. by rewrite Hc', Hi.
      + eexists. split; [reflexivity|]. norm_mesh. done. }
  exists m'. split; [done|]. split; [done|]. split; [done|].
  split; [|split; [|done]].
  - intros x y. unfold split_he, he. rewrite Hh.
    destruct (decide (x = u)) as [->|?];
      [|destruct (decide (x = v)) as [->|?];
        [|destruct (decide (x = next_vkey m)) as [->|?]]];
      (destruct (decide (y = u)) as [->|?];
       [|destruct (decide (y = v)) as [->|?];
         [|destruct (decide (y = next_vkey m)) as [->|?]]]);
      repeat case_decide; simplify_map_eq; try done;
      pair_cases; try congruence.
  - intros x. rewrite Hh.
    destruct (decide (x = u)) as [->|?];
      [|destruct (decide (x = v)) as [->|?];
        [|destruct (decide (x = next_vkey m)) as [->|?]]];
      simplify_map_eq; split; eauto.
    by intros [?|?].
Qed.

(** *** The directed edges of a cycle *)

Lemma adj_cons x y l : adj (x :: y :: l) = (x, y) :: adj (y :: l).
Proof. done. Qed.

Lemma adj_app l1 l2 : adj (l1 ++ l2) = adj l1 ++ bridge l1 l2 ++ adj l2.
Proof.
  induction l1 as [|x [|y l1] IH]; [by destruct l2|by destruct l2|].
  change ((x :: y :: l1) ++ l2) with (x :: y :: (l1 ++ l2)).
  rewrite !adj_cons. change (y :: (l1 ++ l2)) with ((y :: l1) ++ l2).
  rewrite IH. unfold bridge. by rewrite !last_cons_cons.
Qed.

Lemma zip_snoc x z l :
  zip (x :: l) (l ++ [z]) = adj (x :: l) ++ [(default x (last l), z)].
Proof.
  revert x. induction l as [|y l IH]; intros x; [done|].
  change (zip (x :: y :: l) ((y :: l) ++ [z]))
    with ((x, y) :: zip (y :: l) (l ++ [z])).
  rewrite IH, adj_cons. simpl. do 3 f_equal.
  rewrite last_cons. by destruct (last l).
Qed.

Lemma cycle_pairs_closing l : cycle_pairs l = adj l ++ closing l.
Proof.
  destruct l as [|x l]; [done|].
  unfold cycle_pairs.
  assert (rotate 1 (x :: l) = l ++ [x]) as ->.
  { unfold rotate. destruct l as [|y l]; [done|].
    rewrite Nat.mod_small by (simpl; lia). done. }
  rewrite zip_snoc. f_equal. unfold closing, bridge. simpl head.
  destruct l as [|y l]; [done|]. rewrite last_cons_cons.
  by destruct (last (y :: l)) eqn:E; [|by apply last_None in E].
Qed.

Lemma elem_of_adj_snd a b l : (a, b) ∈ adj l → b ∈ tail l.
Proof. unfold adj. intros H. by apply elem_of_zip_r in H. Qed.

Lemma elem_of_adj_fst a b l : (a, b) ∈ adj l → a ∈ l.
Proof. unfold adj. intros H. by apply elem_of_zip_l in H. Qed.

Lemma last_app_cons {A} (l1 : list A) x l2 : last (l1 ++ x :: l2) = last (x :: l2).
Proof.
  induction l1 as [|y l1 IH]; [done|].
  rewrite <- app_comm_cons, last_cons, IH. by rewrite last_cons; destruct (last l2).
Qed.

(** Inserting [w] before [v] in a cycle replaces the directed edge
    [(u → v)] into [v] by [(u → w)] and [(w → v)], and keeps the others. *)
Lemma cycle_pairs_insert l1 l2 u v w :
  NoDup (l1 ++ v :: l2) →
  (u, v) ∈ cycle_pairs (l1 ++ v :: l2) →
  ∀ a b, (a, b) ∈ cycle_pairs (l1 ++ w :: v :: l2) ↔
         ((a, b) ∈ cycle_pairs (l1 ++ v :: l2) ∧ (a, b) ≠ (u, v)) ∨
         (a, b) = (u, w) ∨ (a, b) = (w, v).
Proof.
  intros Hnd Huv a b.
  apply NoDup_app in Hnd as (Hnd1 & Hdisj & [Hv2 Hnd2]%NoDup_cons).
  assert (v ∉ l1) as Hv1 by (intros Hin; apply (Hdisj _ Hin); left).
  assert (∀ x, (x, v) ∉ adj l1) as Hadj1.
  { intros x Hin%elem_of_adj_snd. apply Hv1.
    destruct l1; [by apply elem_of_nil in Hin|]. by right. }
  assert (∀ x, (x, v) ∉ adj (v :: l2)) as Hadj2.
  { intros x Hin%elem_of_adj_snd. by apply Hv2. }
  destruct (last (v :: l2)) as [z|] eqn:Hz; [|by apply last_None in Hz].
  revert Huv. rewrite !cycle_pairs_closing, !adj_app.
  unfold closing, bridge. rewrite !last_app_cons, adj_cons.
  rewrite (last_cons_cons w v l2), Hz.
  destruct l1 as [|x l1].
  - cbn [app head last]. change (adj []) with (@nil (key * key)).
    cbn [app].
    repeat (rewrite elem_of_app || rewrite elem_of_cons || rewrite elem_of_nil).
    intros Huv.
    assert (u = z) as ->.
    { destruct Huv as [Hbad|[[= ->]|[]]]; [by apply Hadj2 in Hbad|done]. }
    split; intros Hx; destruct_or! Hx; destruct_and?; destruct_or?;
      simplify_eq; try done;
      first [ by auto 8
            | left; split; [by auto 8|];
              intros [= -> ->];
              match goal with
              | Hin : (_, v) ∈ adj _ |- _ => exact (Hadj2 _ Hin)
              end ].
  - assert (x ≠ v) as Hxv by (intros ->; apply Hv1; left).
    destruct (last (x :: l1)) as [y|] eqn:Hy; [|by apply last_None in Hy].
    cbn [app head].
    repeat (rewrite elem_of_app || rewrite elem_of_cons || rewrite elem_of_nil).
    intros Huv.
    assert (u = y) as ->.
    { destruct_or! Huv; simplify_eq;
        first [done | by apply Hadj1 in Huv | by apply Hadj2 in Huv]. }
    split; intros Hx; destruct_or! Hx; destruct_and?; destruct_or?;
      simplify_eq; try done;
      first [ by auto 10
            | left; split; [by auto 10|];
              intros [= -> ->];
              first [ done
                    | match goal with
                      | Hin : (_, v) ∈ adj _ |- _ =>
                          first [exact (Hadj1 _ Hin) | exact (Hadj2 _ Hin)]
                      end ] ].
Qed.

Lemma list_insert_at_middle (c : list key) j v w :
  c !! j = Some v →
  c = take j c ++ v :: drop (S j) c ∧
  list_insert_at j w c = take j c ++ w :: v :: drop (S j) c.
Proof.
  intros Hj. split; [by rewrite take_drop_middle|].
  unfold list_insert_at. by rewrite (drop_S _ _ _ Hj).
Qed.

Lemma list_insert_at_perm (c : list key) j w : list_insert_at j w c ≡ₚ w :: c.
Proof.
  unfold list_insert_at. rewrite <- Permutation_middle.
  by rewrite take_drop.
Qed.

Lemma length_list_insert_at (c : list key) j w :
  length (list_insert_at j w c) = S (length c).
Proof. by rewrite list_insert_at_perm. Qed.

(** *** The invariants, point by point *)

Lemma mesh_wf_alt m :
  mesh_wf m ↔
  (∀ f c, face m !! f = Some c → face_ok m f c) ∧
  (∀ a, is_Some (halfedge m !! a) → is_Some (vertex m !! a)) ∧
  (∀ a b x, he m a b = Some x → entry_ok m a b x) ∧
  (∀ k, is_Some (vertex m !! k) → k < next_vkey m) ∧
  (∀ k, is_Some (face m !! k) → k < next_fkey m).
Proof.
  unfold mesh_wf, map_Forall. split.
  - intros (Hf & Hh & Hv & Hk). split; [done|]. split.
    { intros a [row Hrow]. by apply Hh in Hrow as [? _]. }
    split.
    { intros a b x (row & Hrow & Hx)%he_Some.
      apply Hh in Hrow as [_ Hrow]. by apply Hrow. }
    split; [intros k [? ?]; eauto|intros k [? ?]; eauto].
  - intros (Hf & Hr & He & Hv & Hk). split; [done|]. split.
    { intros a row Hrow. split; [eauto|].
      intros b x Hx. apply He. apply he_Some. eauto. }
    split; [intros k ? ?; eauto|intros k ? ?; eauto].
Qed.

Lemma wf_he_ends m a b x :
  mesh_wf m → he m a b = Some x →
  is_Some (vertex m !! a) ∧ is_Some (vertex m !! b).
Proof.
  intros Hwf Hab. split; [by eapply wf_he_vertex|].
  apply mesh_wf_alt in Hwf as Hwf'. destruct Hwf' as (_ & _ & He & _).
  destruct (He _ _ _ Hab) as [[y Hba] _]. by eapply wf_he_vertex.
Qed.

Lemma wf_face_pairs m f c a b :
  mesh_wf m → face m !! f = Some c → (a, b) ∈ cycle_pairs c →
  he m a b = Some (Some f).
Proof.
  intros (Hf & _) Hc Hin. apply Hf in Hc as (_ & _ & _ & Hall).
  rewrite Forall_forall in Hall. by apply (Hall (a, b)).
Qed.

Lemma wf_he_on_face m f a b :
  mesh_wf m → he m a b = Some (Some f) →
  ∃ c, face m !! f = Some c ∧ (a, b) ∈ cycle_pairs c.
Proof.
  intros Hwf Hab. apply mesh_wf_alt in Hwf as (_ & _ & He & _).
  destruct (He _ _ _ Hab) as [_ Hon]. simpl in Hon. unfold on_face in Hon.
  destruct (face m !! f) as [c|]; [|done]. eauto.
Qed.

Lemma elem_of_cycle_pairs_l a b c : (a, b) ∈ cycle_pairs c → a ∈ c.
Proof. unfold cycle_pairs. apply elem_of_zip_l. Qed.

Lemma elem_of_cycle_pairs_r a b c : (a, b) ∈ cycle_pairs c → b ∈ c.
Proof.
  unfold cycle_pairs. intros Hin%elem_of_zip_r. by apply elem_of_rotate in Hin.
Qed.

Lemma split_side_lookup x k w fm h :
  split_side x k w fm !! h =
    (λ c, if decide (x = Some h) then insert_before k w c else c) <$> fm !! h.
Proof.
  unfold split_side. destruct (decide (x = Some h)) as [->|Hne].
  - destruct (fm !! h) as [c|] eqn:Hc; [|by rewrite Hc].
    by rewrite lookup_insert_eq.
  - destruct x as [f|]; [|by destruct (fm !! h)].
    destruct (fm !! f) as [c|] eqn:Hc; [|by destruct (fm !! h)].
    rewrite lookup_insert_ne by congruence. by destruct (fm !! h).
Qed.

Lemma insert_before_pairs c u v w :
  NoDup c → (u, v) ∈ cycle_pairs c →
  ∀ a b, (a, b) ∈ cycle_pairs (insert_before v w c) ↔
         ((a, b) ∈ cycle_pairs c ∧ (a, b) ≠ (u, v)) ∨
         (a, b) = (u, w) ∨ (a, b) = (w, v).
Proof.
  intros Hnd Huv.
  destruct (index_is_Some v c) as (j & Hj & Hlk);
    [by eapply elem_of_cycle_pairs_r|].
  unfold insert_before. rewrite Hj.
  destruct (list_insert_at_middle c j v w Hlk) as [Hc ->].
  remember (take j c) as l1 eqn:Hl1. remember (drop (S j) c) as l2 eqn:Hl2.
  clear Hl1 Hl2 Hj Hlk. subst c.
  by apply cycle_pairs_insert.
Qed.

Lemma insert_before_perm c k w : k ∈ c → insert_before k w c ≡ₚ w :: c.
Proof.
  intros (j & Hj & _)%index_is_Some. unfold insert_before. rewrite Hj.
  apply list_insert_at_perm.
Qed.

(** *** [mesh_split_edge] keeps the invariants *)

Section SplitEdgeInvariants.
Variables (m m' : Mesh) (u v w : key) (fuv fvu : hface) (p : point).
Hypothesis Hwf : mesh_wf m.
Hypothesis Huv : he m u v = Some fuv.
Hypothesis Hvu : he m v u = Some fvu.
Hypothesis Hne : u ≠ v.
Hypothesis Hw : w = next_vkey m.
Hypothesis Hvertex : vertex m' = <[w := p]> (vertex m).
Hypothesis Hface :
  face m' = split_side fvu u w (split_side fuv v w (face m)).
Hypothesis Hhe : ∀ x y, he m' x y = split_he m u v w fuv fvu x y.
Hypothesis Hrows :
  ∀ x, is_Some (halfedge m' !! x) ↔ x = w ∨ is_Some (halfedge m !! x).
Hypothesis Hnv : next_vkey m' = S w.
Hypothesis Hnf : next_fkey m' = next_fkey m.

Lemma split_fresh k : is_Some (vertex m !! k) → k ≠ w.
Proof.
  intros Hk ->. apply mesh_wf_alt in Hwf as (_ & _ & _ & Hv & _).
  apply Hv in Hk. lia.
Qed.

Lemma split_he_old a b x : he m a b = Some x → a ≠ w ∧ b ≠ w.
Proof.
  intros [Ha Hb]%(wf_he_ends _ _ _ _ Hwf). split; by apply split_fresh.
Qed.

Lemma split_sides_differ h : fuv = Some h → fvu = Some h → False.
Proof.
  intros -> ->. by eapply (wf_he_twin_ne m u v h h).
Qed.

(** The cycle of face [h] after the split. *)
Lemma split_face_lookup h :
  face m' !! h =
    (λ c, if decide (fuv = Some h) then insert_before v w c
          else if decide (fvu = Some h) then insert_before u w c
          else c) <$> face m !! h.
Proof.
  rewrite Hface, !split_side_lookup.
  destruct (face m !! h) as [c|]; [|done]. simpl. f_equal.
  destruct (decide (fuv = Some h)) as [H1|H1];
    destruct (decide (fvu = Some h)) as [H2|H2]; try done.
  by destruct (split_sides_differ h).
Qed.

(** The directed edges of face [h] after the split. *)
Lemma split_face_pairs h c c' a b :
  face m !! h = Some c → face m' !! h = Some c' →
  (a, b) ∈ cycle_pairs c' ↔
    ((a, b) ∈ cycle_pairs c ∧ (a, b) ≠ (u, v) ∧ (a, b) ≠ (v, u)) ∨
    (fuv = Some h ∧ ((a, b) = (u, w) ∨ (a, b) = (w, v))) ∨
    (fvu = Some h ∧ ((a, b) = (v, w) ∨ (a, b) = (w, u))).
Proof.
  intros Hc. rewrite split_face_lookup, Hc. simpl. intros [= <-].
  assert (NoDup c) as Hnd.
  { destruct Hwf as (Hf & _). by apply Hf in Hc as (_ & ? & _). }
  assert (∀ x y, (x, y) ∈ cycle_pairs c → he m x y = Some (Some h)) as Hpairs.
  { intros x y. by apply wf_face_pairs. }
  destruct (decide (fuv = Some h)) as [H1|H1];
    [|destruct (decide (fvu = Some h)) as [H2|H2]].
  - assert ((u, v) ∈ cycle_pairs c) as Hin.
    { rewrite H1 in Huv. destruct (wf_he_on_face _ _ _ _ Hwf Huv) as (? & ? & ?).
      congruence. }
    rewrite (insert_before_pairs c u v w Hnd Hin).
    assert ((v, u) ∉ cycle_pairs c) as Hout.
    { intros Hvu'%Hpairs. rewrite Hvu in Hvu'.
      eapply (split_sides_differ h); congruence. }
    assert (fvu ≠ Some h) by (intros ?; by eapply (split_sides_differ h)).
    split.
    + intros [[? ?]|?]; [left|right; left; by split].
      split; [done|]. split; [done|]. by intros [= -> ->].
    + intros [(? & ? & ?)|[[_ ?]|[? _]]]; [by left|by right|done].
  - assert ((v, u) ∈ cycle_pairs c) as Hin.
    { rewrite H2 in Hvu. destruct (wf_he_on_face _ _ _ _ Hwf Hvu) as (? & ? & ?).
      congruence. }
    rewrite (insert_before_pairs c v u w Hnd Hin).
    assert ((u, v) ∉ cycle_pairs c) as Hout.
    { intros Huv'%Hpairs. rewrite Huv in Huv'. congruence. }
    split.
    + intros [[? ?]|?]; [left|right; right; by split].
      split; [done|]. split; [|done]. by intros [= -> ->].
    + intros [(? & ? & ?)|[[? _]|[_ ?]]]; [by left|done|by right].
  - assert ((u, v) ∉ cycle_pairs c) as Hout1.
    { intros Huv'%Hpairs. rewrite Huv in Huv'. congruence. }
    assert ((v, u) ∉ cycle_pairs c) as Hout2.
    { intros Hvu'%Hpairs. rewrite Hvu in Hvu'. congruence. }
    split.
    + intros ?. left. split; [done|]. split; by intros [= -> ->].
    + by intros [(? & _)|[[? _]|[? _]]].
Qed.

(** Entries of the old directory that are not the split edge stay. *)
Lemma split_he_keeps a b x :
  he m a b = Some x → (a, b) ≠ (u, v) → (a, b) ≠ (v, u) →
  he m' a b = Some x.
Proof.
  intros Hab Hn1 Hn2. destruct (split_he_old _ _ _ Hab) as [Ha Hb].
  rewrite Hhe. unfold split_he.
  rewrite decide_False by (intros [?|?]; simplify_eq).
  rewrite decide_False by (intros [?|?]; simplify_eq).
  rewrite decide_False by (intros [?|?]; done).
  by rewrite decide_False.
Qed.

Lemma split_he_new :
  he m' u w = Some fuv ∧ he m' w v = Some fuv ∧
  he m' v w = Some fvu ∧ he m' w u = Some fvu.
Proof.
  destruct (wf_he_ends _ _ _ _ Hwf Huv) as [Hu Hv].
  apply split_fresh in Hu, Hv.
  rewrite !Hhe. unfold split_he.
  repeat split.
  - by rewrite decide_True by auto.
  - by rewrite decide_True by auto.
  - rewrite decide_False by (intros [?|?]; simplify_eq).
    by rewrite decide_True by auto.
  - rewrite decide_False by (intros [?|?]; simplify_eq).
    by rewrite decide_True by auto.
Qed.

(** Every entry of the new directory is an old entry off the split edge,
    or one of the four new entries. *)
Lemma split_he_inv a b x :
  he m' a b = Some x →
  (he m a b = Some x ∧ (a, b) ≠ (u, v) ∧ (a, b) ≠ (v, u)) ∨
  (x = fuv ∧ ((a, b) = (u, w) ∨ (a, b) = (w, v))) ∨
  (x = fvu ∧ ((a, b) = (v, w) ∨ (a, b) = (w, u))).
Proof.
  rewrite Hhe. unfold split_he. repeat case_decide; try done.
  - intros [= <-]. auto.
  - intros [= <-]. auto.
  - intros Hab. left. split; [done|]. split; intros ?; auto.
Qed.

Lemma split_on_face_uv a b :
  (a, b) = (u, w) ∨ (a, b) = (w, v) →
  from_option (λ f, on_face m' f a b) True fuv.
Proof.
  intros Hab. assert (∃ x, fuv = x) as [x Hx] by eauto.
  rewrite Hx. destruct x as [h|]; [|done]. simpl.
  assert (he m u v = Some (Some h)) as Huv' by (by rewrite <- Hx).
  destruct (wf_he_on_face _ _ _ _ Hwf Huv') as (c & Hc & Hin).
  unfold on_face.
  destruct (face m' !! h) as [c'|] eqn:Hc';
    [|by rewrite split_face_lookup, Hc in Hc'].
  simpl. apply (split_face_pairs h c c' a b Hc Hc'). right. left. auto.
Qed.

Lemma split_on_face_vu a b :
  (a, b) = (v, w) ∨ (a, b) = (w, u) →
  from_option (λ f, on_face m' f a b) True fvu.
Proof.
  intros Hab. assert (∃ x, fvu = x) as [x Hx] by eauto.
  rewrite Hx. destruct x as [h|]; [|done]. simpl.
  assert (he m v u = Some (Some h)) as Hvu' by (by rewrite <- Hx).
  destruct (wf_he_on_face _ _ _ _ Hwf Hvu') as (c & Hc & Hin).
  unfold on_face.
  destruct (face m' !! h) as [c'|] eqn:Hc';
    [|by rewrite split_face_lookup, Hc in Hc'].
  simpl. apply (split_face_pairs h c c' a b Hc Hc'). right. right. auto.
Qed.

Lemma split_edge_wf : mesh_wf m'.
Proof.
  apply mesh_wf_alt.
  pose proof Hwf as Hwf0. apply mesh_wf_alt in Hwf0 as (Hf & Hr & He & Hv & Hk).
  destruct (wf_he_ends _ _ _ _ Hwf Huv) as [Hu_in Hv_in].
  pose proof (split_fresh _ Hu_in) as Huw.
  pose proof (split_fresh _ Hv_in) as Hvw.
  destruct split_he_new as (Hn1 & Hn2 & Hn3 & Hn4).
  assert (∀ k, is_Some (vertex m !! k) → is_Some (vertex m' !! k)) as Hmono.
  { intros k Hk'. rewrite Hvertex, lookup_insert_ne; [done|].
    intros <-. by apply (split_fresh w). }
  split; [|split; [|split; [|split]]].
  - (* faces *)
    intros h c' Hc'.
    destruct (face m !! h) as [c|] eqn:Hc;
      [|by rewrite split_face_lookup, Hc in Hc'].
    destruct (Hf _ _ Hc) as (Hlen & Hnd & Hvs & Hps).
    rewrite Forall_forall in Hvs.
    assert (w ∉ c) as Hwc by (intros Hin%Hvs; by apply (split_fresh w)).
    assert (c' ≡ₚ w :: c ∨ c' = c) as Hperm.
    { rewrite split_face_lookup, Hc in Hc'. simpl in Hc'.
      injection Hc' as <-.
      destruct (decide (fuv = Some h)) as [H1|H1];
        [|destruct (decide (fvu = Some h)) as [H2|H2]]; [| |by right].
      - left. apply insert_before_perm. rewrite H1 in Huv.
        destruct (wf_he_on_face _ _ _ _ Hwf Huv) as (c0 & Hc0 & Hin).
        assert (c0 = c) as -> by congruence.
        by eapply elem_of_cycle_pairs_r.
      - left. apply insert_before_perm. rewrite H2 in Hvu.
        destruct (wf_he_on_face _ _ _ _ Hwf Hvu) as (c0 & Hc0 & Hin).
        assert (c0 = c) as -> by congruence.
        by eapply elem_of_cycle_pairs_r. }
    split; [|split; [|split]].
    + destruct Hperm as [->| ->]; simpl; lia.
    + destruct Hperm as [->| ->]; [by constructor|done].
    + rewrite Forall_forall. intros k Hkin.
      assert (k = w ∨ k ∈ c) as [->|Hkc].
      { destruct Hperm as [Hp| ->]; [|by right].
        rewrite Hp in Hkin. by apply elem_of_cons in Hkin. }
      * rewrite Hvertex, lookup_insert_eq. eauto.
      * by apply Hmono, Hvs.
    + rewrite Forall_forall. intros [a b] Hin. simpl.
      apply (split_face_pairs h c c' a b Hc Hc') in Hin
        as [(Hin & ? & ?)|[[H1 [[= -> ->]|[= -> ->]]]|[H2 [[= -> ->]|[= -> ->]]]]];
        [|congruence..].
      apply split_he_keeps; [|done..]. by eapply wf_face_pairs.
  - (* rows *)
    intros a Ha. rewrite Hvertex.
    apply Hrows in Ha as [->|Ha]; [rewrite lookup_insert_eq; eauto|].
    apply Hr, Hmono in Ha. by rewrite Hvertex in Ha.
  - (* entries *)
    intros a b x Hab.
    apply split_he_inv in Hab
      as [(Hab & Hn1' & Hn2')|[[-> [[= -> ->]|[= -> ->]]]|[-> [[= -> ->]|[= -> ->]]]]].
    + destruct (He _ _ _ Hab) as [[y Hba] Hon]. split.
      * exists y. apply split_he_keeps; [done|..]; intros [= -> ->]; done.
      * destruct x as [h|]; [|done]. simpl.
        destruct (wf_he_on_face _ _ _ _ Hwf Hab) as (c & Hc & Hin).
        unfold on_face.
        destruct (face m' !! h) as [c'|] eqn:Hc';
          [|by rewrite split_face_lookup, Hc in Hc'].
        simpl. apply (split_face_pairs h c c' a b Hc Hc'). by left.
    + split; [eauto|]. apply split_on_face_uv. auto.
    + split; [eauto|]. apply split_on_face_uv. auto.
    + split; [eauto|]. apply split_on_face_vu. auto.
    + split; [eauto|]. apply split_on_face_vu. auto.
  - (* vertex keys *)
    intros k. rewrite Hvertex, Hnv.
    destruct (decide (k = w)) as [->|Hkw]; [lia|].
    rewrite lookup_insert_ne by done. intros Hk'%Hv. lia.
  - (* face keys *)
    intros k. rewrite split_face_lookup, Hnf.
    destruct (face m !! k) as [c|] eqn:Hc; [|by intros [? ?]].
    intros _. apply Hk. eauto.
Qed.

End SplitEdgeInvariants.

(** X2.  [mesh_split_edge] keeps the invariants of the data model.  For an
    edge [u]–[v] of a mesh that satisfies them, with [0 < t < 1], and with
    faces on both sides unless [allow_boundary] is set, the call returns
    the next vertex key and the mesh it leaves satisfies the invariants
    again. *)
Theorem mesh_split_edge_keeps_invariants m u v t allow_boundary fuv fvu :
  mesh_wf m →
  he m u v = Some fuv → he m v u = Some fvu → u ≠ v →
  allow_boundary = true ∨ (is_Some fuv ∧ is_Some fvu) →
  (0 <? t)%float = true → (t <? 1)%float = true →
  ∃ m',
    mesh_split_edge u v t allow_boundary m = (inr (Some (next_vkey m)), m') ∧
    mesh_wf m'.
Proof.
  intros Hwf Huv Hvu Hne Hallow Ht0 Ht1.
  destruct (wf_he_ends _ _ _ _ Hwf Huv) as [[a Ha] [b Hb]].
  destruct (wf_fresh_vkey _ Hwf) as [Hw _].
  destruct (mesh_split_edge_run m u v t allow_boundary fuv fvu a b)
    as (m' & Hrun & Hv & Hf & Hh & Hr & Hnv & Hnf);
    auto using ltb_leb_false.
  - intros f ->. destruct (wf_he_on_face _ _ _ _ Hwf Huv) as (c & Hc & Hin).
    exists c. split; [done|]. by eapply elem_of_cycle_pairs_r.
  - intros g ->. destruct (wf_he_on_face _ _ _ _ Hwf Hvu) as (c & Hc & Hin).
    exists c. split; [done|]. split; [by eapply elem_of_cycle_pairs_r|].
    intros ->. by eapply (wf_he_twin_ne m u v g g).
  - exists m'. split; [done|].
    by eapply (split_edge_wf m m' u v (next_vkey m) fuv fvu (lerp a b t)).
Qed.

(** X2, on the diagonal of the two triangles and on a side of the quad. *)
Lemma mesh_split_edge_keeps_invariants_witness :
  (∃ m', mesh_split_edge 0 2 0.5 false two_triangles = (inr (Some 4), m') ∧
         mesh_wf m') ∧
  (∃ m', mesh_split_edge 0 1 0.5 true quad_mesh = (inr (Some 4), m') ∧
         mesh_wf m').
Proof.
  split.
  - apply (mesh_split_edge_keeps_invariants two_triangles 0 2 0.5 false
             (Some 1) (Some 0)).
    + exact two_triangles_wf.
    + vm_compute. reflexivity.
    + vm_compute. reflexivity.
    + lia.
    + right. split; eauto.
    + reflexivity.
    + reflexivity.
  - apply (mesh_split_edge_keeps_invariants quad_mesh 0 1 0.5 true
             (Some 0) None).
    + exact quad_mesh_wf.
    + vm_compute. reflexivity.
    + vm_compute. reflexivity.
    + lia.
    + by left.
    + reflexivity.
    + reflexivity.
Defined.

(** X3.  Without [allow_boundary], [mesh_split_edge] leaves an edge with the
    outside on one of its sides alone: it returns [None] and the mesh is
    unchanged. *)
Theorem mesh_split_edge_boundary_skipped m u v t fuv fvu :
  (0 <? t)%float = true → (t <? 1)%float = true →
  he m u v = Some fuv → he m v u = Some fvu →
  fuv = None ∨ fvu = None →
  mesh_split_edge u v t false m = (inr None, m).
Proof.
  intros Ht0 Ht1 Huv Hvu Hout.
  unfold mesh_split_edge.
  rewrite (ltb_leb_false _ _ Ht0), (ltb_leb_false _ _ Ht1).
  unfold halfedge_at. unfold_monad. rewrite Huv. unfold_monad.
  rewrite Hvu. unfold_monad.
  destruct Hout as [-> | ->]; [done|].
  by rewrite orb_true_r.
Qed.

Lemma mesh_split_edge_boundary_skipped_witness :
  mesh_split_edge 0 1 0.5 false quad_mesh = (inr None, quad_mesh).
Proof.
  apply (mesh_split_edge_boundary_skipped quad_mesh 0 1 0.5 (Some 0) None).
  - reflexivity.
  - reflexivity.
  - vm_compute. reflexivity.
  - vm_compute. reflexivity.
  - by right.
Defined.

(** X4.  When one of the two directory entries of the edge is missing,
    [mesh_split_edge] fails with [KeyError], whatever [allow_boundary] is,
    and the mesh is unchanged. *)
Theorem mesh_split_edge_missing_edge m u v t allow_boundary :
  (0 <? t)%float = true → (t <? 1)%float = true →
  he m u v = None ∨ he m v u = None →
  mesh_split_edge u v t allow_boundary m = (inl KeyError, m).
Proof.
  intros Ht0 Ht1 Hmiss.
  unfold mesh_split_edge.
  rewrite (ltb_leb_false _ _ Ht0), (ltb_leb_false _ _ Ht1).
  unfold halfedge_at. unfold_monad.
  destruct (he m u v) as [fuv|] eqn:Huv; unfold_monad; [|done].
  destruct Hmiss as [?|Hvu]; [done|].
  rewrite Hvu. by unfold_monad.
Qed.

Lemma mesh_split_edge_missing_edge_witness :
  mesh_split_edge 0 2 0.5 true quad_mesh = (inl KeyError, quad_mesh).
Proof.
  apply (mesh_split_edge_missing_edge quad_mesh 0 2 0.5 true).
  - reflexivity.
  - reflexivity.
  - left. vm_compute. reflexivity.
Defined.

(** The premises of [mesh_split_edge_run] hold in a mesh that satisfies the
    invariants. *)
Lemma mesh_split_edge_run_wf m u v t allow_boundary fuv fvu a b :
  mesh_wf m →
  he m u v = Some fuv → he m v u = Some fvu → u ≠ v →
  allow_boundary = true ∨ (is_Some fuv ∧ is_Some fvu) →
  vertex m !! u = Some a → vertex m !! v = Some b →
  (t <=? 0)%float = false → (1 <=? t)%float = false →
  ∃ m',
    mesh_split_edge u v t allow_boundary m = (inr (Some (next_vkey m)), m') ∧
    vertex m' = <[next_vkey m := lerp a b t]> (vertex m) ∧
    face m' = split_side fvu u (next_vkey m)
                (split_side fuv v (next_vkey m) (face m)) ∧
    (∀ x y, he m' x y = split_he m u v (next_vkey m) fuv fvu x y) ∧
    (∀ x, is_Some (halfedge m' !! x) ↔
          x = next_vkey m ∨ is_Some (halfedge m !! x)) ∧
    next_vkey m' = S (next_vkey m) ∧ next_fkey m' = next_fkey m.
Proof.
  intros Hwf Huv Hvu Hne Hallow Ha Hb Ht0 Ht1.
  destruct (wf_fresh_vkey _ Hwf) as [Hw _].
  apply mesh_split_edge_run; auto.
  - intros f ->. destruct (wf_he_on_face _ _ _ _ Hwf Huv) as (c & Hc & Hin).
    exists c. split; [done|]. by eapply elem_of_cycle_pairs_r.
  - intros g ->. destruct (wf_he_on_face _ _ _ _ Hwf Hvu) as (c & Hc & Hin).
    exists c. split; [done|]. split; [by eapply elem_of_cycle_pairs_r|].
    intros ->. by eapply (wf_he_twin_ne m u v g g).
Qed.

(** X5.  With [allow_boundary] set, [mesh_split_edge] splits an edge that
    has a face [f] on the side of [(u → v)] and the outside on the other:
    the new vertex [w] enters the cycle of [f] before [v], the entries
    [(u → w)] and [(w → v)] belong to [f], the entries [(v → w)] and
    [(w → u)] carry the outside, the two old entries are gone, and no other
    face changes. *)
Theorem mesh_split_edge_boundary m u v t f c a b :
  mesh_wf m →
  he m u v = Some (Some f) → he m v u = Some None →
  face m !! f = Some c →
  vertex m !! u = Some a → vertex m !! v = Some b →
  (0 <? t)%float = true → (t <? 1)%float = true →
  let w := next_vkey m in
  ∃ m',
    mesh_split_edge u v t true m = (inr (Some w), m') ∧
    vertex m' = <[w := lerp a b t]> (vertex m) ∧
    face m' = <[f := insert_before v w c]> (face m) ∧
    he m' u w = Some (Some f) ∧ he m' w v = Some (Some f) ∧
    he m' v w = Some None ∧ he m' w u = Some None ∧
    he m' u v = None ∧ he m' v u = None.
Proof.
  intros Hwf Huv Hvu Hc Ha Hb Ht0 Ht1 w.
  assert (u ≠ v) as Hne.
  { intros ->. rewrite Huv in Hvu. discriminate. }
  destruct (wf_fresh_vkey _ Hwf) as [Hw _].
  assert (u ≠ w) as Huw by (unfold w; congruence).
  assert (v ≠ w) as Hvw by (unfold w; congruence).
  destruct (mesh_split_edge_run_wf m u v t true (Some f) None a b)
    as (m' & Hrun & Hv & Hf & Hh & _); auto using ltb_leb_false.
  exists m'. split; [done|]. split; [done|]. split.
  { rewrite Hf. unfold split_side. by rewrite Hc. }
  rewrite !Hh. unfold split_he. fold w.
  repeat split.
  - by rewrite decide_True by auto.
  - by rewrite decide_True by auto.
  - rewrite decide_False by (intros [?|?]; simplify_eq).
    by rewrite decide_True by auto.
  - rewrite decide_False by (intros [?|?]; simplify_eq).
    by rewrite decide_True by auto.
  - rewrite decide_False by (intros [?|?]; simplify_eq).
    rewrite decide_False by (intros [?|?]; simplify_eq).
    by rewrite decide_True by auto.
  - rewrite decide_False by (intros [?|?]; simplify_eq).
    rewrite decide_False by (intros [?|?]; simplify_eq).
    by rewrite decide_True by auto.
Qed.

Lemma mesh_split_edge_boundary_witness :
  ∃ m',
    mesh_split_edge 0 1 0.5 true quad_mesh = (inr (Some 4), m') ∧
    vertex m' = <[4 := lerp (0, 0, 0)%float (1, 0, 0)%float 0.5]>
                  (vertex quad_mesh) ∧
    face m' = <[0 := insert_before 1 4 [0; 1; 2; 3]]> (face quad_mesh) ∧
    he m' 0 4 = Some (Some 0) ∧ he m' 4 1 = Some (Some 0) ∧
    he m' 1 4 = Some None ∧ he m' 4 0 = Some None ∧
    he m' 0 1 = None ∧ he m' 1 0 = None.
Proof.
  apply (mesh_split_edge_boundary quad_mesh 0 1 0.5 0 [0; 1; 2; 3]
           (0, 0, 0)%float (1, 0, 0)%float).
  - exact quad_mesh_wf.
  - vm_compute. reflexivity.
  - vm_compute. reflexivity.
  - vm_compute. reflexivity.
  - vm_compute. reflexivity.
  - vm_compute. reflexivity.
  - reflexivity.
  - reflexivity.
Defined.

(** X6.  [mesh_split_edge] is local.  Of the directory it changes only the
    entries [(u → v)], [(v → u)], [(u → w)], [(w → v)], [(v → w)] and
    [(w → u)]; it changes no face other than the two beside the edge, no
    vertex other than the new one, and it allocates no face key. *)
Theorem mesh_split_edge_frame m u v t allow_boundary fuv fvu :
  mesh_wf m →
  he m u v = Some fuv → he m v u = Some fvu → u ≠ v →
  allow_boundary = true ∨ (is_Some fuv ∧ is_Some fvu) →
  (0 <? t)%float = true → (t <? 1)%float = true →
  let w := next_vkey m in
  ∃ m',
    mesh_split_edge u v t allow_boundary m = (inr (Some w), m') ∧
    (∀ x y, (x, y) ∉ [(u, v); (v, u); (u, w); (w, v); (v, w); (w, u)] →
            he m' x y = he m x y) ∧
    (∀ g, fuv ≠ Some g → fvu ≠ Some g → face m' !! g = face m !! g) ∧
    (∀ k, k ≠ w → vertex m' !! k = vertex m !! k) ∧
    next_fkey m' = next_fkey m.
Proof.
  intros Hwf Huv Hvu Hne Hallow Ht0 Ht1 w.
  destruct (wf_he_ends _ _ _ _ Hwf Huv) as [[a Ha] [b Hb]].
  destruct (wf_fresh_vkey _ Hwf) as [Hw Hrow].
  destruct (mesh_split_edge_run_wf m u v t allow_boundary fuv fvu a b)
    as (m' & Hrun & Hv & Hf & Hh & _ & _ & Hnf); auto using ltb_leb_false.
  exists m'. split; [done|]. split; [|split; [|split; [|done]]].
  - intros x y Hxy. rewrite Hh. unfold split_he. fold w.
    repeat (rewrite elem_of_cons in Hxy). rewrite elem_of_nil in Hxy.
    rewrite decide_False by (intros [?|?]; simplify_eq; tauto).
    rewrite decide_False by (intros [?|?]; simplify_eq; tauto).
    rewrite decide_False by (intros [?|?]; simplify_eq; tauto).
    destruct (decide (x = w)) as [->|]; [|done].
    unfold he, w. by rewrite Hrow.
  - intros g Hg1 Hg2. rewrite Hf.
    rewrite !split_side_lookup.
    destruct (decide (fvu = Some g)); [done|].
    destruct (decide (fuv = Some g)); [done|].
    by destruct (face m !! g).
  - intros k Hk. rewrite Hv. by rewrite lookup_insert_ne.
Qed.

Lemma mesh_split_edge_frame_witness :
  ∃ m',
    mesh_split_edge 0 2 0.5 false two_triangles = (inr (Some 4), m') ∧
    (∀ x y, (x, y) ∉ [(0, 2); (2, 0); (0, 4); (4, 2); (2, 4); (4, 0)] →
            he m' x y = he two_triangles x y) ∧
    (∀ g, Some 1 ≠ Some g → Some 0 ≠ Some g →
          face m' !! g = face two_triangles !! g) ∧
    (∀ k, k ≠ 4 → vertex m' !! k = vertex two_triangles !! k) ∧
    next_fkey m' = next_fkey two_triangles.
Proof.
  apply (mesh_split_edge_frame two_triangles 0 2 0.5 false (Some 1) (Some 0)).
  - exact two_triangles_wf.
  - vm_compute. reflexivity.
  - vm_compute. reflexivity.
  - lia.
  - right. split; eauto.
  - reflexivity.
  - reflexivity.
Defined.

(** *** A parameter that is not a number *)

Lemma SFcompare_refl x : x ≠ S754_nan → SFcompare x x = Some Eq.
Proof.
  destruct x as [s|s| |s mx ex]; simpl; intros ?; try done.
  - by destruct s.
  - rewrite Z.compare_refl, Pos.compare_cont_refl. by destruct s.
Qed.

Lemma not_number_nan t : ¬ is_number t → Prim2SF t = S754_nan.
Proof.
  unfold is_number. rewrite FloatAxioms.eqb_spec. unfold SFeqb.
  intros Hne. destruct (Prim2SF t) as [s|s| |s mx ex] eqn:E; [| |done|];
    by rewrite SFcompare_refl in Hne.
Qed.

Lemma nan_leb t x :
  ¬ is_number t → (t <=? x)%float = false ∧ (x <=? t)%float = false.
Proof.
  intros Hnan%not_number_nan. rewrite !leb_spec. unfold SFleb.
  rewrite Hnan. split; [done|]. by destruct (Prim2SF x).
Qed.

(** X7.  The parameter check of [mesh_split_edge] lets a [t] that is not a
    number through: both comparisons are false for NaN, so the edge is
    split and the new vertex is stored with the coordinates interpolated
    at that [t]. *)
Theorem mesh_split_edge_accepts_nan m u v t allow_boundary fuv fvu a b :
  mesh_wf m →
  he m u v = Some fuv → he m v u = Some fvu → u ≠ v →
  allow_boundary = true ∨ (is_Some fuv ∧ is_Some fvu) →
  vertex m !! u = Some a → vertex m !! v = Some b →
  ¬ is_number t →
  ∃ m',
    mesh_split_edge u v t allow_boundary m = (inr (Some (next_vkey m)), m') ∧
    vertex m' !! next_vkey m = Some (lerp a b t).
Proof.
  intros Hwf Huv Hvu Hne Hallow Ha Hb Hnan.
  destruct (nan_leb t 0 Hnan) as [Ht0 _].
  destruct (nan_leb t 1 Hnan) as [_ Ht1].
  destruct (mesh_split_edge_run_wf m u v t allow_boundary fuv fvu a b)
    as (m' & Hrun & Hv & _); auto.
  exists m'. split; [done|]. rewrite Hv. apply lookup_insert_eq.
Qed.

Lemma mesh_split_edge_accepts_nan_witness :
  ∃ m',
    mesh_split_edge 0 2 nan false two_triangles = (inr (Some 4), m') ∧
    vertex m' !! 4 = Some (lerp (0, 0, 0)%float (1, 1, 0)%float nan).
Proof.
  apply (mesh_split_edge_accepts_nan two_triangles 0 2 nan false
           (Some 1) (Some 0) (0, 0, 0)%float (1, 1, 0)%float).
  - exact two_triangles_wf.
  - vm_compute. reflexivity.
  - vm_compute. reflexivity.
  - lia.
  - right. split; eauto.
  - vm_compute. reflexivity.
  - vm_compute. reflexivity.
  - unfold is_number. vm_compute. discriminate.
Defined.

(** * Further facts about [mesh_split_face] *)

(** *** The directory after [add_face] *)

Lemma dir_entry_Some h a b x :
  dir_entry h a b = Some x ↔ ∃ row, h !! a = Some row ∧ row !! b = Some x.
Proof.
  unfold dir_entry. destruct (h !! a) as [row|]; simpl.
  - split; [eauto|]. by intros (? & [= <-] & ?).
  - split; [done|]. by intros (? & ? & ?).
Qed.

Lemma dir_entry_insert h a row x y :
  dir_entry (<[a := row]> h) x y =
    if decide (x = a) then row !! y else dir_entry h x y.
Proof.
  unfold dir_entry. destruct (decide (x = a)) as [->|Hne].
  - by rewrite lookup_insert_eq.
  - by rewrite lookup_insert_ne.
Qed.

(** [install_edge] writes the entry [(u → v)], creates the twin entry when
    it is missing, and changes nothing else. *)
Lemma dir_entry_install f h u v a b :
  dir_entry (install_edge f h (u, v)) a b =
    if decide ((a, b) = (u, v)) then Some (Some f)
    else if decide ((a, b) = (v, u)) then Some (default None (dir_entry h a b))
    else dir_entry h a b.
Proof.
  unfold install_edge.
  set (h1 := <[u := <[v := Some f]> (default ∅ (h !! u))]> h).
  assert (∀ x y, dir_entry h1 x y =
            if decide ((x, y) = (u, v)) then Some (Some f)
            else dir_entry h x y) as Hh1.
  { intros x y. unfold h1. rewrite dir_entry_insert.
    destruct (decide (x = u)) as [->|Hx].
    - destruct (decide (y = v)) as [->|Hy].
      + rewrite lookup_insert_eq. by rewrite decide_True.
      + rewrite lookup_insert_ne by done.
        rewrite decide_False by congruence.
        unfold dir_entry. by destruct (h !! u).
    - by rewrite decide_False by congruence. }
  assert (∀ y, default ∅ (h1 !! v) !! y = dir_entry h1 v y) as Hrow.
  { intros y. unfold dir_entry. by destruct (h1 !! v). }
  rewrite Hrow.
  destruct (dir_entry h1 v u) as [x|] eqn:Hvu.
  - rewrite Hh1. destruct (decide ((a, b) = (u, v))); [done|].
    destruct (decide ((a, b) = (v, u))) as [[= -> ->]|]; [|done].
    rewrite Hh1 in Hvu. rewrite decide_False in Hvu by done.
    by rewrite Hvu.
  - rewrite dir_entry_insert.
    rewrite Hh1 in Hvu.
    destruct (decide ((v, u) = (u, v))) as [|Hvu']; [done|].
    destruct (decide (a = v)) as [->|Ha].
    + destruct (decide (b = u)) as [->|Hb].
      * rewrite lookup_insert_eq. rewrite decide_False by done.
        rewrite decide_True by done. by rewrite Hvu.
      * rewrite lookup_insert_ne by done. rewrite Hrow, Hh1.
        destruct (decide ((v, b) = (u, v))); [done|].
        by rewrite decide_False by congruence.
    + rewrite Hh1. destruct (decide ((a, b) = (u, v))); [done|].
      by rewrite decide_False by congruence.
Qed.

(** The directory after the directed edges [ps] of a face [f] were
    installed one after the other. *)
Lemma dir_entry_install_all f ps h a b :
  dir_entry (foldl (install_edge f) h ps) a b =
    if decide ((a, b) ∈ ps) then Some (Some f)
    else if decide ((b, a) ∈ ps) then Some (default None (dir_entry h a b))
    else dir_entry h a b.
Proof.
  revert h. induction ps as [|[u v] ps IH]; intros h.
  { cbn [foldl]. rewrite decide_False by apply not_elem_of_nil.
    by rewrite decide_False by apply not_elem_of_nil. }
  cbn [foldl]. rewrite IH, dir_entry_install.
  destruct (decide ((a, b) ∈ ps)) as [Hab|Hab].
  { by rewrite decide_True by (by right). }
  destruct (decide ((a, b) = (u, v))) as [[= -> ->]|Huv].
  { rewrite (decide_True (P := (u, v) ∈ (u, v) :: ps)) by left.
    by destruct (decide ((v, u) ∈ ps)). }
  rewrite (decide_False (P := (a, b) ∈ (u, v) :: ps))
    by (rewrite elem_of_cons; tauto).
  destruct (decide ((a, b) = (v, u))) as [[= -> ->]|Hvu].
  { rewrite (decide_True (P := (u, v) ∈ (u, v) :: ps)) by left.
    by destruct (decide ((u, v) ∈ ps)). }
  destruct (decide ((b, a) ∈ ps)) as [Hba|Hba].
  { by rewrite decide_True by (by right). }
  rewrite decide_False; [done|].
  rewrite elem_of_cons. intros [[= -> ->]|?]; done.
Qed.

(** Rows of the directory are only created for the ends of the installed
    edges. *)
Lemma install_edge_rows f h u v a :
  is_Some (install_edge f h (u, v) !! a) →
  is_Some (h !! a) ∨ a = u ∨ a = v.
Proof.
  unfold install_edge.
  set (h1 := <[u := <[v := Some f]> (default ∅ (h !! u))]> h).
  assert (is_Some (h1 !! a) → is_Some (h !! a) ∨ a = u) as Hh1.
  { unfold h1. destruct (decide (a = u)) as [->|]; [by right|].
    rewrite lookup_insert_ne by done. by left. }
  destruct (default ∅ (h1 !! v) !! u).
  - intros ?%Hh1. tauto.
  - destruct (decide (a = v)) as [->|]; [by auto|].
    rewrite lookup_insert_ne by done. intros ?%Hh1. tauto.
Qed.

Lemma install_all_rows f ps h a :
  is_Some (foldl (install_edge f) h ps !! a) →
  is_Some (h !! a) ∨ ∃ b, (a, b) ∈ ps ∨ (b, a) ∈ ps.
Proof.
  revert h. induction ps as [|[u v] ps IH]; intros h; [by left|].
  cbn [foldl]. intros [Hrow|(b & Hb)]%IH.
  - apply install_edge_rows in Hrow as [?|[->| ->]]; [by left| |].
    + right. exists v. left. left.
    + right. exists u. right. left.
  - right. exists b. destruct Hb; [left|right]; by right.
Qed.

(** *** The two cycles of a split face *)

Lemma lookup_split2 (c : list key) i j u v :
  c !! i = Some u → c !! j = Some v → i < j →
  ∃ A P C, c = A ++ u :: P ++ v :: C ∧ i = length A ∧
           j = length A + S (length P).
Proof.
  intros Hi Hj Hlt.
  apply list_elem_of_split_length in Hi as (A & T & -> & ->).
  rewrite lookup_app_r in Hj by lia.
  destruct (j - length A) as [|k] eqn:Hk; [lia|].
  cbn [lookup list_lookup] in Hj.
  apply list_elem_of_split_length in Hj as (P & C & -> & ->).
  exists A, P, C. split; [done|]. split; [done|lia].
Qed.

Lemma split_cycles_forward A P C u v :
  split_cycles (A ++ u :: P ++ v :: C) (length A) (length A + S (length P))
  = (u :: P ++ [v], v :: C ++ A ++ [u]).
Proof.
  unfold split_cycles, slice.
  rewrite bool_decide_eq_true_2 by lia.
  f_equal.
  - replace (A ++ u :: P ++ v :: C) with ((A ++ u :: P ++ [v]) ++ C)
      by (by rewrite <- !app_assoc; simpl; rewrite <- app_assoc).
    rewrite take_app_length' by (rewrite !length_app; simpl; rewrite length_app; simpl; lia).
    by rewrite drop_app_length.
  - replace (A ++ u :: P ++ v :: C) with ((A ++ u :: P) ++ v :: C) at 1
      by (by rewrite <- !app_assoc).
    rewrite drop_app_length' by (rewrite !length_app; simpl; lia).
    replace (A ++ u :: P ++ v :: C) with ((A ++ [u]) ++ P ++ v :: C)
      by (by rewrite <- !app_assoc).
    by rewrite take_app_length' by (rewrite !length_app; simpl; lia).
Qed.

Lemma split_cycles_backward A P C u v :
  split_cycles (A ++ v :: P ++ u :: C) (length A + S (length P)) (length A)
  = (u :: C ++ A ++ [v], v :: P ++ [u]).
Proof.
  unfold split_cycles, slice.
  rewrite bool_decide_eq_false_2 by lia.
  f_equal.
  - replace (A ++ v :: P ++ u :: C) with ((A ++ v :: P) ++ u :: C) at 1
      by (by rewrite <- !app_assoc).
    rewrite drop_app_length' by (rewrite !length_app; simpl; lia).
    replace (A ++ v :: P ++ u :: C) with ((A ++ [v]) ++ P ++ u :: C)
      by (by rewrite <- !app_assoc).
    by rewrite take_app_length' by (rewrite !length_app; simpl; lia).
  - replace (A ++ v :: P ++ u :: C) with ((A ++ v :: P ++ [u]) ++ C)
      by (by rewrite <- !app_assoc; simpl; rewrite <- app_assoc).
    rewrite take_app_length' by (rewrite !length_app; simpl; rewrite length_app; simpl; lia).
    by rewrite drop_app_length.
Qed.

(** For two positions of a cycle that are not neighbours, the two lists of
    [split_cycles] are the two paths between [u] and [v], each with an
    inner vertex, and the cycle is a rotation of the two paths laid end to
    end. *)
Lemma split_cycles_shape c i j u v :
  c !! i = Some u → c !! j = Some v → i ≠ j →
  ¬ cyclically_adjacent c i j →
  ∃ P Q l1 l2,
    P ≠ [] ∧ Q ≠ [] ∧
    split_cycles c i j = (u :: P ++ [v], v :: Q ++ [u]) ∧
    c = l1 ++ l2 ∧ u :: P ++ v :: Q = l2 ++ l1.
Proof.
  intros Hi Hj Hne Hadj. unfold cyclically_adjacent in Hadj.
  destruct (decide (i < j)) as [Hlt|Hge].
  - destruct (lookup_split2 c i j u v Hi Hj Hlt) as (A & P & C & -> & -> & ->).
    exists P, (C ++ A), A, (u :: P ++ v :: C).
    rewrite split_cycles_forward.
    assert (length (A ++ u :: P ++ v :: C)
            = length A + S (length P + S (length C))) as Hlen.
    { rewrite length_app. simpl. rewrite length_app. simpl. lia. }
    rewrite Hlen in Hadj.
    split.
    { intros ->. apply Hadj. left. simpl.
      rewrite Nat.mod_small by lia. lia. }
    split.
    { destruct C as [|x C]; [|done]. destruct A as [|x A]; [|done].
      exfalso. apply Hadj. right. cbn [length].
      replace (0 + S (length P) + 1) with (0 + S (length P + 1)) by lia.
      apply Nat.Div0.mod_same. }
    repeat split; simpl; by rewrite <- ?app_assoc.
  - assert (j < i) as Hlt by lia.
    destruct (lookup_split2 c j i v u Hj Hi Hlt) as (A & P & C & -> & -> & ->).
    exists (C ++ A), P, (A ++ v :: P), (u :: C).
    rewrite split_cycles_backward.
    assert (length (A ++ v :: P ++ u :: C)
            = length A + S (length P + S (length C))) as Hlen.
    { rewrite length_app. simpl. rewrite length_app. simpl. lia. }
    rewrite Hlen in Hadj.
    split.
    { destruct C as [|x C]; [|done]. destruct A as [|x A]; [|done].
      exfalso. apply Hadj. left. cbn [length].
      replace (0 + S (length P) + 1) with (0 + S (length P + 1)) by lia.
      apply Nat.Div0.mod_same. }
    split.
    { intros ->. apply Hadj. right. simpl.
      rewrite Nat.mod_small by lia. lia. }
    repeat split; simpl; by rewrite <- ?app_assoc.
Qed.

Lemma bridge_cons_cons x l1 y l2 :
  bridge (x :: l1) (y :: l2) = [(default x (last l1), y)].
Proof.
  unfold bridge. cbn [head]. rewrite last_cons. by destruct (last l1).
Qed.

(** The directed edges of a cycle do not depend on where the list
    starts. *)
Lemma cycle_pairs_rotation l1 l2 a b :
  (a, b) ∈ cycle_pairs (l1 ++ l2) ↔ (a, b) ∈ cycle_pairs (l2 ++ l1).
Proof.
  destruct l1 as [|x l1]; [by rewrite app_nil_r|].
  destruct l2 as [|y l2]; [by rewrite app_nil_r|].
  rewrite !cycle_pairs_closing, !adj_app. unfold closing.
  assert (bridge ((x :: l1) ++ y :: l2) ((x :: l1) ++ y :: l2)
          = bridge (y :: l2) (x :: l1)) as ->.
  { unfold bridge. rewrite last_app_cons. done. }
  assert (bridge ((y :: l2) ++ x :: l1) ((y :: l2) ++ x :: l1)
          = bridge (x :: l1) (y :: l2)) as ->.
  { unfold bridge. rewrite last_app_cons. done. }
  rewrite !elem_of_app. tauto.
Qed.

Lemma adj_snoc l z : adj (l ++ [z]) = adj l ++ bridge l [z].
Proof. rewrite adj_app. change (adj [z]) with (@nil (key * key)). by rewrite app_nil_r. Qed.

(** The directed edges of the cycle [u, P, v, Q] are those of the path
    from [u] to [v] and those of the path from [v] to [u]. *)
Lemma cycle_pairs_two_paths u P v Q :
  cycle_pairs (u :: P ++ v :: Q) = adj (u :: P ++ [v]) ++ adj (v :: Q ++ [u]).
Proof.
  rewrite cycle_pairs_closing.
  change (u :: P ++ v :: Q) with ((u :: P) ++ v :: Q).
  change (u :: P ++ [v]) with ((u :: P) ++ [v]).
  change (v :: Q ++ [u]) with ((v :: Q) ++ [u]).
  rewrite adj_app, !adj_snoc. unfold closing.
  assert (bridge (u :: P) (v :: Q) = bridge (u :: P) [v]) as ->
    by (by rewrite !bridge_cons_cons).
  assert (bridge ((u :: P) ++ v :: Q) ((u :: P) ++ v :: Q)
          = bridge (v :: Q) [u]) as ->.
  { unfold bridge. by rewrite last_app_cons. }
  by rewrite <- !app_assoc.
Qed.

(** A path closed into a cycle has the closing edge from its last to its
    first vertex. *)
Lemma cycle_pairs_path u P v :
  cycle_pairs (u :: P ++ [v]) = adj (u :: P ++ [v]) ++ [(v, u)].
Proof.
  rewrite cycle_pairs_closing. f_equal. unfold closing, bridge.
  change (u :: P ++ [v]) with ((u :: P) ++ [v]).
  by rewrite last_app_cons.
Qed.

Lemma elem_of_adj_snoc a b l z : (a, b) ∈ adj (l ++ [z]) → a ∈ l ∧ b ∈ tail l ++ [z].
Proof.
  rewrite adj_snoc, elem_of_app. intros [Hin|Hin].
  - split; [by eapply elem_of_adj_fst|].
    apply elem_of_app. left. by eapply elem_of_adj_snd.
  - unfold bridge in Hin. cbn [head] in Hin.
    destruct (last l) as [y|] eqn:Hy; [|by apply elem_of_nil in Hin].
    apply list_elem_of_singleton in Hin as [= -> ->].
    split; [by apply last_Some_elem_of|].
    apply elem_of_app. right. left.
Qed.

(** *** [mesh_split_face] keeps the invariants *)

(** The mesh that [mesh_split_face] leaves when its guards pass. *)
Lemma mesh_split_face_state m fkey u v c i j :
  mesh_wf m →
  face m !! fkey = Some c →
  index u c = Some i → index v c = Some j → i + 1 ≠ j →
  ∃ m',
    mesh_split_face fkey u v m = (inr (next_fkey m, S (next_fkey m)), m') ∧
    face m' = <[S (next_fkey m) := (split_cycles c i j).2]>
                (<[next_fkey m := (split_cycles c i j).1]>
                   (delete fkey (face m))) ∧
    halfedge m' =
      foldl (install_edge (S (next_fkey m)))
        (foldl (install_edge (next_fkey m)) (halfedge m)
           (cycle_pairs (split_cycles c i j).1))
        (cycle_pairs (split_cycles c i j).2) ∧
    vertex m' = vertex m ∧
    next_vkey m' = next_vkey m ∧
    next_fkey m' = S (S (next_fkey m)).
Proof.
  intros Hwf Hc Hi Hj Hne.
  pose proof (wf_fkey_lt _ _ _ Hwf Hc) as Hlt.
  unfold mesh_split_face, face_at. unfold_monad. rewrite Hc. unfold_monad.
  rewrite !py_in_true by eauto using index_elem_of. simpl.
  rewrite Hi, Hj. unfold_monad. rewrite bool_decide_eq_false_2 by done.
  destruct (split_cycles c i j) as [F G]. simpl.
  unfold add_face, del_face. unfold_monad. simpl.
  rewrite Nat.max_r by lia. rewrite Nat.max_r by lia.
  rewrite lookup_insert_ne by lia. rewrite lookup_insert_ne by lia.
  rewrite Hc. eexists. split; [reflexivity|]. simpl.
  split; [|done].
  rewrite delete_insert_ne by lia. by rewrite delete_insert_ne by lia.
Qed.

Lemma NoDup_path (x y : key) (l : list key) :
  x ≠ y → x ∉ l → y ∉ l → NoDup l → NoDup (x :: l ++ [y]).
Proof.
  intros Hxy Hx Hy Hl. apply NoDup_cons. split.
  - rewrite elem_of_app, list_elem_of_singleton. tauto.
  - apply NoDup_app. split; [done|]. split; [|apply NoDup_singleton].
    intros z Hz ->%list_elem_of_singleton. done.
Qed.

Section SplitFaceInvariants.
Variables (m m' : Mesh) (fkey u v : key) (c P Q : list key).
Hypothesis Hwf : mesh_wf m.
Hypothesis Hc : face m !! fkey = Some c.
Hypothesis HP : P ≠ [].
Hypothesis HQ : Q ≠ [].
Hypothesis Hring : ∃ l1 l2, c = l1 ++ l2 ∧ u :: P ++ v :: Q = l2 ++ l1.
Hypothesis Hchord : he m u v = None.
Hypothesis Hface :
  face m' = <[S (next_fkey m) := v :: Q ++ [u]]>
              (<[next_fkey m := u :: P ++ [v]]> (delete fkey (face m))).
Hypothesis Hdir :
  halfedge m' =
    foldl (install_edge (S (next_fkey m)))
      (foldl (install_edge (next_fkey m)) (halfedge m)
         (cycle_pairs (u :: P ++ [v])))
      (cycle_pairs (v :: Q ++ [u])).
Hypothesis Hvertex : vertex m' = vertex m.
Hypothesis Hnv : next_vkey m' = next_vkey m.
Hypothesis Hnf : next_fkey m' = S (S (next_fkey m)).

Lemma ring_perm : c ≡ₚ u :: P ++ v :: Q.
Proof.
  destruct Hring as (l1 & l2 & Hc1 & Hc2).
  rewrite Hc1, Hc2. apply Permutation_app_comm.
Qed.

Lemma ring_pairs a b :
  (a, b) ∈ cycle_pairs c ↔ (a, b) ∈ adj (u :: P ++ [v]) ∨ (a, b) ∈ adj (v :: Q ++ [u]).
Proof.
  destruct Hring as (l1 & l2 & Hc1 & Hc2).
  rewrite Hc1, cycle_pairs_rotation, <- Hc2, cycle_pairs_two_paths.
  apply elem_of_app.
Qed.

Lemma ring_NoDup : NoDup (u :: P ++ v :: Q).
Proof.
  rewrite <- ring_perm.
  apply mesh_wf_alt in Hwf as (Hf & _). by destruct (Hf _ _ Hc) as (_ & ? & _).
Qed.

Lemma ring_distinct :
  u ≠ v ∧ (u ∉ P) ∧ (u ∉ Q) ∧ (v ∉ P) ∧ (v ∉ Q) ∧ (∀ x, x ∈ P → x ∉ Q).
Proof.
  pose proof ring_NoDup as Hnd.
  apply NoDup_cons in Hnd as [Hu Hnd].
  apply NoDup_app in Hnd as (_ & Hdisj & [Hv _]%NoDup_cons).
  rewrite elem_of_app, elem_of_cons in Hu.
  repeat split.
  - intros ->. tauto.
  - tauto.
  - tauto.
  - intros Hin. apply (Hdisj _ Hin). left.
  - done.
  - intros x Hx Hx'. apply (Hdisj _ Hx). by right.
Qed.

Lemma pathF_ends a b : (a, b) ∈ adj (u :: P ++ [v]) → a ∈ u :: P ∧ b ∈ P ++ [v].
Proof. apply (elem_of_adj_snoc a b (u :: P) v). Qed.

Lemma pathG_ends a b : (a, b) ∈ adj (v :: Q ++ [u]) → a ∈ v :: Q ∧ b ∈ Q ++ [u].
Proof. apply (elem_of_adj_snoc a b (v :: Q) u). Qed.

Lemma pathF_no_chord :
  ((u, v) ∉ adj (u :: P ++ [v])) ∧ ((v, u) ∉ adj (u :: P ++ [v])).
Proof.
  destruct ring_distinct as (Huv & HuP & HuQ & HvP & HvQ & HPQ).
  split.
  - destruct P as [|p P'] eqn:EP; [done|].
    change (u :: (p :: P') ++ [v]) with (u :: p :: (P' ++ [v])).
    rewrite adj_cons, elem_of_cons. intros [[= <-]|Hin].
    + apply HvP. left.
    + change (p :: P' ++ [v]) with ((p :: P') ++ [v]) in Hin.
      apply elem_of_adj_snoc in Hin as [Hin _]. done.
  - intros [Hin _]%pathF_ends. apply elem_of_cons in Hin as [?|?]; done.
Qed.

Lemma pathG_no_chord :
  ((v, u) ∉ adj (v :: Q ++ [u])) ∧ ((u, v) ∉ adj (v :: Q ++ [u])).
Proof.
  destruct ring_distinct as (Huv & HuP & HuQ & HvP & HvQ & HPQ).
  split.
  - destruct Q as [|q Q'] eqn:EQ; [done|].
    change (v :: (q :: Q') ++ [u]) with (v :: q :: (Q' ++ [u])).
    rewrite adj_cons, elem_of_cons. intros [[= <-]|Hin].
    + apply HuQ. left.
    + change (q :: Q' ++ [u]) with ((q :: Q') ++ [u]) in Hin.
      apply elem_of_adj_snoc in Hin as [Hin _]. done.
  - intros [Hin _]%pathG_ends. apply elem_of_cons in Hin as [?|?]; done.
Qed.

(** No directed edge belongs to both new faces. *)
Lemma new_faces_disjoint a b :
  (a, b) ∈ cycle_pairs (u :: P ++ [v]) → (a, b) ∈ cycle_pairs (v :: Q ++ [u]) → False.
Proof.
  destruct ring_distinct as (Huv & HuP & HuQ & HvP & HvQ & HPQ).
  destruct pathF_no_chord as [HF1 HF2].
  destruct pathG_no_chord as [HG1 HG2].
  rewrite !cycle_pairs_path, !elem_of_app, !list_elem_of_singleton.
  intros [HinF|[= -> ->]] [HinG|[= ? ?]]; simplify_eq; try done.
  apply pathF_ends in HinF as [HaF _].
  apply pathG_ends in HinG as [HaG _].
  apply elem_of_cons in HaF as [->|HaF];
    apply elem_of_cons in HaG as [?|HaG]; simplify_eq; try done.
  by apply (HPQ a).
Qed.

Lemma chord_twin : he m v u = None.
Proof.
  destruct (he m v u) as [x|] eqn:Hvu; [|done].
  apply mesh_wf_alt in Hwf as (_ & _ & He & _).
  destruct (He _ _ _ Hvu) as [[y Hy] _]. congruence.
Qed.

(** An old entry at a directed edge of a new face belonged to the split
    face. *)
Lemma new_pairs_old a b x :
  (a, b) ∈ cycle_pairs (u :: P ++ [v]) ∨ (a, b) ∈ cycle_pairs (v :: Q ++ [u]) →
  he m a b = Some x → x = Some fkey.
Proof.
  rewrite !cycle_pairs_path, !elem_of_app, !list_elem_of_singleton.
  intros Hin Hab.
  assert ((a, b) ∈ cycle_pairs c ∨ (a, b) = (u, v) ∨ (a, b) = (v, u))
    as [Hold|[[= -> ->]|[= -> ->]]].
  { rewrite ring_pairs. tauto. }
  - rewrite (wf_face_pairs _ _ _ _ _ Hwf Hc Hold) in Hab. congruence.
  - congruence.
  - rewrite chord_twin in Hab. congruence.
Qed.

Lemma old_pairs_new a b :
  he m a b = Some (Some fkey) →
  (a, b) ∈ cycle_pairs (u :: P ++ [v]) ∨ (a, b) ∈ cycle_pairs (v :: Q ++ [u]).
Proof.
  intros Hab. destruct (wf_he_on_face _ _ _ _ Hwf Hab) as (c0 & Hc0 & Hin).
  assert (c0 = c) as -> by congruence.
  apply ring_pairs in Hin.
  rewrite !cycle_pairs_path, !elem_of_app. tauto.
Qed.

(** The directory of the new mesh. *)
Lemma split_face_he a b :
  he m' a b =
    if decide ((a, b) ∈ cycle_pairs (v :: Q ++ [u])) then Some (Some (S (next_fkey m)))
    else if decide ((a, b) ∈ cycle_pairs (u :: P ++ [v])) then Some (Some (next_fkey m))
    else if decide ((b, a) ∈ cycle_pairs (u :: P ++ [v]) ∨ (b, a) ∈ cycle_pairs (v :: Q ++ [u]))
         then Some (default None (he m a b))
         else he m a b.
Proof.
  change (he m' a b) with (dir_entry (halfedge m') a b).
  rewrite Hdir, !dir_entry_install_all.
  change (dir_entry (halfedge m) a b) with (he m a b).
  destruct (decide ((a, b) ∈ cycle_pairs (v :: Q ++ [u]))); [done|].
  destruct (decide ((a, b) ∈ cycle_pairs (u :: P ++ [v]))) as [HabF|HabF].
  { by destruct (decide ((b, a) ∈ cycle_pairs (v :: Q ++ [u]))). }
  destruct (decide ((b, a) ∈ cycle_pairs (v :: Q ++ [u]))) as [HbaG|HbaG].
  - rewrite (decide_True (P := _ ∨ _)) by auto.
    destruct (decide ((b, a) ∈ cycle_pairs (u :: P ++ [v]))); [|done].
    by destruct (he m a b).
  - destruct (decide ((b, a) ∈ cycle_pairs (u :: P ++ [v]))) as [HbaF|HbaF].
    + by rewrite (decide_True (P := _ ∨ _)) by auto.
    + by rewrite (decide_False (P := _ ∨ _)) by tauto.
Qed.

Lemma split_face_he_inv a b x :
  he m' a b = Some x →
  ((a, b) ∈ cycle_pairs (v :: Q ++ [u]) ∧ x = Some (S (next_fkey m))) ∨
  ((a, b) ∈ cycle_pairs (u :: P ++ [v]) ∧ x = Some (next_fkey m)) ∨
  (((a, b) ∉ cycle_pairs (u :: P ++ [v])) ∧
   ((a, b) ∉ cycle_pairs (v :: Q ++ [u])) ∧
   (he m a b = Some x ∨ x = None)).
Proof.
  rewrite split_face_he.
  destruct (decide ((a, b) ∈ cycle_pairs (v :: Q ++ [u]))); [intros [= <-]; auto|].
  destruct (decide ((a, b) ∈ cycle_pairs (u :: P ++ [v]))); [intros [= <-]; auto|].
  destruct (decide (_ ∨ _)).
  - intros [= <-]. right. right. split; [done|]. split; [done|].
    destruct (he m a b); auto.
  - intros Hab. auto 6.
Qed.

Lemma split_face_he_is_Some a b :
  (a, b) ∈ cycle_pairs (u :: P ++ [v]) ∨ (a, b) ∈ cycle_pairs (v :: Q ++ [u]) ∨
  (b, a) ∈ cycle_pairs (u :: P ++ [v]) ∨ (b, a) ∈ cycle_pairs (v :: Q ++ [u]) ∨
  is_Some (he m a b) →
  is_Some (he m' a b).
Proof.
  rewrite split_face_he. intros Hany.
  destruct (decide ((a, b) ∈ cycle_pairs (v :: Q ++ [u]))); [eauto|].
  destruct (decide ((a, b) ∈ cycle_pairs (u :: P ++ [v]))); [eauto|].
  destruct (decide (_ ∨ _)); [eauto|]. tauto.
Qed.

Lemma split_face_he_old a b x :
  he m a b = Some x →
  (a, b) ∉ cycle_pairs (u :: P ++ [v]) → (a, b) ∉ cycle_pairs (v :: Q ++ [u]) →
  he m' a b = Some x.
Proof.
  intros Hab HF HG. rewrite split_face_he.
  rewrite decide_False by done. rewrite decide_False by done.
  rewrite Hab. by destruct (decide (_ ∨ _)).
Qed.

(** The faces of the new mesh. *)
Lemma split_face_old_face h ch :
  h ≠ fkey → face m !! h = Some ch → face m' !! h = Some ch.
Proof.
  intros Hne Hh. pose proof (wf_fkey_lt _ _ _ Hwf Hh) as Hlt.
  rewrite Hface. rewrite !lookup_insert_ne by lia.
  by rewrite lookup_delete_ne.
Qed.

Lemma split_face_faces h ch :
  face m' !! h = Some ch →
  (h = S (next_fkey m) ∧ ch = (v :: Q ++ [u])) ∨
  (h = next_fkey m ∧ ch = (u :: P ++ [v])) ∨
  (h ≠ fkey ∧ face m !! h = Some ch).
Proof.
  rewrite Hface.
  destruct (decide (h = S (next_fkey m))) as [->|Hg].
  { rewrite lookup_insert_eq. intros [= <-]. auto. }
  rewrite lookup_insert_ne by done.
  destruct (decide (h = next_fkey m)) as [->|Hf].
  { rewrite lookup_insert_eq. intros [= <-]. auto. }
  rewrite lookup_insert_ne by done.
  destruct (decide (h = fkey)) as [->|Hk].
  { by rewrite lookup_delete_eq. }
  rewrite lookup_delete_ne by done. auto.
Qed.

Lemma split_face_on_path x :
  x ∈ (u :: P ++ [v]) ∨ x ∈ (v :: Q ++ [u]) → x ∈ c.
Proof.
  rewrite ring_perm.
  repeat (rewrite elem_of_cons || rewrite elem_of_app || rewrite elem_of_nil).
  tauto.
Qed.

Lemma split_face_wf : mesh_wf m'.
Proof.
  apply mesh_wf_alt.
  pose proof Hwf as Hwf0.
  apply mesh_wf_alt in Hwf0 as (Hf & Hr & He & Hv & Hk).
  destruct (Hf _ _ Hc) as (Hlen & Hnd & Hvs & Hps).
  rewrite Forall_forall in Hvs.
  destruct ring_distinct as (Huv & HuP & HuQ & HvP & HvQ & HPQ).
  assert (NoDup P ∧ NoDup Q) as [HndP HndQ].
  { pose proof ring_NoDup as Hnd0.
    apply NoDup_cons in Hnd0 as [_ Hnd0].
    apply NoDup_app in Hnd0 as (? & _ & [_ ?]%NoDup_cons). done. }
  assert (face m' !! next_fkey m = Some (u :: P ++ [v])) as HfF.
  { rewrite Hface, lookup_insert_ne by lia. apply lookup_insert_eq. }
  assert (face m' !! S (next_fkey m) = Some (v :: Q ++ [u])) as HfG.
  { rewrite Hface. apply lookup_insert_eq. }
  assert (∀ x, x ∈ u :: P ++ [v] ∨ x ∈ v :: Q ++ [u] →
               is_Some (vertex m' !! x)) as Hvs'.
  { intros x Hx%split_face_on_path. rewrite Hvertex. by apply Hvs. }
  assert (∀ a b h, he m a b = Some (Some h) →
            (a, b) ∉ cycle_pairs (u :: P ++ [v]) →
            (a, b) ∉ cycle_pairs (v :: Q ++ [u]) →
            on_face m' h a b) as Hon.
  { intros a b h Hab HF HG.
    destruct (wf_he_on_face _ _ _ _ Hwf Hab) as (ch & Hch & Hin).
    assert (h ≠ fkey) as Hne.
    { intros ->. apply old_pairs_new in Hab. tauto. }
    unfold on_face. by rewrite (split_face_old_face _ _ Hne Hch). }
  split; [|split; [|split; [|split]]].
  - (* faces *)
    intros h ch [(-> & ->)|[(-> & ->)|(Hne & Hh)]]%split_face_faces.
    + split; [|split; [|split]].
      * assert (1 ≤ length Q) by (destruct Q; [done|simpl; lia]).
        simpl. rewrite length_app. simpl. lia.
      * by apply NoDup_path.
      * rewrite Forall_forall. intros x Hx. apply Hvs'. by right.
      * rewrite Forall_forall. intros [a b] Hin. simpl.
        rewrite split_face_he. by rewrite decide_True.
    + split; [|split; [|split]].
      * assert (1 ≤ length P) by (destruct P; [done|simpl; lia]).
        simpl. rewrite length_app. simpl. lia.
      * by apply NoDup_path.
      * rewrite Forall_forall. intros x Hx. apply Hvs'. by left.
      * rewrite Forall_forall. intros [a b] Hin. simpl.
        rewrite split_face_he.
        rewrite decide_False by (intros HG; by eapply new_faces_disjoint).
        by rewrite decide_True.
    + destruct (Hf _ _ Hh) as (Hlen' & Hnd' & Hvs0 & Hps0).
      split; [done|]. split; [done|]. split.
      * by rewrite Hvertex.
      * rewrite Forall_forall in Hps0. rewrite Forall_forall.
        intros [a b] Hin. simpl. specialize (Hps0 _ Hin). simpl in Hps0.
        apply split_face_he_old; [done| |].
        -- intros HF. assert (Some h = Some fkey) by
             (eapply (new_pairs_old a b); [by left|done]). congruence.
        -- intros HG. assert (Some h = Some fkey) by
             (eapply (new_pairs_old a b); [by right|done]). congruence.
  - (* rows *)
    intros a Ha. rewrite Hdir in Ha.
    apply install_all_rows in Ha as [Ha|(b & Hb)].
    + apply install_all_rows in Ha as [Ha|(b & Hb)].
      * rewrite Hvertex. by apply Hr.
      * apply Hvs'. left.
        destruct Hb as [Hb|Hb];
          [by eapply elem_of_cycle_pairs_l|by eapply elem_of_cycle_pairs_r].
    + apply Hvs'. right.
      destruct Hb as [Hb|Hb];
        [by eapply elem_of_cycle_pairs_l|by eapply elem_of_cycle_pairs_r].
  - (* entries *)
    intros a b x Hab.
    destruct (split_face_he_inv _ _ _ Hab)
      as [(HG & ->)|[(HF & ->)|(HF & HG & Hold)]].
    + split; [apply split_face_he_is_Some; tauto|].
      simpl. unfold on_face. by rewrite HfG.
    + split; [apply split_face_he_is_Some; tauto|].
      simpl. unfold on_face. by rewrite HfF.
    + rewrite split_face_he in Hab.
      rewrite decide_False in Hab by done.
      rewrite decide_False in Hab by done.
      destruct (decide ((b, a) ∈ cycle_pairs (u :: P ++ [v]) ∨
                        (b, a) ∈ cycle_pairs (v :: Q ++ [u]))) as [Hnew|Hnew].
      * split; [apply split_face_he_is_Some; tauto|].
        destruct x as [h|]; [|done]. simpl.
        destruct Hold as [Hab0|?]; [|done]. by apply Hon.
      * destruct (He _ _ _ Hab) as [Htwin _].
        split; [apply split_face_he_is_Some; tauto|].
        destruct x as [h|]; [|done]. simpl. by apply Hon.
  - (* vertex keys *)
    intros k. rewrite Hvertex, Hnv. apply Hv.
  - (* face keys *)
    intros k [ch [(-> & ->)|[(-> & ->)|(Hne & Hh)]]%split_face_faces].
    + lia.
    + lia.
    + rewrite Hnf. assert (k < next_fkey m) by (apply Hk; eauto). lia.
Qed.

End SplitFaceInvariants.

(** The guards of [mesh_split_face] pass for two vertices of a face that
    are distinct and not neighbours on its cycle. *)
Lemma mesh_split_face_paths m fkey u v c i j :
  mesh_wf m →
  face m !! fkey = Some c →
  c !! i = Some u → c !! j = Some v → u ≠ v →
  ¬ cyclically_adjacent c i j →
  ∃ P Q m',
    P ≠ [] ∧ Q ≠ [] ∧
    (∃ l1 l2, c = l1 ++ l2 ∧ u :: P ++ v :: Q = l2 ++ l1) ∧
    mesh_split_face fkey u v m = (inr (next_fkey m, S (next_fkey m)), m') ∧
    face m' = <[S (next_fkey m) := v :: Q ++ [u]]>
                (<[next_fkey m := u :: P ++ [v]]> (delete fkey (face m))) ∧
    halfedge m' =
      foldl (install_edge (S (next_fkey m)))
        (foldl (install_edge (next_fkey m)) (halfedge m)
           (cycle_pairs (u :: P ++ [v])))
        (cycle_pairs (v :: Q ++ [u])) ∧
    vertex m' = vertex m ∧
    next_vkey m' = next_vkey m ∧
    next_fkey m' = S (S (next_fkey m)).
Proof.
  intros Hwf Hc Hu Hv Huv Hadj.
  assert (NoDup c) as Hnd
    by (destruct Hwf as (Hf & _); by apply Hf in Hc as (_ & ? & _)).
  pose proof (lookup_lt_Some _ _ _ Hv) as Hj.
  assert (i ≠ j) as Hij by (intros ->; congruence).
  assert (i + 1 ≠ j) as Hne.
  { intros <-. apply Hadj. left. by apply Nat.mod_small. }
  destruct (split_cycles_shape c i j u v Hu Hv Hij Hadj)
    as (P & Q & l1 & l2 & HP & HQ & Hsplit & Hc1 & Hc2).
  destruct (mesh_split_face_state m fkey u v c i j)
    as (m' & Hrun & Hface & Hdir & Hvert & Hnv & Hnf);
    auto using index_NoDup.
  rewrite Hsplit in Hface, Hdir. simpl in Hface, Hdir.
  exists P, Q, m'. eauto 12.
Qed.

(** X8.  [mesh_split_face] keeps the invariants of the data model when it
    is used as intended: in a mesh that satisfies them, for two distinct
    vertices of the face that are not neighbours on its cycle and are not
    joined by an edge of the mesh already, the call returns two face keys
    and the mesh it leaves satisfies the invariants again. *)
Theorem mesh_split_face_keeps_invariants m fkey u v c i j :
  mesh_wf m →
  face m !! fkey = Some c →
  c !! i = Some u → c !! j = Some v → u ≠ v →
  ¬ cyclically_adjacent c i j →
  he m u v = None →
  ∃ f g m',
    mesh_split_face fkey u v m = (inr (f, g), m') ∧ mesh_wf m'.
Proof.
  intros Hwf Hc Hu Hv Huv Hadj Hchord.
  destruct (mesh_split_face_paths m fkey u v c i j)
    as (P & Q & m' & HP & HQ & Hring & Hrun & Hface & Hdir & Hvert & Hnv & Hnf);
    auto.
  exists (next_fkey m), (S (next_fkey m)), m'. split; [done|].
  by apply (split_face_wf m m' fkey u v c P Q).
Qed.

(** X8, at the unit quad, split along the diagonal 0–2. *)
Lemma mesh_split_face_keeps_invariants_witness :
  ∃ f g m',
    mesh_split_face 0 0 2 quad_mesh = (inr (f, g), m') ∧ mesh_wf m'.
Proof.
  apply (mesh_split_face_keeps_invariants quad_mesh 0 0 2 [0; 1; 2; 3] 0 2).
  - exact quad_mesh_wf.
  - reflexivity.
  - reflexivity.
  - reflexivity.
  - lia.
  - unfold cyclically_adjacent. simpl. lia.
  - vm_compute. reflexivity.
Defined.

(** X9.  After a split, the new edge separates the two new faces: the
    entry [(v → u)] maps to the first returned face, whose cycle runs from
    [u] to [v], and [(u → v)] maps to the second; every entry of the
    directory that did not map to the split face, and whose twin did not
    either, is unchanged, and no entry maps to the split face any more. *)
Theorem mesh_split_face_directory m fkey u v c i j :
  mesh_wf m →
  face m !! fkey = Some c →
  c !! i = Some u → c !! j = Some v → u ≠ v →
  ¬ cyclically_adjacent c i j →
  he m u v = None →
  ∃ f g m',
    mesh_split_face fkey u v m = (inr (f, g), m') ∧
    he m' v u = Some (Some f) ∧ he m' u v = Some (Some g) ∧
    (∀ a b, (a, b) ∉ cycle_pairs c → (b, a) ∉ cycle_pairs c →
            (a, b) ≠ (u, v) → (a, b) ≠ (v, u) →
            he m' a b = he m a b) ∧
    (∀ a b, he m' a b ≠ Some (Some fkey)).
Proof.
  intros Hwf Hc Hu Hv Huv Hadj Hchord.
  destruct (mesh_split_face_paths m fkey u v c i j)
    as (P & Q & m' & HP & HQ & Hring & Hrun & Hface & Hdir & Hvert & Hnv & Hnf);
    auto.
  pose proof (split_face_he m m' u v P Q Hdir) as Hhe.
  pose proof (ring_pairs u v c P Q Hring) as Hpairs.
  pose proof (wf_fkey_lt _ _ _ Hwf Hc) as Hlt.
  exists (next_fkey m), (S (next_fkey m)), m'. split; [done|].
  split; [|split; [|split]].
  - rewrite Hhe.
    rewrite decide_False.
    + rewrite decide_True; [done|].
      rewrite cycle_pairs_path, elem_of_app, list_elem_of_singleton. auto.
    + intros HG.
      eapply (new_faces_disjoint m m' fkey u v c P Q Hwf Hc HP HQ Hring
                Hchord Hface Hdir v u); [|done].
      rewrite cycle_pairs_path, elem_of_app, list_elem_of_singleton. auto.
  - rewrite Hhe. rewrite decide_True; [done|].
    rewrite cycle_pairs_path, elem_of_app, list_elem_of_singleton. auto.
  - intros a b Hab Hba Hn1 Hn2. rewrite Hhe.
    rewrite !cycle_pairs_path.
    rewrite decide_False.
    2:{ rewrite elem_of_app, list_elem_of_singleton.
        intros [?|?]; [|done]. apply Hab, Hpairs. auto. }
    rewrite decide_False.
    2:{ rewrite elem_of_app, list_elem_of_singleton.
        intros [?|?]; [|done]. apply Hab, Hpairs. auto. }
    rewrite decide_False; [done|].
    rewrite !elem_of_app, !list_elem_of_singleton.
    intros [[?|[= -> ->]]|[?|[= -> ->]]]; try done.
    + apply Hba, Hpairs. auto.
    + apply Hba, Hpairs. auto.
  - intros a b Hab.
    destruct (split_face_he_inv m m' u v P Q Hdir _ _ _ Hab)
      as [(_ & [= ?])|[(_ & [= ?])|(HF & HG & [Hold|?])]]; [lia|lia| |done].
    apply (old_pairs_new m fkey u v c P Q Hwf Hc Hring) in Hold. tauto.
Qed.

(** X9, at the unit quad, split along the diagonal 0–2. *)
Lemma mesh_split_face_directory_witness :
  ∃ f g m',
    mesh_split_face 0 0 2 quad_mesh = (inr (f, g), m') ∧
    he m' 2 0 = Some (Some f) ∧ he m' 0 2 = Some (Some g) ∧
    (∀ a b, (a, b) ∉ cycle_pairs [0; 1; 2; 3] →
            (b, a) ∉ cycle_pairs [0; 1; 2; 3] →
            (a, b) ≠ (0, 2) → (a, b) ≠ (2, 0) →
            he m' a b = he quad_mesh a b) ∧
    (∀ a b, he m' a b ≠ Some (Some 0)).
Proof.
  apply (mesh_split_face_directory quad_mesh 0 0 2 [0; 1; 2; 3] 0 2).
  - exact quad_mesh_wf.
  - reflexivity.
  - reflexivity.
  - reflexivity.
  - lia.
  - unfold cyclically_adjacent. simpl. lia.
  - vm_compute. reflexivity.
Defined.

(** *** What [mesh_split_face] rejects *)

(** X10.  [mesh_split_face] rejects a vertex that is not on the face: it
    raises the error of the message 'The split vertices do not belong to
    the split face.' and the mesh is unchanged. *)
Theorem mesh_split_face_not_on_face m fkey u v c :
  face m !! fkey = Some c →
  u ∉ c ∨ v ∉ c →
  mesh_split_face fkey u v m = (inl NotOnFace, m).
Proof.
  intros Hc Hout.
  unfold mesh_split_face, face_at. unfold_monad. rewrite Hc. unfold_monad.
  unfold py_in.
  destruct Hout as [Hu|Hv].
  - by rewrite (bool_decide_eq_false_2 (u ∈ c)) by done.
  - rewrite (bool_decide_eq_false_2 (v ∈ c)) by done.
    by rewrite orb_true_r.
Qed.

Lemma mesh_split_face_not_on_face_witness :
  mesh_split_face 0 0 7 quad_mesh = (inl NotOnFace, quad_mesh).
Proof.
  apply (mesh_split_face_not_on_face quad_mesh 0 0 7 [0; 1; 2; 3]).
  - reflexivity.
  - right. intros Hin. repeat (apply elem_of_cons in Hin as [Hin|Hin]; [lia|]).
    by apply elem_of_nil in Hin.
Defined.

(** X11.  [mesh_split_face] on a face key that is not in the mesh fails
    with [KeyError] and leaves the mesh unchanged. *)
Theorem mesh_split_face_missing_face m fkey u v :
  face m !! fkey = None →
  mesh_split_face fkey u v m = (inl KeyError, m).
Proof.
  intros Hc. unfold mesh_split_face, face_at. unfold_monad.
  rewrite Hc. by unfold_monad.
Qed.

Lemma mesh_split_face_missing_face_witness :
  mesh_split_face 5 0 2 quad_mesh = (inl KeyError, quad_mesh).
Proof.
  apply (mesh_split_face_missing_face quad_mesh 5 0 2).
  vm_compute. reflexivity.
Defined.

(** X12.  [mesh_split_face] rejects [v] when it is the vertex after [u] in
    the list of the face: in a cycle without repeated vertices, with [u] at
    position [i] and [v] at position [i + 1], it raises the error of the
    message 'The split vertices are neighbours.' and the mesh is
    unchanged. *)
Theorem mesh_split_face_rejects_successor m fkey u v c i :
  face m !! fkey = Some c → NoDup c →
  c !! i = Some u → c !! (i + 1) = Some v →
  mesh_split_face fkey u v m = (inl Adjacent, m).
Proof.
  intros Hc Hnd Hu Hv.
  apply (mesh_split_face_neighbours m fkey u v c i); auto using index_NoDup.
Qed.

Lemma mesh_split_face_rejects_successor_witness :
  mesh_split_face 0 1 2 quad_mesh = (inl Adjacent, quad_mesh).
Proof.
  apply (mesh_split_face_rejects_successor quad_mesh 0 1 2 [0; 1; 2; 3] 1).
  - reflexivity.
  - apply (bool_decide_unpack _). vm_compute. exact I.
  - reflexivity.
  - reflexivity.
Defined.

(** * Further facts about [triangulation.py] *)

(** *** The triangles that [delaunay_from_points] returns *)

Lemma triangles_below_insert N m m' f c :
  triangles_below N m →
  face m' = <[f := c]> (face m) →
  length c = 3 → (∀ x, x ∈ c → x < N) →
  triangles_below N m'.
Proof.
  intros Hm Hf Hlen Hc g d. rewrite Hf.
  destruct (decide (g = f)) as [->|Hne].
  - rewrite lookup_insert_eq. by intros [= <-].
  - rewrite lookup_insert_ne by done. apply Hm.
Qed.

Lemma triangles_below_sub N m m' :
  triangles_below N m →
  (∀ f c, face m' !! f = Some c → face m !! f = Some c) →
  triangles_below N m'.
Proof. intros Hm Hsub f c Hc. apply (Hm f). by apply Hsub. Qed.

Lemma triangles_below_delete N m m' f :
  triangles_below N m → face m' = delete f (face m) → triangles_below N m'.
Proof.
  intros Hm Hf. apply (triangles_below_sub N m); [done|].
  intros g c. rewrite Hf. by intros [_ ?]%lookup_delete_Some.
Qed.

Lemma add_vertex_run k xyz m :
  ∃ m', add_vertex k xyz m = (inr (default (next_vkey m) k), m') ∧
        face m' = face m ∧ next_fkey m' = next_fkey m.
Proof. unfold add_vertex. unfold_monad. eexists. by split. Qed.

Lemma add_face_run c fk m :
  ∃ m', add_face c fk m = (inr (default (next_fkey m) fk), m') ∧
        face m' = <[default (next_fkey m) fk := c]> (face m) ∧
        vertex m' = vertex m.
Proof. unfold add_face. unfold_monad. eexists. by split. Qed.

Lemma del_face_inr f m m' :
  del_face f m = (inr tt, m') → face m' = delete f (face m).
Proof.
  unfold del_face. unfold_monad.
  destruct (face m !! f); [|done]. by intros [= <-].
Qed.

Lemma apex_elem_of c u v o : apex c u v = Some o → o ∈ c.
Proof.
  unfold apex. intros Hhd.
  assert (o ∈ filter (λ k, k ≠ u ∧ k ≠ v) c) as Hin.
  { destruct (filter _ c) as [|x l]; [done|].
    injection Hhd as ->. left. }
  by apply list_elem_of_filter in Hin as [_ ?].
Qed.

Section DelaunayOutput.
Context `{Geometry} `{IterOrder}.

Lemma triangle_xy_inr fkey m r m' :
  triangle_xy fkey m = (inr r, m') → m' = m.
Proof.
  unfold triangle_xy, face_vertices, face_at. unfold_monad.
  destruct (face m !! fkey) as [[|a [|b [|c [|? ?]]]]|]; try done.
  unfold_monad. unfold vertex_at. unfold_monad.
  destruct (vertex m !! a); [|done]. unfold_monad.
  destruct (vertex m !! b); [|done]. unfold_monad.
  destruct (vertex m !! c); [|done]. unfold_monad.
  by intros [= _ <-].
Qed.

Lemma insert_faces_inr N w ps m fkeys m' :
  mapM (λ uv : key * key, add_face [uv.1; uv.2; w] None) ps m
    = (inr fkeys, m') →
  triangles_below N m → w < N →
  (∀ uv, uv ∈ ps → uv.1 < N ∧ uv.2 < N) →
  triangles_below N m'.
Proof.
  revert m fkeys. induction ps as [|uv ps IH]; intros m fkeys; simpl.
  - by intros [= _ <-].
  - intros (f & m1 & Hadd & Hrest)%bind_inr Hm Hw Hps.
    apply bind_inr in Hrest as (fs & m2 & Hrest & [= _ <-]).
    destruct (add_face_run [uv.1; uv.2; w] None m) as (m1' & Hrun & Hf & _).
    rewrite Hrun in Hadd. injection Hadd as _ <-.
    apply (IH _ _ Hrest); [|done|].
    + apply (triangles_below_insert N m _ _ _ Hm Hf); [done|].
      destruct (Hps uv) as [? ?]; [left|].
      intros x Hx. repeat (apply elem_of_cons in Hx as [->|Hx]; [done|]).
      by apply elem_of_nil in Hx.
    + intros uv' Hin. apply Hps. by right.
Qed.

Lemma insert_vertex_inr N fkey k xyz m w fkeys m' :
  insert_vertex fkey (Some k) xyz m = (inr (w, fkeys), m') →
  triangles_below N m → k < N →
  triangles_below N m' ∧ w = k.
Proof.
  unfold insert_vertex.
  intros (c & m0 & Hc & Hrest)%bind_inr Hm Hk.
  unfold face_at in Hc. unfold_monad in Hc.
  destruct (face m !! fkey) as [c'|] eqn:Hface; [|done].
  injection Hc as -> <-.
  apply bind_inr in Hrest as (w' & m1 & Hadd & Hrest).
  destruct (add_vertex_run (Some k) xyz m) as (m1' & Hrun & Hf1 & _).
  rewrite Hrun in Hadd. injection Hadd as <- <-.
  apply bind_inr in Hrest as (fs & m2 & Hfaces & Hrest).
  apply bind_inr in Hrest as ([] & m3 & Hdel & [= <- <- <-]).
  split; [|done].
  apply del_face_inr in Hdel.
  apply (triangles_below_delete N m2 _ fkey); [|done].
  apply (insert_faces_inr N k (cycle_pairs c) m1' fs m2 Hfaces); [|done|].
  - intros f d. rewrite Hf1. apply Hm.
  - intros [a b] Hin. simpl. destruct (Hm _ _ Hface) as [_ Hlt].
    split; apply Hlt;
      [by eapply elem_of_cycle_pairs_l|by eapply elem_of_cycle_pairs_r].
Qed.

Lemma locate_inr N pt k fkeys m r m' :
  locate pt k fkeys m = (inr r, m') →
  triangles_below N m → k < N →
  triangles_below N m' ∧ ∀ w tris, r = Some (w, tris) → w = k.
Proof.
  revert m. induction fkeys as [|fkey fkeys IH]; intros m; simpl.
  - intros [= <- <-] Hm _. split; [done|]. by intros.
  - intros (abc & m0 & Habc & Hrest)%bind_inr Hm Hk.
    apply triangle_xy_inr in Habc as ->.
    destruct (is_point_in_triangle_xy pt abc true); [|by eapply IH].
    apply bind_inr in Hrest as ([w tris] & m1 & Hins & [= <- <-]).
    apply (insert_vertex_inr N) in Hins as [Hm1 ->]; [|done..].
    split; [done|]. by intros ?? [= <- _].
Qed.

Lemma trimesh_swap_edge_inr N u v m r m' :
  trimesh_swap_edge u v m = (inr r, m') →
  triangles_below N m → u < N → v < N →
  triangles_below N m'.
Proof.
  unfold trimesh_swap_edge.
  intros (fuv & m0 & Huv & Hrest)%bind_inr Hm Hu Hv.
  unfold halfedge_at in Huv. unfold_monad in Huv.
  destruct (he m u v) as [x|]; [|done]. injection Huv as -> <-.
  apply bind_inr in Hrest as (fvu & m0 & Hvu & Hrest).
  unfold halfedge_at in Hvu. unfold_monad in Hvu.
  destruct (he m v u) as [y|]; [|done]. injection Hvu as -> <-.
  destruct fuv as [f1|]; [|done]. destruct fvu as [f2|]; [|done].
  apply bind_inr in Hrest as (c1 & m0 & Hc1 & Hrest).
  unfold face_at in Hc1. unfold_monad in Hc1.
  destruct (face m !! f1) as [c1'|] eqn:Hf1; [|done].
  injection Hc1 as -> <-.
  apply bind_inr in Hrest as (c2 & m0 & Hc2 & Hrest).
  unfold face_at in Hc2. unfold_monad in Hc2.
  destruct (face m !! f2) as [c2'|] eqn:Hf2; [|done].
  injection Hc2 as -> <-.
  destruct (negb _); [done|].
  apply bind_inr in Hrest as (o1 & m0 & Ho1 & Hrest).
  unfold lift_opt in Ho1.
  destruct (apex c1 u v) as [o1'|] eqn:Hapex1; [|done].
  injection Ho1 as -> <-.
  apply bind_inr in Hrest as (o2 & m0 & Ho2 & Hrest).
  unfold lift_opt in Ho2.
  destruct (apex c2 u v) as [o2'|] eqn:Hapex2; [|done].
  injection Ho2 as -> <-.
  apply bind_inr in Hrest as ([] & m1 & Hd1 & Hrest).
  apply bind_inr in Hrest as ([] & m2 & Hd2 & Hrest).
  apply bind_inr in Hrest as (a & m3 & Ha & Hrest).
  apply bind_inr in Hrest as (b & m4 & Hb & [= _ <-]).
  apply delete_face_inr in Hd1 as [_ Hd1].
  apply delete_face_inr in Hd2 as [_ Hd2].
  destruct (add_face_run [u; o2; o1] None m2) as (m3' & Hrun3 & Hf3 & _).
  rewrite Hrun3 in Ha. injection Ha as _ <-.
  destruct (add_face_run [v; o1; o2] None m3') as (m4' & Hrun4 & Hf4 & _).
  rewrite Hrun4 in Hb. injection Hb as _ <-.
  assert (o1 < N) as Ho1.
  { destruct (Hm _ _ Hf1) as [_ Hlt]. by apply Hlt, (apex_elem_of _ u v). }
  assert (o2 < N) as Ho2.
  { destruct (Hm _ _ Hf2) as [_ Hlt]. by apply Hlt, (apex_elem_of _ u v). }
  apply (triangles_below_insert N m3' _ _ _ ) with (2 := Hf4); [|done|].
  - apply (triangles_below_insert N m2 _ _ _ ) with (2 := Hf3); [|done|].
    + apply (triangles_below_delete N m1 _ f2); [|done].
      by apply (triangles_below_delete N m _ f1).
    + intros x Hx. repeat (apply elem_of_cons in Hx as [->|Hx]; [done|]).
      by apply elem_of_nil in Hx.
  - intros x Hx. repeat (apply elem_of_cons in Hx as [->|Hx]; [done|]).
    by apply elem_of_nil in Hx.
Qed.

Lemma opposite_face_inr k fkey m fo u v m' :
  opposite_face k fkey m = (inr (fo, u, v), m') →
  m' = m ∧ ∃ keys, face m !! fkey = Some keys ∧ u ∈ keys ∧ v ∈ keys.
Proof.
  unfold opposite_face, face_vertices.
  intros (keys & m0 & Hkeys & Hrest)%bind_inr.
  unfold face_at in Hkeys. unfold_monad in Hkeys.
  destruct (face m !! fkey) as [keys'|] eqn:Hf; [|done].
  injection Hkeys as -> <-.
  destruct (iter_keys (list_to_set keys ∖ {[k]})) as [|a [|b s]] eqn:Hs;
    [done|done|].
  assert (a ∈ keys ∧ b ∈ keys) as [Ha Hb].
  { assert (∀ x, x ∈ a :: b :: s → x ∈ keys) as Hin.
    { intros x. rewrite <- Hs, elem_of_iter_keys, elem_of_difference,
        elem_of_list_to_set. tauto. }
    split; apply Hin; [left|right; left]. }
  apply bind_inr in Hrest as (f1 & m0 & H1 & Hrest).
  unfold halfedge_at in H1. unfold_monad in H1.
  destruct (he m a b) as [x|]; [|done]. injection H1 as -> <-.
  destruct (bool_decide (f1 ≠ Some fkey)).
  - injection Hrest as <- <- <- <-. eauto.
  - apply bind_inr in Hrest as (f2 & m0 & H2 & [= <- <- <- <-]).
    unfold halfedge_at in H2. unfold_monad in H2.
    destruct (he m b a) as [y|]; [|done]. injection H2 as _ <-. eauto.
Qed.

Lemma lawson_body_inr N k pt fkey newtris m r m' :
  lawson_body k pt fkey newtris m = (inr r, m') →
  triangles_below N m → triangles_below N m'.
Proof.
  unfold lawson_body.
  intros ([[fo u] v] & m0 & Hopp & Hrest)%bind_inr Hm.
  apply opposite_face_inr in Hopp as (-> & keys & Hkeys & Hu & Hv).
  destruct (Hm _ _ Hkeys) as [_ Hlt].
  destruct fo as [[|fop]|]; [by injection Hrest as _ <-| |by injection Hrest as _ <-].
  apply bind_inr in Hrest as ([[a b] c] & m0 & Habc & Hrest).
  apply triangle_xy_inr in Habc as ->.
  apply bind_inr in Hrest as (circle & m0 & Hcirc & Hrest).
  unfold lift_res in Hcirc.
  destruct (circle_from_points_xy a b c) as [e|crc]; [done|].
  injection Hcirc as -> <-.
  destruct (is_point_in_circle_xy pt circle); [|by injection Hrest as _ <-].
  apply bind_inr in Hrest as (fg & m1 & Hswap & [= _ <-]).
  apply (trimesh_swap_edge_inr N) in Hswap; auto.
Qed.

Lemma lawson_inr N fuel k pt newtris m m' :
  lawson fuel k pt newtris m = (inr tt, m') →
  triangles_below N m → triangles_below N m'.
Proof.
  revert newtris m. induction fuel as [|fuel IH]; intros newtris m; simpl.
  - destruct (pop newtris) as [[fkey rest]|]; [done|]. by intros [= <-].
  - destruct (pop newtris) as [[fkey rest]|]; [|by intros [= <-]].
    intros (r & m1 & Hbody & Hrest)%bind_inr Hm.
    apply (lawson_body_inr N) in Hbody; [|done]. by eapply IH.
Qed.

Lemma insert_site_inr N fuel newtris i pt m r m' :
  insert_site fuel newtris i pt m = (inr r, m') →
  triangles_below N m → i < N →
  triangles_below N m'.
Proof.
  unfold insert_site. unfold_monad.
  destruct (locate pt i (faces m) m) as [[e|loc] m1] eqn:Hloc; [done|].
  intros Hrest Hm Hi.
  apply (locate_inr N) in Hloc as [Hm1 Hw]; [|done..].
  destruct (match loc with Some (_, tris) => Some tris | None => newtris end)
    as [tris|]; [|done].
  destruct (lawson fuel _ pt tris m1) as [[e|[]] m2] eqn:Hlaw; [done|].
  injection Hrest as _ <-. by eapply lawson_inr.
Qed.

Lemma insert_sites_inr N fuel newtris i points m r m' :
  insert_sites fuel newtris i points m = (inr r, m') →
  triangles_below N m → i + length points ≤ N →
  triangles_below N m'.
Proof.
  revert newtris i m. induction points as [|pt rest IH]; intros newtris i m.
  - by intros [= _ <-].
  - simpl. intros (nt & m1 & Hsite & Hrest)%bind_inr Hm Hlen.
    apply (insert_site_inr N) in Hsite; [|done|lia].
    apply (IH _ _ _ Hrest); [done|lia].
Qed.

(** [delete_vertex] leaves no face that contains the vertex, and creates
    none. *)
Lemma delete_faces_at_inr k fkeys m m' :
  forM fkeys (λ fkey,
    let* c := face_at fkey in
    if py_in k c then delete_face fkey else ret tt) m = (inr tt, m') →
  ∀ f c, face m' !! f = Some c →
    face m !! f = Some c ∧ (f ∈ fkeys → k ∉ c).
Proof.
  revert m. induction fkeys as [|g fkeys IH]; intros m.
  - intros [= <-] f c Hc. split; [done|]. by intros ?%elem_of_nil.
  - intros (m1 & Hg & Hrest)%forM_cons_inr f c Hc.
    destruct (IH _ Hrest f c Hc) as [Hc1 Hk].
    apply bind_inr in Hg as (d & m0 & Hd & Hg).
    unfold face_at in Hd. unfold_monad in Hd.
    destruct (face m !! g) as [d'|] eqn:Hgd; [|done].
    injection Hd as -> <-.
    unfold py_in in Hg.
    destruct (bool_decide (k ∈ d)) eqn:Hin.
    + apply delete_face_inr in Hg as [_ Hf].
      rewrite Hf in Hc1. apply lookup_delete_Some in Hc1 as [Hne Hc0].
      split; [done|]. intros [?|?]%elem_of_cons; [done|auto].
    + injection Hg as <-. split; [done|].
      intros [->|?]%elem_of_cons; [|auto].
      apply bool_decide_eq_false in Hin. congruence.
Qed.

Lemma delete_vertex_inr k m m' :
  delete_vertex k m = (inr tt, m') →
  ∀ f c, face m' !! f = Some c → face m !! f = Some c ∧ k ∉ c.
Proof.
  unfold delete_vertex. unfold_monad.
  destruct (forM (faces m) _ m) as [[e|[]] m1] eqn:Hloop; [done|].
  destruct (vertex m1 !! k); [|done].
  intros [= <-] f c Hc. simpl in Hc.
  destruct (delete_faces_at_inr _ _ _ _ Hloop f c Hc) as [Hc0 Hk].
  split; [done|]. apply Hk, elem_of_faces. eauto.
Qed.

Lemma bootstrap_inr points m keys m' :
  bootstrap points m = (inr keys, m') →
  keys = (length points, length points + 1, length points + 2) ∧
  face m' = <[next_fkey m :=
               [length points; length points + 1; length points + 2]]>
              (face m).
Proof.
  unfold bootstrap. intros ([[pt1 pt2] pt3] & m0 & Htri & Hrest)%bind_inr.
  unfold lift_res in Htri. destruct (super_triangle points); [done|].
  injection Htri as -> <-.
  set (n := length points) in *.
  apply bind_inr in Hrest as (k0 & m1 & Hv0 & Hrest).
  destruct (add_vertex_run (Some n) pt1 m) as (m1' & Hrun1 & Hf1 & Hn1).
  rewrite Hrun1 in Hv0. injection Hv0 as _ <-.
  apply bind_inr in Hrest as (k1 & m2 & Hv1 & Hrest).
  destruct (add_vertex_run (Some (n + 1)) pt2 m1') as (m2' & Hrun2 & Hf2 & Hn2).
  rewrite Hrun2 in Hv1. injection Hv1 as _ <-.
  apply bind_inr in Hrest as (k2 & m3 & Hv2 & Hrest).
  destruct (add_vertex_run (Some (n + 2)) pt3 m2') as (m3' & Hrun3 & Hf3 & Hn3).
  rewrite Hrun3 in Hv2. injection Hv2 as _ <-.
  apply bind_inr in Hrest as (k3 & m4 & Hv3 & [= <- <-]).
  destruct (add_face_run [n; n + 1; n + 2] None m3') as (m4' & Hrun4 & Hf4 & _).
  rewrite Hrun4 in Hv3. injection Hv3 as _ <-.
  split; [done|]. rewrite Hf4, Hf3, Hf2, Hf1. simpl.
  by rewrite Hn3, Hn2, Hn1.
Qed.

Lemma length_jitter tiny rand points :
  length (jitter tiny rand points) = length points.
Proof. unfold jitter. apply length_imap. Qed.

(** X13.  What the docstring of [delaunay_from_points] promises of its
    result: every face that is returned is a triplet of indices into the
    list of points.  In particular no key of the super-triangle is part of
    the output. *)
Theorem delaunay_triplets fuel rand points boundary holes tiny out :
  delaunay_from_points fuel rand points boundary holes tiny = inr out →
  ∀ tri, tri ∈ out →
    length tri = 3 ∧ ∀ i, i ∈ tri → i < length points.
Proof.
  unfold delaunay_from_points, query.
  destruct (delaunay_run fuel rand points boundary holes tiny empty_mesh)
    as [r mf] eqn:Hrun.
  simpl. intros ->.
  unfold delaunay_run in Hrun.
  apply bind_inr in Hrun as ([[s0 s1] s2] & m1 & Hboot & Hrun).
  apply bootstrap_inr in Hboot as [[= -> -> ->] Hf1].
  rewrite length_jitter in Hf1.
  apply bind_inr in Hrun as (nt & m2 & Hsites & Hrun).
  apply bind_inr in Hrun as ([] & m3 & Hdel & Hrun).
  apply bind_inr in Hrun as ([] & m4 & Hclip & Hrun).
  apply bind_inr in Hrun as ([] & m5 & Hholes & Hrun).
  set (n := length points) in *.
  assert (triangles_below (n + 3) m1) as Hm1.
  { intros f c. rewrite Hf1. simpl.
    rewrite lookup_insert_Some, lookup_empty.
    intros [[_ <-]|[_ ?]]; [|done]. split; [done|].
    intros x Hx.
    repeat (apply elem_of_cons in Hx as [->|Hx]; [lia|]).
    by apply elem_of_nil in Hx. }
  apply (insert_sites_inr (n + 3)) in Hsites;
    [|done|rewrite length_jitter; fold n; lia].
  rewrite length_jitter in Hdel. fold n in Hdel.
  apply forM_cons_inr in Hdel as (m3a & Hd0 & Hdel).
  apply forM_cons_inr in Hdel as (m3b & Hd1 & Hdel).
  apply forM_cons_inr in Hdel as (m3c & Hd2 & [= <-]).
  pose proof (delete_vertex_inr _ _ _ Hd0) as Hs0.
  pose proof (delete_vertex_inr _ _ _ Hd1) as Hs1.
  pose proof (delete_vertex_inr _ _ _ Hd2) as Hs2.
  apply clip_boundary_inr in Hclip as [[_ Hsub4] _].
  apply clip_holes_inr in Hholes as [[_ Hsub5] _].
  unfold emit in Hrun. unfold_monad in Hrun.
  apply mapM_face_vertices in Hrun as [_ Hall].
  intros tri Htri.
  apply list_elem_of_lookup_1 in Htri as [j Hj].
  destruct (Forall2_lookup_r _ _ _ _ _ Hall Hj) as (f & _ & Hf).
  apply Hsub5, Hsub4 in Hf.
  destruct (Hs2 _ _ Hf) as [Hf2 Hn2].
  destruct (Hs1 _ _ Hf2) as [Hf1' Hn1].
  destruct (Hs0 _ _ Hf1') as [Hf0 Hn0].
  destruct (Hsites _ _ Hf0) as [Hlen Hlt].
  split; [done|]. intros i Hi.
  specialize (Hlt i Hi).
  destruct (decide (i = n)) as [->|?]; [done|].
  destruct (decide (i = n + 1)) as [->|?]; [done|].
  destruct (decide (i = n + 2)) as [->|?]; [done|].
  lia.
Qed.

End DelaunayOutput.

Section DelaunayOutputExample.
#[local] Existing Instances float_geometry ascending_order.

(** X13, on the unit square: the two triangles use the indices 0 … 3. *)
Lemma delaunay_triplets_witness :
  delaunay_from_points 100 rand_half square_sites None None 1e-12
    = inr [[1; 0; 2]; [0; 3; 2]] ∧
  ∀ tri, tri ∈ [[1; 0; 2]; [0; 3; 2]] →
    length tri = 3 ∧ ∀ i, i ∈ tri → i < length square_sites.
Proof.
  assert (delaunay_from_points 100 rand_half square_sites None None 1e-12
          = inr [[1; 0; 2]; [0; 3; 2]]) as Hrun
    by (vm_compute; reflexivity).
  split; [exact Hrun|].
  exact (delaunay_triplets 100 rand_half square_sites None None 1e-12
           _ Hrun).
Defined.

End DelaunayOutputExample.

(** *** The meshes that [voronoi_from_delaunay] returns *)

Section VoronoiTopology.
Context `{Geometry} `{IterOrder}.

Lemma move_to_circumcenter_frame delaunay k m m' :
  move_to_circumcenter delaunay k m = (inr tt, m') →
  face m' = face m ∧ halfedge m' = halfedge m ∧
  next_vkey m' = next_vkey m ∧ next_fkey m' = next_fkey m.
Proof.
  unfold move_to_circumcenter. intros (abc & m1 & Habc & Hrest)%bind_inr.
  unfold lift_res in Habc.
  destruct (query (face_coordinates k) delaunay) as [e|abc']; [done|].
  injection Habc as <- <-.
  destruct abc' as [|a [|b [|c [|? ?]]]]; try done.
  apply bind_inr in Hrest as ([[center radius] normal] & m1 & Hc & Hset).
  unfold lift_res in Hc.
  destruct (circle_from_points_xy (xy_of a) (xy_of b) (xy_of c)); [done|].
  injection Hc as -> <-.
  unfold set_vertex_xyz in Hset. unfold_monad in Hset.
  destruct (vertex m !! k); [|done]. by injection Hset as <-.
Qed.

Lemma move_loop_frame delaunay ks m m' :
  forM ks (move_to_circumcenter delaunay) m = (inr tt, m') →
  face m' = face m ∧ halfedge m' = halfedge m ∧
  next_vkey m' = next_vkey m ∧ next_fkey m' = next_fkey m.
Proof.
  revert m. induction ks as [|k ks IH]; intros m.
  - by intros [= <-].
  - intros (m1 & Hk & Hrest)%forM_cons_inr.
    apply move_to_circumcenter_frame in Hk as (Hf & Hh & Hv & Hn).
    destruct (IH _ Hrest) as (Hf' & Hh' & Hv' & Hn').
    repeat split; congruence.
Qed.

(** X14.  [voronoi_from_delaunay] only moves vertices: the mesh it returns
    has the faces, the half-edge directory and the vertex keys of the dual
    that [mesh_dual] builds for the same mesh. *)
Theorem voronoi_keeps_dual_topology delaunay voronoi :
  voronoi_from_delaunay delaunay = inr voronoi →
  ∃ dual,
    mesh_dual delaunay = inr dual ∧
    face voronoi = face dual ∧
    halfedge voronoi = halfedge dual ∧
    dom (vertex voronoi) = dom (vertex dual).
Proof.
  unfold voronoi_from_delaunay.
  destruct (mesh_dual delaunay) as [e|dual]; [done|].
  destruct (forM (vertices dual) (move_to_circumcenter delaunay) dual)
    as [[e|[]] m'] eqn:Hloop; [done|].
  intros [= <-]. exists dual. split; [done|].
  destruct (move_loop_frame _ _ _ _ Hloop) as (Hf & Hh & _).
  destruct (move_loop _ _ _ _ Hloop) as (Hdom & _).
  done.
Qed.

End VoronoiTopology.

Section VoronoiTopologyExample.
#[local] Existing Instances float_geometry ascending_order.

(** X14, on the fan of four triangles. *)
Lemma voronoi_keeps_dual_topology_witness :
  ∃ dual,
    mesh_dual fan_mesh = inr dual ∧
    face fan_voronoi = face dual ∧
    halfedge fan_voronoi = halfedge dual ∧
    dom (vertex fan_voronoi) = dom (vertex dual).
Proof.
  apply (voronoi_keeps_dual_topology fan_mesh fan_voronoi).
  vm_compute. reflexivity.
Defined.

End VoronoiTopologyExample.

(** *** The mesh that [mesh_dual] returns *)

Section DualFacts.
Context `{Geometry} `{IterOrder}.

Lemma dual_tables_loops mesh :
  dual_tables mesh =
    query (let* cs := mapM (λ fkey, let* c := face_centroid fkey in
                                    ret (fkey, c)) (faces mesh) in
           dual_loop mesh (list_to_map cs) (∅, ∅) (inner_vertices mesh)) mesh.
Proof. reflexivity. Qed.


Lemma dual_centroids_inr l m cs m' :
  mapM (λ fkey, let* c := face_centroid fkey in ret (fkey, c)) l m
    = (inr cs, m') →
  ∀ f c, (f, c) ∈ cs ↔ f ∈ l ∧ face_centroid f m = (inr c, m).
Proof.
  revert cs. induction l as [|g l IH]; intros cs; simpl.
  - intros [= <- <-] f c. rewrite elem_of_nil. split; [done|].
    by intros [?%elem_of_nil _].
  - intros (gc & m1 & Hg & Hrest)%bind_inr.
    apply bind_inr in Hg as (c0 & m0 & Hc0 & [= <- <-]).
    assert (m0 = m) as -> by (rewrite face_centroid_run in Hc0; congruence).
    apply bind_inr in Hrest as (cs' & m2 & Hcs & [= <- <-]).
    intros f c. rewrite !elem_of_cons, (IH _ Hcs). split.
    + intros [[= -> ->]|[? ?]]; auto.
    + intros [[->|?] Hc]; [|by auto]. left. congruence.
Qed.

Lemma dual_centroid_lookup m cs m' f c :
  mapM (λ fkey, let* c := face_centroid fkey in ret (fkey, c)) (faces m) m
    = (inr cs, m') →
  (list_to_map cs : gmap key point) !! f = Some c ↔
  face_centroid f m = (inr c, m).
Proof.
  intros Hcs. pose proof (dual_centroids_inr _ _ _ _ Hcs) as Hin. split.
  - intros Hf%elem_of_list_to_map_2. by apply Hin in Hf as [_ ?].
  - intros Hc.
    assert ((f, c) ∈ cs) as Hfc.
    { apply Hin. split; [|done]. apply elem_of_faces.
      rewrite face_centroid_run in Hc. destruct (face m !! f); [eauto|done]. }
    destruct ((list_to_map cs : gmap key point) !! f) as [c'|] eqn:Hl.
    + apply elem_of_list_to_map_2, Hin in Hl as [_ Hc']. congruence.
    + apply not_elem_of_list_to_map in Hl. exfalso. apply Hl.
      apply list_elem_of_fmap. by exists (f, c).
Qed.

Lemma dual_fill_inr fkc vs l m vs' m' :
  dual_fill fkc vs l m = (inr vs', m') →
  m' = m ∧
  ∀ f c, vs' !! f = Some c ↔
    vs !! f = Some c ∨ (vs !! f = None ∧ fkc !! f = Some c ∧ f ∈ l).
Proof.
  revert vs. induction l as [|g l IH]; intros vs; simpl.
  - intros [= <- <-]. split; [done|]. intros f c. split; [auto|].
    intros [?|(_ & _ & ?%elem_of_nil)]; done.
  - destruct (vs !! g) as [cg|] eqn:Hg.
    + intros [-> Hvs]%IH. split; [done|]. intros f c. rewrite Hvs.
      rewrite elem_of_cons. split; [intros [?|(? & ? & ?)]; auto|].
      intros [?|(Hn & ? & [->|?])]; [auto|congruence|auto].
    + intros (c0 & m0 & Hc0 & Hrest)%bind_inr.
      unfold lift_opt in Hc0.
      destruct (fkc !! g) as [c0'|] eqn:Hfg; [|done].
      injection Hc0 as -> <-.
      apply IH in Hrest as [-> Hvs]. split; [done|].
      intros f c. rewrite Hvs, elem_of_cons.
      destruct (decide (f = g)) as [->|Hne].
      * rewrite lookup_insert_eq, Hg. split.
        -- intros [[= <-]|(? & _)]; [|done]. right. auto.
        -- intros [?|(_ & ? & _)]; [done|]. left. congruence.
      * rewrite lookup_insert_ne by done. split.
        -- intros [?|(? & ? & ?)]; auto.
        -- intros [?|(? & ? & [?|?])]; [auto|done|auto].
Qed.

Lemma dual_loop_nil mesh fkc acc : dual_loop mesh fkc acc [] = ret acc.
Proof. reflexivity. Qed.

Lemma dual_loop_cons mesh fkc acc k l :
  dual_loop mesh fkc acc (k :: l) =
    (let* acc' :=
       (let* vs := dual_fill fkc acc.1 (vertex_faces mesh k) in
        ret (vs, <[k := vertex_faces mesh k]> acc.2)) in
     dual_loop mesh fkc acc' l).
Proof. reflexivity. Qed.

Lemma dual_loop_inr mesh fkc acc l m acc' m' :
  dual_loop mesh fkc acc l m = (inr acc', m') →
  (∀ k, acc'.2 !! k =
          if decide (k ∈ l) then Some (vertex_faces mesh k) else acc.2 !! k) ∧
  (∀ f c, acc'.1 !! f = Some c ↔
     acc.1 !! f = Some c ∨
     (acc.1 !! f = None ∧ fkc !! f = Some c ∧
      ∃ k, k ∈ l ∧ f ∈ vertex_faces mesh k)).
Proof.
  revert acc m. induction l as [|k l IH]; intros acc m.
  - rewrite dual_loop_nil. intros [= <- <-]. split.
    + intros k. by rewrite decide_False by apply not_elem_of_nil.
    + intros f c. split; [auto|].
      intros [?|(_ & _ & k & ?%elem_of_nil & _)]; done.
  - rewrite dual_loop_cons.
    intros (acc1 & m1 & Hstep & Hrest)%bind_inr.
    apply bind_inr in Hstep as (vs & m0 & Hfill & [= <- <-]).
    apply dual_fill_inr in Hfill as [-> Hvs].
    destruct (IH _ _ Hrest) as [Hfs Hvs']. simpl in Hfs, Hvs'. split.
    + intros k'. rewrite Hfs.
      destruct (decide (k' ∈ l)) as [Hin|Hin].
      * by rewrite decide_True by (by right).
      * destruct (decide (k' = k)) as [->|Hne].
        -- rewrite lookup_insert_eq. by rewrite decide_True by left.
        -- rewrite lookup_insert_ne by done.
           rewrite decide_False; [done|].
           by intros [?|?]%elem_of_cons.
    + intros f c. rewrite Hvs'. split.
      * intros [Hf|(Hn & Hfkc & k' & Hk' & Hin)].
        -- apply Hvs in Hf as [?|(? & ? & ?)]; [auto|].
           right. split; [done|]. split; [done|]. exists k. split; [left|done].
        -- right. split.
           { destruct (acc.1 !! f) as [c'|] eqn:Hacc; [|done].
             assert (vs !! f = Some c') as Hbad by (apply Hvs; auto).
             congruence. }
           split; [done|]. exists k'. split; [by right|done].
      * intros [Hf|(Hn & Hfkc & k' & [->|Hk']%elem_of_cons & Hin)].
        -- left. apply Hvs. auto.
        -- left. apply Hvs. auto.
        -- destruct (vs !! f) as [c'|] eqn:Hvsf.
           ++ left. apply Hvs in Hvsf as [?|(_ & ? & _)]; congruence.
           ++ right. split; [done|]. split; [done|]. eauto.
Qed.

Lemma elem_of_inner_vertices mesh k :
  k ∈ inner_vertices mesh ↔
  k ∈ vertices mesh ∧ k ∉ vertices_on_boundary mesh.
Proof.
  unfold inner_vertices.
  by rewrite elem_of_iter_keys, elem_of_difference, !elem_of_list_to_set.
Qed.

(** The two dictionaries of [mesh_dual]: a cell for every inner vertex,
    and a centroid for every face around an inner vertex. *)
Lemma dual_tables_inr mesh vs fs :
  dual_tables mesh = inr (vs, fs) →
  (∀ k, fs !! k =
          if decide (k ∈ vertices mesh ∧ (k ∉ vertices_on_boundary mesh))
          then Some (vertex_faces mesh k) else None) ∧
  (∀ f c, vs !! f = Some c ↔
     face_centroid f mesh = (inr c, mesh) ∧
     ∃ k, k ∈ vertices mesh ∧ (k ∉ vertices_on_boundary mesh) ∧
          f ∈ vertex_faces mesh k).
Proof.
  rewrite dual_tables_loops. unfold query.
  destruct (bind _ _ mesh) as [r m'] eqn:Hrun. simpl. intros ->.
  apply bind_inr in Hrun as (cs & m1 & Hcs & Hloop).
  pose proof (λ f c, dual_centroid_lookup _ _ _ f c Hcs) as Hfkc.
  apply dual_loop_inr in Hloop as [Hfs Hvs]. simpl in Hfs, Hvs. split.
  - intros k. rewrite Hfs, lookup_empty.
    destruct (decide (k ∈ inner_vertices mesh)) as [Hin|Hin];
      rewrite elem_of_inner_vertices in Hin.
    + by rewrite decide_True.
    + by rewrite decide_False.
  - intros f c. rewrite Hvs, lookup_empty. rewrite (Hfkc f c). split.
    + intros [?|(_ & Hc & k & Hk%elem_of_inner_vertices & Hin)]; [done|].
      split; [done|]. exists k. tauto.
    + intros (Hc & k & Hk1 & Hk2 & Hin). right. split; [done|].
      split; [done|]. exists k. split; [|done].
      by apply elem_of_inner_vertices.
Qed.


Lemma dual_add_vertices (vs : gmap key point) ks m m' :
  forM ks (λ k,
    let* xyz := lift_opt KeyError (vs !! k) in
    add_vertex (Some k) xyz ;;; ret tt) m = (inr tt, m') →
  face m' = face m ∧
  ∀ k, vertex m' !! k = if decide (k ∈ ks) then vs !! k else vertex m !! k.
Proof.
  revert m. induction ks as [|k0 ks IH]; intros m.
  - intros [= <-]. split; [done|]. intros k.
    by rewrite decide_False by apply not_elem_of_nil.
  - intros (m1 & Hk0 & Hrest)%forM_cons_inr.
    apply bind_inr in Hk0 as (xyz & m0 & Hxyz & Hadd).
    unfold lift_opt in Hxyz.
    destruct (vs !! k0) as [xyz'|] eqn:Hvs; [|done].
    injection Hxyz as -> <-.
    unfold add_vertex in Hadd. unfold_monad in Hadd.
    injection Hadd as <-.
    destruct (IH _ Hrest) as [Hf Hv]. simpl in Hf, Hv.
    split; [done|]. intros k. rewrite Hv.
    destruct (decide (k ∈ ks)) as [Hin|Hin].
    + by rewrite decide_True by (by right).
    + destruct (decide (k = k0)) as [->|Hne].
      * rewrite lookup_insert_eq. by rewrite decide_True by left.
      * rewrite lookup_insert_ne by done.
        rewrite decide_False; [done|]. by intros [?|?]%elem_of_cons.
Qed.

Lemma dual_add_faces (fs : gmap key (list key)) ks m m' :
  forM ks (λ fkey,
    let* c := lift_opt KeyError (fs !! fkey) in
    add_face c (Some fkey) ;;; ret tt) m = (inr tt, m') →
  vertex m' = vertex m ∧
  ∀ k, face m' !! k = if decide (k ∈ ks) then fs !! k else face m !! k.
Proof.
  revert m. induction ks as [|k0 ks IH]; intros m.
  - intros [= <-]. split; [done|]. intros k.
    by rewrite decide_False by apply not_elem_of_nil.
  - intros (m1 & Hk0 & Hrest)%forM_cons_inr.
    apply bind_inr in Hk0 as (c & m0 & Hc & Hadd).
    unfold lift_opt in Hc.
    destruct (fs !! k0) as [c'|] eqn:Hfs; [|done].
    injection Hc as -> <-.
    unfold add_face in Hadd. unfold_monad in Hadd.
    injection Hadd as <-.
    destruct (IH _ Hrest) as [Hv Hf]. simpl in Hf, Hv.
    split; [done|]. intros k. rewrite Hf.
    destruct (decide (k ∈ ks)) as [Hin|Hin].
    + by rewrite decide_True by (by right).
    + destruct (decide (k = k0)) as [->|Hne].
      * rewrite lookup_insert_eq. by rewrite decide_True by left.
      * rewrite lookup_insert_ne by done.
        rewrite decide_False; [done|]. by intros [?|?]%elem_of_cons.
Qed.

(** The dual mesh holds the two dictionaries. *)
Lemma mesh_dual_inr mesh dual :
  mesh_dual mesh = inr dual →
  ∃ vs fs, dual_tables mesh = inr (vs, fs) ∧
           vertex dual = vs ∧ face dual = fs.
Proof.
  unfold mesh_dual.
  destruct (dual_tables mesh) as [e|[vs fs]]; [done|].
  destruct (bind _ _ empty_mesh) as [[e|[]] d] eqn:Hbuild; [done|].
  intros [= <-]. exists vs, fs. split; [done|].
  apply bind_inr in Hbuild as ([] & m1 & Hvs & Hfs).
  apply dual_add_vertices in Hvs as [Hf1 Hv1].
  apply dual_add_faces in Hfs as [Hv2 Hf2].
  split; apply map_eq; intros k.
  - rewrite Hv2, Hv1. simpl. rewrite lookup_empty.
    destruct (decide (k ∈ iter_keys (dom vs))) as [Hin|Hin]; [done|].
    rewrite elem_of_iter_keys, elem_of_dom in Hin.
    symmetry. by apply eq_None_not_Some.
  - rewrite Hf2, Hf1. simpl. rewrite lookup_empty.
    destruct (decide (k ∈ iter_keys (dom fs))) as [Hin|Hin]; [done|].
    rewrite elem_of_iter_keys, elem_of_dom in Hin.
    symmetry. by apply eq_None_not_Some.
Qed.

(** X15.  The faces of the dual are the cells of the inner vertices: the
    mesh that [mesh_dual] returns has a face [k] exactly for the vertices
    [k] of the mesh that are not on its boundary, and the cycle of that
    face is the list of the faces around [k]. *)
Theorem mesh_dual_faces mesh dual :
  mesh_dual mesh = inr dual →
  ∀ k c, face dual !! k = Some c ↔
    k ∈ vertices mesh ∧ (k ∉ vertices_on_boundary mesh) ∧
    c = vertex_faces mesh k.
Proof.
  intros (vs & fs & Htab & _ & <-)%mesh_dual_inr k c.
  apply dual_tables_inr in Htab as [Hfs _]. rewrite Hfs.
  destruct (decide _) as [[? ?]|Hno].
  - split; [by intros [= <-]|]. by intros (_ & _ & ->).
  - split; [done|]. intros (? & ? & _). tauto.
Qed.

(** X16.  The vertices of the dual are the centroids of the faces around
    the inner vertices: the mesh that [mesh_dual] returns has a vertex [f]
    at [xyz] exactly when [f] is a face around a vertex of the mesh that
    is not on its boundary, and [xyz] is the centroid of face [f]. *)
Theorem mesh_dual_vertices mesh dual :
  mesh_dual mesh = inr dual →
  ∀ f xyz, vertex dual !! f = Some xyz ↔
    face_centroid f mesh = (inr xyz, mesh) ∧
    ∃ k, k ∈ vertices mesh ∧ (k ∉ vertices_on_boundary mesh) ∧
         f ∈ vertex_faces mesh k.
Proof.
  intros (vs & fs & Htab & <- & _)%mesh_dual_inr f xyz.
  apply dual_tables_inr in Htab as [_ Hvs]. apply Hvs.
Qed.

End DualFacts.

Section DualFactsExample.
#[local] Existing Instances float_geometry ascending_order.

(** X15, on the fan of four triangles around vertex 4. *)
Lemma mesh_dual_faces_witness :
  mesh_dual fan_mesh = inr fan_dual ∧
  ∀ k c, face fan_dual !! k = Some c ↔
    k ∈ vertices fan_mesh ∧ (k ∉ vertices_on_boundary fan_mesh) ∧
    c = vertex_faces fan_mesh k.
Proof.
  assert (mesh_dual fan_mesh = inr fan_dual) as Hrun
    by (vm_compute; reflexivity).
  split; [exact Hrun|].
  exact (mesh_dual_faces fan_mesh fan_dual Hrun).
Defined.

(** X16, on the fan of four triangles around vertex 4. *)
Lemma mesh_dual_vertices_witness :
  mesh_dual fan_mesh = inr fan_dual ∧
  ∀ f xyz, vertex fan_dual !! f = Some xyz ↔
    face_centroid f fan_mesh = (inr xyz, fan_mesh) ∧
    ∃ k, k ∈ vertices fan_mesh ∧ (k ∉ vertices_on_boundary fan_mesh) ∧
         f ∈ vertex_faces fan_mesh k.
Proof.
  assert (mesh_dual fan_mesh = inr fan_dual) as Hrun
    by (vm_compute; reflexivity).
  split; [exact Hrun|].
  exact (mesh_dual_vertices fan_mesh fan_dual Hrun).
Defined.

End DualFactsExample.

(** * Facts about [trimesh_split_edge] *)

(** *** Single steps, read at the directory *)

Lemma cycle_pairs_3 (x y z : key) :
  cycle_pairs [x; y; z] = [(x, y); (y, z); (z, x)].
Proof. reflexivity. Qed.

(** [install_edge] over the edges of a face, at an entry that is not one
    of them: an entry that is there stays, and a missing twin is made. *)
Lemma dir_entry_install_other f ps h a b :
  (a, b) ∉ ps →
  dir_entry (foldl (install_edge f) h ps) a b =
    match dir_entry h a b with
    | Some x => Some x
    | None => if decide ((b, a) ∈ ps) then Some None else None
    end.
Proof.
  intros Hab. rewrite dir_entry_install_all, decide_False by done.
  destruct (decide ((b, a) ∈ ps)); by destruct (dir_entry h a b).
Qed.

Lemma add_vertex_step xyz m :
  vertex m !! next_vkey m = None →
  halfedge m !! next_vkey m = None →
  ∃ m',
    add_vertex None xyz m = (inr (next_vkey m), m') ∧
    vertex m' = <[next_vkey m := xyz]> (vertex m) ∧
    face m' = face m ∧
    (∀ a b, he m' a b = he m a b) ∧
    (∀ x, is_Some (halfedge m' !! x) ↔
          x = next_vkey m ∨ is_Some (halfedge m !! x)) ∧
    next_vkey m' = S (next_vkey m) ∧ next_fkey m' = next_fkey m.
Proof.
  intros Hv Hrow. unfold add_vertex. unfold_monad. simpl. rewrite Hv.
  eexists. split; [reflexivity|]. simpl.
  split; [done|]. split; [done|]. split; [|split; [|split; [lia|done]]].
  - intros a b. unfold he. simpl.
    destruct (decide (a = next_vkey m)) as [->|Hne].
    + by rewrite lookup_insert_eq, Hrow.
    + by rewrite lookup_insert_ne.
  - intros x. destruct (decide (x = next_vkey m)) as [->|Hne].
    + rewrite lookup_insert_eq. split; eauto.
    + rewrite lookup_insert_ne by done. split; [auto|]. by intros [?|?].
Qed.

Lemma add_face_step c m :
  ∃ m',
    add_face c None m = (inr (next_fkey m), m') ∧
    vertex m' = vertex m ∧
    face m' = <[next_fkey m := c]> (face m) ∧
    (∀ a b, he m' a b = face_entry (next_fkey m) c (he m) a b) ∧
    (∀ x, is_Some (halfedge m' !! x) → is_Some (halfedge m !! x) ∨ x ∈ c) ∧
    next_vkey m' = next_vkey m ∧ next_fkey m' = S (next_fkey m).
Proof.
  unfold add_face. unfold_monad. simpl.
  eexists. split; [reflexivity|]. simpl.
  split; [done|]. split; [done|]. split; [|split; [|split; [done|lia]]].
  - intros a b. unfold face_entry.
    change (he ?m' a b) with (dir_entry (halfedge m') a b).
    simpl. destruct (decide ((a, b) ∈ cycle_pairs c)) as [Hin|Hin].
    + by rewrite dir_entry_install_all, decide_True.
    + by rewrite dir_entry_install_other.
  - intros x [Hx|(y & [Hy|Hy])]%install_all_rows; [by left| |]; right.
    + by eapply elem_of_cycle_pairs_l.
    + by eapply elem_of_cycle_pairs_r.
Qed.

Lemma del_halfedge_step u v x m :
  he m u v = Some x →
  ∃ m',
    del_halfedge u v m = (inr tt, m') ∧
    vertex m' = vertex m ∧ face m' = face m ∧
    (∀ a b, he m' a b = removed_entry u v (he m) a b) ∧
    (∀ y, is_Some (halfedge m' !! y) ↔ is_Some (halfedge m !! y)) ∧
    next_vkey m' = next_vkey m ∧ next_fkey m' = next_fkey m.
Proof.
  intros (row & Hrow & Hx)%he_Some.
  unfold del_halfedge. unfold_monad. rewrite Hrow, Hx.
  eexists. split; [reflexivity|]. unfold with_halfedge. simpl.
  split; [done|]. split; [done|]. split; [|split; [|done]].
  - intros a b. unfold removed_entry, he. simpl.
    destruct (decide (a = u)) as [->|Ha].
    + rewrite lookup_insert_eq, Hrow. simpl.
      destruct (decide (b = v)) as [->|Hb].
      * rewrite lookup_delete_eq. by rewrite decide_True.
      * rewrite lookup_delete_ne by done.
        by rewrite decide_False by congruence.
    + rewrite lookup_insert_ne by done.
      by rewrite decide_False by congruence.
  - intros y. destruct (decide (y = u)) as [->|Hy].
    + rewrite lookup_insert_eq, Hrow. split; eauto.
    + by rewrite lookup_insert_ne.
Qed.

Lemma del_face_step f c m :
  face m !! f = Some c →
  ∃ m',
    del_face f m = (inr tt, m') ∧
    vertex m' = vertex m ∧ face m' = delete f (face m) ∧
    halfedge m' = halfedge m ∧
    next_vkey m' = next_vkey m ∧ next_fkey m' = next_fkey m.
Proof.
  intros Hc. unfold del_face. unfold_monad. rewrite Hc.
  eexists. split; [reflexivity|]. done.
Qed.

(** *** Triangles *)

(** In a triangle with the directed edge [(u → v)], the vertex that
    [face[face.index(u) - 1]] picks is the third one. *)
Lemma triangle_pred c u v :
  length c = 3 → NoDup c → (u, v) ∈ cycle_pairs c →
  ∃ i o,
    index u c = Some i ∧ py_getitem c (Z.of_nat i - 1) = Some o ∧
    o ≠ u ∧ o ≠ v ∧ u ≠ v ∧
    (∀ x, x ∈ c ↔ x = u ∨ x = v ∨ x = o) ∧
    (∀ a b, (a, b) ∈ cycle_pairs c ↔
            (a, b) = (u, v) ∨ (a, b) = (v, o) ∨ (a, b) = (o, u)).
Proof.
  intros Hlen Hnd Hin.
  destruct c as [|x [|y [|z [|? ?]]]]; try done.
  apply NoDup_cons in Hnd as [Hx Hnd].
  apply NoDup_cons in Hnd as [Hy _].
  assert (x ≠ y ∧ x ≠ z ∧ y ≠ z) as (Hxy & Hxz & Hyz).
  { rewrite !elem_of_cons, elem_of_nil in Hx.
    rewrite elem_of_cons, elem_of_nil in Hy. tauto. }
  rewrite cycle_pairs_3 in Hin.
  repeat (rewrite elem_of_cons in Hin). rewrite elem_of_nil in Hin.
  destruct Hin as [[= -> ->]|[[= -> ->]|[[= -> ->]|[]]]].
  - exists 0, z. split.
    { simpl. by rewrite decide_True. }
    split; [reflexivity|]. repeat split; try congruence.
    + repeat (rewrite elem_of_cons). rewrite elem_of_nil. tauto.
    + repeat (rewrite elem_of_cons). rewrite elem_of_nil. tauto.
    + rewrite cycle_pairs_3.
      repeat (rewrite elem_of_cons). rewrite elem_of_nil. tauto.
    + rewrite cycle_pairs_3.
      repeat (rewrite elem_of_cons). rewrite elem_of_nil. tauto.
  - exists 1, x. split.
    { simpl. rewrite decide_False by congruence. by rewrite decide_True. }
    split; [reflexivity|]. repeat split; try congruence.
    + repeat (rewrite elem_of_cons). rewrite elem_of_nil. tauto.
    + repeat (rewrite elem_of_cons). rewrite elem_of_nil. tauto.
    + rewrite cycle_pairs_3.
      repeat (rewrite elem_of_cons). rewrite elem_of_nil. tauto.
    + rewrite cycle_pairs_3.
      repeat (rewrite elem_of_cons). rewrite elem_of_nil. tauto.
  - exists 2, y. split.
    { simpl. rewrite decide_False by congruence.
      rewrite decide_False by congruence. by rewrite decide_True. }
    split; [reflexivity|]. repeat split; try congruence.
    + repeat (rewrite elem_of_cons). rewrite elem_of_nil. tauto.
    + repeat (rewrite elem_of_cons). rewrite elem_of_nil. tauto.
    + rewrite cycle_pairs_3.
      repeat (rewrite elem_of_cons). rewrite elem_of_nil. tauto.
    + rewrite cycle_pairs_3.
      repeat (rewrite elem_of_cons). rewrite elem_of_nil. tauto.
Qed.

Lemma face_entry_ext f c old old' a b :
  (∀ x y, old x y = old' x y) →
  face_entry f c old a b = face_entry f c old' a b.
Proof. intros Hext. unfold face_entry. by rewrite Hext. Qed.

Lemma removed_entry_ext u v old old' a b :
  (∀ x y, old x y = old' x y) →
  removed_entry u v old a b = removed_entry u v old' a b.
Proof. intros Hext. unfold removed_entry. by rewrite Hext. Qed.

(** *** The side of a face *)

Lemma halfedge_at_run m u v x :
  he m u v = Some x → halfedge_at u v m = (inr x, m).
Proof. intros Hx. unfold halfedge_at. unfold_monad. by rewrite Hx. Qed.

Lemma edge_point_run m u v t a b :
  vertex m !! u = Some a → vertex m !! v = Some b →
  edge_point u v t m = (inr (lerp a b t), m).
Proof.
  intros Ha Hb. unfold edge_point, vertex_at. unfold_monad.
  rewrite Ha. unfold_monad. by rewrite Hb.
Qed.

(** The block 'the UV face' of [trimesh_split_edge] when the side is a
    face: two triangles replace it. *)
Lemma trimesh_face_side m u v w f c i o x :
  face m !! f = Some c → f < next_fkey m →
  index u c = Some i → py_getitem c (Z.of_nat i - 1) = Some o →
  he m u v = Some x → u ≠ v → w ≠ u → w ≠ v →
  ∃ m',
    (let* c := face_at f in
     let* i := lift_opt (ValueError "not in list") (index u c) in
     let* o := lift_opt IndexError (py_getitem c (Z.of_nat i - 1)) in
     add_face [u; w; o] None ;;;
     add_face [w; v; o] None ;;;
     del_halfedge u v ;;;
     del_face f) m = (inr tt, m') ∧
    vertex m' = vertex m ∧
    face m' = delete f (<[S (next_fkey m) := [w; v; o]]>
                          (<[next_fkey m := [u; w; o]]> (face m))) ∧
    (∀ a b, he m' a b =
       removed_entry u v
         (face_entry (S (next_fkey m)) [w; v; o]
            (face_entry (next_fkey m) [u; w; o] (he m))) a b) ∧
    (∀ y, is_Some (halfedge m' !! y) →
          is_Some (halfedge m !! y) ∨ y ∈ [u; v; w; o]) ∧
    next_vkey m' = next_vkey m ∧ next_fkey m' = S (S (next_fkey m)).
Proof.
  intros Hc Hlt Hi Ho Hx Huv Hwu Hwv.
  rewrite (bind_run _ _ m c m) by (by apply face_at_run).
  rewrite Hi. rewrite (bind_run _ _ m i m) by reflexivity.
  rewrite Ho. rewrite (bind_run _ _ m o m) by reflexivity.
  destruct (add_face_step [u; w; o] m)
    as (m1 & Hrun1 & Hv1 & Hf1 & Hh1 & Hr1 & Hnv1 & Hnf1).
  rewrite (bind_run _ _ m _ m1 Hrun1).
  destruct (add_face_step [w; v; o] m1)
    as (m2 & Hrun2 & Hv2 & Hf2 & Hh2 & Hr2 & Hnv2 & Hnf2).
  rewrite (bind_run _ _ m1 _ m2 Hrun2).
  assert (is_Some (he m2 u v)) as [x2 Hx2].
  { rewrite Hh2. unfold face_entry. rewrite Hh1. unfold face_entry.
    rewrite Hx.
    rewrite !cycle_pairs_3.
    rewrite (decide_False (P := (u, v) ∈ [(w, v); (v, o); (o, w)])).
    2:{ rewrite !elem_of_cons, elem_of_nil.
        intros [?|[?|[?|[]]]]; congruence. }
    destruct (decide ((u, v) ∈ [(u, w); (w, o); (o, u)])); eauto. }
  destruct (del_halfedge_step u v x2 m2 Hx2)
    as (m3 & Hrun3 & Hv3 & Hf3 & Hh3 & Hr3 & Hnv3 & Hnf3).
  rewrite (bind_run _ _ m2 _ m3 Hrun3).
  assert (face m3 !! f = Some c) as Hc3.
  { rewrite Hf3, Hf2, Hf1, Hnf1. by rewrite !lookup_insert_ne by lia. }
  destruct (del_face_step f c m3 Hc3)
    as (m4 & Hrun4 & Hv4 & Hf4 & Hh4 & Hnv4 & Hnf4).
  exists m4. split; [done|].
  split; [congruence|]. split.
  { rewrite Hf4, Hf3, Hf2, Hf1, Hnf1. done. }
  split.
  { intros a b. unfold he at 1. rewrite Hh4.
    change (he m3 a b = removed_entry u v
              (face_entry (S (next_fkey m)) [w; v; o]
                 (face_entry (next_fkey m) [u; w; o] (he m))) a b).
    rewrite Hh3. unfold removed_entry.
    destruct (decide ((a, b) = (u, v))); [done|].
    rewrite Hh2, Hnf1. apply face_entry_ext. apply Hh1. }
  split; [|split; congruence].
  intros y. rewrite Hh4. intros Hy%Hr3%Hr2.
  destruct Hy as [Hy%Hr1|Hy].
  - destruct Hy as [?|Hy]; [by left|]. right.
    revert Hy. rewrite !elem_of_cons, !elem_of_nil. tauto.
  - right. revert Hy. rewrite !elem_of_cons, !elem_of_nil. tauto.
Qed.

Lemma face_entry_is_Some f c old a b :
  is_Some (old a b) → is_Some (face_entry f c old a b).
Proof.
  intros [x Hx]. unfold face_entry. rewrite Hx.
  destruct (decide ((a, b) ∈ cycle_pairs c)); eauto.
Qed.

(** *** An edge between two faces *)

(** The run of [trimesh_split_edge] on an edge with a face on each side. *)
Lemma trimesh_split_edge_run m u v t allow_boundary f1 f2 c1 c2 i1 i2 o1 o2 a b :
  (t <=? 0)%float = false → (1 <=? t)%float = false →
  he m u v = Some (Some f1) → he m v u = Some (Some f2) →
  f1 ≠ f2 → u ≠ v →
  vertex m !! u = Some a → vertex m !! v = Some b →
  vertex m !! next_vkey m = None → halfedge m !! next_vkey m = None →
  face m !! f1 = Some c1 → face m !! f2 = Some c2 →
  f1 < next_fkey m → f2 < next_fkey m →
  index u c1 = Some i1 → py_getitem c1 (Z.of_nat i1 - 1) = Some o1 →
  index v c2 = Some i2 → py_getitem c2 (Z.of_nat i2 - 1) = Some o2 →
  ∃ m',
    trimesh_split_edge u v t allow_boundary m
      = (inr (Some (next_vkey m)), m') ∧
    vertex m' = <[next_vkey m := lerp a b t]> (vertex m) ∧
    face m' =
      delete f2
        (<[S (S (S (next_fkey m))) := [next_vkey m; u; o2]]>
           (<[S (S (next_fkey m)) := [v; next_vkey m; o2]]>
              (delete f1
                 (<[S (next_fkey m) := [next_vkey m; v; o1]]>
                    (<[next_fkey m := [u; next_vkey m; o1]]> (face m)))))) ∧
    (∀ x y, he m' x y =
       removed_entry v u
         (face_entry (S (S (S (next_fkey m)))) [next_vkey m; u; o2]
            (face_entry (S (S (next_fkey m))) [v; next_vkey m; o2]
               (removed_entry u v
                  (face_entry (S (next_fkey m)) [next_vkey m; v; o1]
                     (face_entry (next_fkey m) [u; next_vkey m; o1]
                        (he m)))))) x y) ∧
    (∀ y, is_Some (halfedge m' !! y) →
          is_Some (halfedge m !! y) ∨ y ∈ [u; v; next_vkey m; o1; o2]) ∧
    next_vkey m' = S (next_vkey m) ∧
    next_fkey m' = S (S (S (S (next_fkey m)))).
Proof.
  intros Ht0 Ht1 Huv Hvu Hf12 Hne Ha Hb Hw Hwrow Hc1 Hc2 Hlt1 Hlt2
    Hi1 Ho1 Hi2 Ho2.
  assert (next_vkey m ≠ u) as Hwu by congruence.
  assert (next_vkey m ≠ v) as Hwv by congruence.
  unfold trimesh_split_edge. rewrite Ht0, Ht1.
  rewrite (bind_run _ _ m (Some f1) m) by (by apply halfedge_at_run).
  rewrite (bind_run _ _ m (Some f2) m) by (by apply halfedge_at_run).
  rewrite !bool_decide_eq_false_2 by done. rewrite andb_false_r.
  rewrite (bind_run _ _ m (lerp a b t) m) by (by apply edge_point_run).
  destruct (add_vertex_step (lerp a b t) m Hw Hwrow)
    as (m0 & Hrun0 & Hv0 & Hf0 & Hh0 & Hr0 & Hnv0 & Hnf0).
  rewrite (bind_run _ _ m _ m0 Hrun0).
  destruct (trimesh_face_side m0 u v (next_vkey m) f1 c1 i1 o1 (Some f1))
    as (m1 & Hrun1 & Hv1 & Hf1 & Hh1 & Hr1 & Hnv1 & Hnf1);
    [congruence|lia|done|done|by rewrite Hh0|done..|].
  rewrite (bind_run _ _ m0 _ m1 Hrun1).
  assert (is_Some (he m1 v u)) as [x1 Hx1].
  { rewrite Hh1. unfold removed_entry.
    rewrite decide_False by congruence.
    do 2 apply face_entry_is_Some. rewrite Hh0. eauto. }
  destruct (trimesh_face_side m1 v u (next_vkey m) f2 c2 i2 o2 x1)
    as (m2 & Hrun2 & Hv2 & Hf2 & Hh2 & Hr2 & Hnv2 & Hnf2);
    [|lia|done|done|done|done..|].
  { rewrite Hf1, Hf0, Hnf0. rewrite lookup_delete_ne by done.
    by rewrite !lookup_insert_ne by lia. }
  rewrite (bind_run _ _ m1 _ m2 Hrun2).
  exists m2. split; [done|].
  split; [congruence|]. split.
  { rewrite Hf2, Hnf1, Hf1, Hnf0, Hf0. done. }
  split.
  { intros x y. rewrite Hh2, Hnf1, Hnf0.
    apply removed_entry_ext. intros x' y'.
    apply face_entry_ext. intros x'' y''.
    apply face_entry_ext. intros x3 y3.
    rewrite Hh1, Hnf0.
    apply removed_entry_ext. intros x4 y4.
    apply face_entry_ext. intros x5 y5.
    apply face_entry_ext. apply Hh0. }
  split; [|split; [congruence|lia]].
  intros y Hy%Hr2.
  repeat (rewrite elem_of_cons). rewrite elem_of_nil.
  destruct Hy as [Hy%Hr1|Hy].
  - destruct Hy as [Hy%Hr0|Hy].
    + destruct Hy as [->|?]; tauto.
    + revert Hy. repeat (rewrite elem_of_cons). rewrite elem_of_nil. tauto.
  - revert Hy. repeat (rewrite elem_of_cons). rewrite elem_of_nil. tauto.
Qed.

Ltac solve_decide_true :=
  solve [ reflexivity | repeat constructor
        | left; reflexivity | right; reflexivity ].

Ltac solve_decide_false :=
  match goal with
  | |- ¬ (_ ∨ _) => intros [?|?]; congruence
  | |- ¬ (_ ∈ _) =>
      let H := fresh in
      intros H; repeat (apply elem_of_cons in H as [H|H]);
      first [congruence | by apply elem_of_nil in H]
  | |- _ => congruence
  end.

Ltac decide_step :=
  first [ rewrite decide_True by solve_decide_true
        | rewrite decide_False by solve_decide_false ].

(** The directory after both sides were replaced, entry by entry. *)
Lemma trisplit_he_eq m u v w o1 o2 n x y :
  u ≠ v → o1 ≠ u → o1 ≠ v → o2 ≠ u → o2 ≠ v → o1 ≠ o2 →
  w ≠ u → w ≠ v → w ≠ o1 → w ≠ o2 →
  (∀ a b, is_Some (he m a b) → a ≠ w ∧ b ≠ w) →
  is_Some (he m u o1) → is_Some (he m o1 v) →
  is_Some (he m v o2) → is_Some (he m o2 u) →
  removed_entry v u
    (face_entry (S (S (S n))) [w; u; o2]
       (face_entry (S (S n)) [v; w; o2]
          (removed_entry u v
             (face_entry (S n) [w; v; o1]
                (face_entry n [u; w; o1] (he m)))))) x y
  = trisplit_he m u v w o1 o2 n x y.
Proof.
  intros Huv H1u H1v H2u H2v H12 Hwu Hwv Hw1 Hw2 Hfresh
    [z1 Hz1] [z2 Hz2] [z3 Hz3] [z4 Hz4].
  unfold removed_entry, face_entry, trisplit_he. rewrite !cycle_pairs_3.
  destruct (decide ((x, y) = (v, u))) as [[= -> ->]|N1];
    [by repeat decide_step|].
  destruct (decide ((x, y) = (u, v))) as [[= -> ->]|N2];
    [by repeat decide_step|].
  destruct (decide ((x, y) = (w, u))) as [[= -> ->]|N3];
    [by repeat decide_step|].
  destruct (decide ((x, y) = (u, o2))) as [[= -> ->]|N4];
    [by repeat decide_step|].
  destruct (decide ((x, y) = (o2, w))) as [[= -> ->]|N5];
    [by repeat decide_step|].
  destruct (decide ((x, y) = (v, w))) as [[= -> ->]|N6];
    [by repeat decide_step|].
  destruct (decide ((x, y) = (w, o2))) as [[= -> ->]|N7];
    [by repeat decide_step|].
  destruct (decide ((x, y) = (o2, v))) as [[= -> ->]|N8];
    [by repeat decide_step|].
  destruct (decide ((x, y) = (w, v))) as [[= -> ->]|N9];
    [by repeat decide_step|].
  destruct (decide ((x, y) = (v, o1))) as [[= -> ->]|N10];
    [by repeat decide_step|].
  destruct (decide ((x, y) = (o1, w))) as [[= -> ->]|N11];
    [by repeat decide_step|].
  destruct (decide ((x, y) = (u, w))) as [[= -> ->]|N12];
    [by repeat decide_step|].
  destruct (decide ((x, y) = (w, o1))) as [[= -> ->]|N13];
    [by repeat decide_step|].
  destruct (decide ((x, y) = (o1, u))) as [[= -> ->]|N14];
    [by repeat decide_step|].
  destruct (he m x y) as [z|] eqn:E.
  - rewrite !(decide_False (P := (x, y) ∈ [(w, u); (u, o2); (o2, w)]))
      by solve_decide_false.
    rewrite !(decide_False (P := (x, y) ∈ [(v, w); (w, o2); (o2, v)]))
      by solve_decide_false.
    rewrite !(decide_False (P := (x, y) ∈ [(w, v); (v, o1); (o1, w)]))
      by solve_decide_false.
    rewrite !(decide_False (P := (x, y) ∈ [(u, w); (w, o1); (o1, u)]))
      by solve_decide_false.
    by rewrite (decide_False (P := _ ∨ _)) by solve_decide_false.
  - by repeat decide_step.
Qed.

(** *** [trimesh_split_edge] keeps the invariants *)

Section TriSplitInvariants.
Variables (m m' : Mesh) (u v w o1 o2 f1 f2 : key) (c1 c2 : list key).
Variable p : point.
Hypothesis Hwf : mesh_wf m.
Hypothesis Huv : he m u v = Some (Some f1).
Hypothesis Hvu : he m v u = Some (Some f2).
Hypothesis Hc1 : face m !! f1 = Some c1.
Hypothesis Hc2 : face m !! f2 = Some c2.
Hypothesis Hp1 : ∀ a b, (a, b) ∈ cycle_pairs c1 ↔
  (a, b) = (u, v) ∨ (a, b) = (v, o1) ∨ (a, b) = (o1, u).
Hypothesis Hp2 : ∀ a b, (a, b) ∈ cycle_pairs c2 ↔
  (a, b) = (v, u) ∨ (a, b) = (u, o2) ∨ (a, b) = (o2, v).
Hypothesis Hne : u ≠ v.
Hypothesis H1u : o1 ≠ u.
Hypothesis H1v : o1 ≠ v.
Hypothesis H2u : o2 ≠ u.
Hypothesis H2v : o2 ≠ v.
Hypothesis H12 : o1 ≠ o2.
Hypothesis Hw : w = next_vkey m.
Hypothesis Hvertex : vertex m' = <[w := p]> (vertex m).
Hypothesis Hface :
  face m' =
    delete f2
      (<[S (S (S (next_fkey m))) := [w; u; o2]]>
         (<[S (S (next_fkey m)) := [v; w; o2]]>
            (delete f1
               (<[S (next_fkey m) := [w; v; o1]]>
                  (<[next_fkey m := [u; w; o1]]> (face m)))))).
Hypothesis Hhe :
  ∀ x y, he m' x y = trisplit_he m u v w o1 o2 (next_fkey m) x y.
Hypothesis Hrows :
  ∀ y, is_Some (halfedge m' !! y) →
       is_Some (halfedge m !! y) ∨ y ∈ [u; v; w; o1; o2].
Hypothesis Hnv : next_vkey m' = S w.
Hypothesis Hnf : next_fkey m' = S (S (S (S (next_fkey m)))).

Lemma trisplit_fresh k : is_Some (vertex m !! k) → k ≠ w.
Proof.
  intros Hk ->. apply mesh_wf_alt in Hwf as (_ & _ & _ & Hv & _).
  apply Hv in Hk. lia.
Qed.

Lemma trisplit_he_fresh a b : is_Some (he m a b) → a ≠ w ∧ b ≠ w.
Proof.
  intros [x Hx]. destruct (wf_he_ends _ _ _ _ Hwf Hx) as [Ha Hb].
  split; by apply trisplit_fresh.
Qed.

Lemma trisplit_side1 :
  he m v o1 = Some (Some f1) ∧ he m o1 u = Some (Some f1).
Proof.
  split; apply (wf_face_pairs m f1 c1); try done; apply Hp1; auto.
Qed.

Lemma trisplit_side2 :
  he m u o2 = Some (Some f2) ∧ he m o2 v = Some (Some f2).
Proof.
  split; apply (wf_face_pairs m f2 c2); try done; apply Hp2; auto.
Qed.

Lemma trisplit_corners :
  w ≠ u ∧ w ≠ v ∧ w ≠ o1 ∧ w ≠ o2 ∧
  is_Some (vertex m !! u) ∧ is_Some (vertex m !! v) ∧
  is_Some (vertex m !! o1) ∧ is_Some (vertex m !! o2).
Proof.
  destruct trisplit_side1 as [Hs1 _]. destruct trisplit_side2 as [Hs2 _].
  destruct (wf_he_ends _ _ _ _ Hwf Huv) as [Hu Hv].
  destruct (wf_he_ends _ _ _ _ Hwf Hs1) as [_ Ho1].
  destruct (wf_he_ends _ _ _ _ Hwf Hs2) as [_ Ho2].
  repeat split; try done;
    apply not_eq_sym; by apply trisplit_fresh.
Qed.

Lemma trisplit_faces_differ : f1 ≠ f2.
Proof. intros Heq. by apply (wf_he_twin_ne m u v f1 f2 Hwf Huv Hvu). Qed.

(** An entry of the old directory that does not belong to one of the two
    triangles is kept. *)
Lemma trisplit_he_kept a b x :
  he m a b = Some x → x ≠ Some f1 → x ≠ Some f2 → he m' a b = Some x.
Proof.
  intros Hab Hx1 Hx2.
  destruct (trisplit_he_fresh a b) as [Haw Hbw]; [eauto|].
  destruct trisplit_side1 as [Hs1 Hs1'].
  destruct trisplit_side2 as [Hs2 Hs2'].
  rewrite Hhe. unfold trisplit_he. rewrite !cycle_pairs_3.
  by repeat decide_step.
Qed.

Lemma trisplit_he_is_Some a b :
  (a, b) ≠ (u, v) → (a, b) ≠ (v, u) →
  is_Some (he m a b) → is_Some (he m' a b).
Proof.
  intros N1 N2 Hab. rewrite Hhe. unfold trisplit_he.
  repeat (destruct (decide _); [by eauto|]).
  destruct (decide _) as [[?|?]|_]; done.
Qed.

Lemma trisplit_he_inv a b x :
  he m' a b = Some x →
  ((a, b) ∈ [(w, u); (u, o2); (o2, w)] ∧
   x = Some (S (S (S (next_fkey m))))) ∨
  ((a, b) ∈ [(v, w); (w, o2); (o2, v)] ∧ x = Some (S (S (next_fkey m)))) ∨
  ((a, b) ∈ [(w, v); (v, o1); (o1, w)] ∧ x = Some (S (next_fkey m))) ∨
  ((a, b) ∈ [(u, w); (w, o1); (o1, u)] ∧ x = Some (next_fkey m)) ∨
  ((a, b) ≠ (u, v) ∧ (a, b) ≠ (v, u) ∧ he m a b = Some x ∧
   x ≠ Some f1 ∧ x ≠ Some f2).
Proof.
  rewrite Hhe. unfold trisplit_he. rewrite !cycle_pairs_3.
  destruct (decide _) as [?|N4]; [intros [= <-]; auto|].
  destruct (decide _) as [?|N3]; [intros [= <-]; auto|].
  destruct (decide _) as [?|N2]; [intros [= <-]; auto 6|].
  destruct (decide _) as [?|N1]; [intros [= <-]; auto 6|].
  destruct (decide _) as [?|N0]; [done|].
  intros Hab. do 4 right.
  split; [tauto|]. split; [tauto|]. split; [done|].
  split; intros ->.
  - destruct (wf_he_on_face _ _ _ _ Hwf Hab) as (c & Hc & Hin).
    assert (c = c1) as -> by congruence.
    apply Hp1 in Hin as [?|[[= -> ->]|[= -> ->]]]; [tauto| |].
    + apply N2. right; left.
    + apply N1. right; right; left.
  - destruct (wf_he_on_face _ _ _ _ Hwf Hab) as (c & Hc & Hin).
    assert (c = c2) as -> by congruence.
    apply Hp2 in Hin as [?|[[= -> ->]|[= -> ->]]]; [tauto| |].
    + apply N4. right; left.
    + apply N3. right; right; left.
Qed.

Lemma trisplit_face_lookup h ch :
  face m' !! h = Some ch ↔
  (h = S (S (S (next_fkey m))) ∧ ch = [w; u; o2]) ∨
  (h = S (S (next_fkey m)) ∧ ch = [v; w; o2]) ∨
  (h = S (next_fkey m) ∧ ch = [w; v; o1]) ∨
  (h = next_fkey m ∧ ch = [u; w; o1]) ∨
  (h ≠ f1 ∧ h ≠ f2 ∧ face m !! h = Some ch).
Proof.
  pose proof (wf_fkey_lt _ _ _ Hwf Hc1) as Hlt1.
  pose proof (wf_fkey_lt _ _ _ Hwf Hc2) as Hlt2.
  rewrite Hface. split.
  - intros [Hh2 Hh]%lookup_delete_Some.
    apply lookup_insert_Some in Hh as [[<- <-]|[N3 Hh]]; [auto|].
    apply lookup_insert_Some in Hh as [[<- <-]|[N2 Hh]]; [auto|].
    apply lookup_delete_Some in Hh as [Hh1 Hh].
    apply lookup_insert_Some in Hh as [[<- <-]|[N1 Hh]]; [auto 6|].
    apply lookup_insert_Some in Hh as [[<- <-]|[N0 Hh]]; [auto 6|].
    auto 8.
  - intros [[-> ->]|[[-> ->]|[[-> ->]|[[-> ->]|(N1 & N2 & Hh)]]]].
    + rewrite lookup_delete_ne by lia. apply lookup_insert_eq.
    + rewrite lookup_delete_ne, lookup_insert_ne by lia.
      apply lookup_insert_eq.
    + rewrite lookup_delete_ne, !lookup_insert_ne by lia.
      rewrite lookup_delete_ne by lia. apply lookup_insert_eq.
    + rewrite lookup_delete_ne, !lookup_insert_ne by lia.
      rewrite lookup_delete_ne, lookup_insert_ne by lia.
      apply lookup_insert_eq.
    + pose proof (wf_fkey_lt _ _ _ Hwf Hh) as Hlt.
      rewrite lookup_delete_ne, !lookup_insert_ne by (done || lia).
      rewrite lookup_delete_ne, !lookup_insert_ne by (done || lia).
      done.
Qed.

Lemma trisplit_wf : mesh_wf m'.
Proof.
  apply mesh_wf_alt.
  pose proof Hwf as Hwf0.
  apply mesh_wf_alt in Hwf0 as (Hf & Hr & He & Hv & Hk).
  destruct trisplit_corners
    as (Hwu & Hwv & Hw1 & Hw2 & Hvu' & Hvv & Hv1 & Hv2).
  destruct trisplit_side1 as [Hs1 Hs1'].
  destruct trisplit_side2 as [Hs2 Hs2'].
  assert (is_Some (he m o1 v) ∧ is_Some (he m u o1) ∧
          is_Some (he m o2 u) ∧ is_Some (he m v o2))
    as (Ht1 & Ht1' & Ht2 & Ht2').
  { repeat split.
    - by destruct (He _ _ _ Hs1) as [? _].
    - by destruct (He _ _ _ Hs1') as [? _].
    - by destruct (He _ _ _ Hs2) as [? _].
    - by destruct (He _ _ _ Hs2') as [? _]. }
  assert (∀ k, is_Some (vertex m !! k) → is_Some (vertex m' !! k)) as Hmono.
  { intros k Hk'. rewrite Hvertex, lookup_insert_ne; [done|].
    intros <-. by apply (trisplit_fresh w). }
  assert (is_Some (vertex m' !! w)) as Hvw.
  { rewrite Hvertex, lookup_insert_eq. eauto. }
  assert (∀ k, k ∈ [u; v; w; o1; o2] → is_Some (vertex m' !! k)) as Hcorner.
  { intros k. repeat (rewrite elem_of_cons). rewrite elem_of_nil.
    intros [->|[->|[->|[->|[->|[]]]]]]; auto. }
  split; [|split; [|split; [|split]]].
  - (* faces *)
    intros h ch Hh. apply trisplit_face_lookup in Hh
      as [[-> ->]|[[-> ->]|[[-> ->]|[[-> ->]|(N1 & N2 & Hh)]]]].
    + split; [done|]. split.
      { repeat (apply NoDup_cons; split;
                [repeat (rewrite elem_of_cons); rewrite elem_of_nil;
                 intros ?; destruct_or!; congruence|]).
        apply NoDup_nil_2. }
      split.
      { rewrite Forall_forall. intros k Hk'. apply Hcorner.
        revert Hk'. repeat (rewrite elem_of_cons). rewrite elem_of_nil.
        tauto. }
      rewrite cycle_pairs_3, Forall_forall. intros [a b] Hin. simpl.
      rewrite Hhe. unfold trisplit_he. rewrite !cycle_pairs_3.
      by rewrite decide_True.
    + split; [done|]. split.
      { repeat (apply NoDup_cons; split;
                [repeat (rewrite elem_of_cons); rewrite elem_of_nil;
                 intros ?; destruct_or!; congruence|]).
        apply NoDup_nil_2. }
      split.
      { rewrite Forall_forall. intros k Hk'. apply Hcorner.
        revert Hk'. repeat (rewrite elem_of_cons). rewrite elem_of_nil.
        tauto. }
      rewrite cycle_pairs_3, Forall_forall. intros [a b] Hin. simpl.
      rewrite Hhe. unfold trisplit_he. rewrite !cycle_pairs_3.
      repeat (apply elem_of_cons in Hin as [[= -> ->]|Hin];
              [by repeat decide_step|]).
      by apply elem_of_nil in Hin.
    + split; [done|]. split.
      { repeat (apply NoDup_cons; split;
                [repeat (rewrite elem_of_cons); rewrite elem_of_nil;
                 intros ?; destruct_or!; congruence|]).
        apply NoDup_nil_2. }
      split.
      { rewrite Forall_forall. intros k Hk'. apply Hcorner.
        revert Hk'. repeat (rewrite elem_of_cons). rewrite elem_of_nil.
        tauto. }
      rewrite cycle_pairs_3, Forall_forall. intros [a b] Hin. simpl.
      rewrite Hhe. unfold trisplit_he. rewrite !cycle_pairs_3.
      repeat (apply elem_of_cons in Hin as [[= -> ->]|Hin];
              [by repeat decide_step|]).
      by apply elem_of_nil in Hin.
    + split; [done|]. split.
      { repeat (apply NoDup_cons; split;
                [repeat (rewrite elem_of_cons); rewrite elem_of_nil;
                 intros ?; destruct_or!; congruence|]).
        apply NoDup_nil_2. }
      split.
      { rewrite Forall_forall. intros k Hk'. apply Hcorner.
        revert Hk'. repeat (rewrite elem_of_cons). rewrite elem_of_nil.
        tauto. }
      rewrite cycle_pairs_3, Forall_forall. intros [a b] Hin. simpl.
      rewrite Hhe. unfold trisplit_he. rewrite !cycle_pairs_3.
      repeat (apply elem_of_cons in Hin as [[= -> ->]|Hin];
              [by repeat decide_step|]).
      by apply elem_of_nil in Hin.
    + destruct (Hf _ _ Hh) as (Hlen & Hnd & Hvs & Hps).
      split; [done|]. split; [done|]. split.
      * rewrite Forall_forall in Hvs. rewrite Forall_forall. auto.
      * rewrite Forall_forall in Hps. rewrite Forall_forall.
        intros [a b] Hin. simpl. specialize (Hps _ Hin). simpl in Hps.
        apply trisplit_he_kept; [done|congruence|congruence].
  - (* rows *)
    intros a [Ha|Ha]%Hrows; [|by apply Hcorner].
    by apply Hmono, Hr.
  - (* entries *)
    intros a b x Hab.
    apply trisplit_he_inv in Hab
      as [[Hin ->]|[[Hin ->]|[[Hin ->]|[[Hin ->]|(N1 & N2 & Hab & Hx1 & Hx2)]]]].
    + split.
      * rewrite Hhe. unfold trisplit_he. rewrite !cycle_pairs_3.
        repeat (apply elem_of_cons in Hin as [[= -> ->]|Hin];
                [repeat decide_step; eauto|]).
        by apply elem_of_nil in Hin.
      * simpl. unfold on_face.
        assert (face m' !! S (S (S (next_fkey m))) = Some [w; u; o2]) as ->
          by (apply trisplit_face_lookup; auto).
        simpl. by rewrite cycle_pairs_3.
    + split.
      * rewrite Hhe. unfold trisplit_he. rewrite !cycle_pairs_3.
        repeat (apply elem_of_cons in Hin as [[= -> ->]|Hin];
                [repeat decide_step; eauto|]).
        by apply elem_of_nil in Hin.
      * simpl. unfold on_face.
        assert (face m' !! S (S (next_fkey m)) = Some [v; w; o2]) as ->
          by (apply trisplit_face_lookup; auto).
        simpl. by rewrite cycle_pairs_3.
    + split.
      * rewrite Hhe. unfold trisplit_he. rewrite !cycle_pairs_3.
        repeat (apply elem_of_cons in Hin as [[= -> ->]|Hin];
                [repeat decide_step; eauto|]).
        by apply elem_of_nil in Hin.
      * simpl. unfold on_face.
        assert (face m' !! S (next_fkey m) = Some [w; v; o1]) as ->
          by (apply trisplit_face_lookup; auto 6).
        simpl. by rewrite cycle_pairs_3.
    + split.
      * rewrite Hhe. unfold trisplit_he. rewrite !cycle_pairs_3.
        repeat (apply elem_of_cons in Hin as [[= -> ->]|Hin];
                [repeat decide_step; eauto|]).
        by apply elem_of_nil in Hin.
      * simpl. unfold on_face.
        assert (face m' !! next_fkey m = Some [u; w; o1]) as ->
          by (apply trisplit_face_lookup; auto 6).
        simpl. by rewrite cycle_pairs_3.
    + destruct (He _ _ _ Hab) as [Htwin Hon]. split.
      * apply trisplit_he_is_Some; [congruence|congruence|done].
      * destruct x as [h|]; [|done]. simpl.
        destruct (wf_he_on_face _ _ _ _ Hwf Hab) as (ch & Hch & Hin).
        unfold on_face.
        assert (face m' !! h = Some ch) as ->; [|done].
        apply trisplit_face_lookup. do 4 right.
        split; [congruence|]. split; [congruence|done].
  - (* vertex keys *)
    intros k. rewrite Hvertex, Hnv.
    destruct (decide (k = w)) as [->|Hkw]; [lia|].
    rewrite lookup_insert_ne by done. intros Hk'%Hv. lia.
  - (* face keys *)
    intros k [ch Hk']. apply trisplit_face_lookup in Hk'
      as [[-> _]|[[-> _]|[[-> _]|[[-> _]|(_ & _ & Hh)]]]]; try lia.
    assert (k < next_fkey m) by (apply Hk; eauto). lia.
Qed.

End TriSplitInvariants.

(** The run of [trimesh_split_edge] on an edge between two triangles of a
    mesh that satisfies the invariants. *)
Lemma trimesh_split_edge_triangles m u v t allow_boundary f1 f2 c1 c2 a b :
  mesh_wf m →
  he m u v = Some (Some f1) → he m v u = Some (Some f2) →
  face m !! f1 = Some c1 → face m !! f2 = Some c2 →
  length c1 = 3 → length c2 = 3 →
  vertex m !! u = Some a → vertex m !! v = Some b →
  (t <=? 0)%float = false → (1 <=? t)%float = false →
  ∃ o1 o2 m',
    (∀ x, x ∈ c1 ↔ x = u ∨ x = v ∨ x = o1) ∧ o1 ≠ u ∧ o1 ≠ v ∧
    (∀ x, x ∈ c2 ↔ x = v ∨ x = u ∨ x = o2) ∧ o2 ≠ u ∧ o2 ≠ v ∧
    (∀ x y, (x, y) ∈ cycle_pairs c1 ↔
            (x, y) = (u, v) ∨ (x, y) = (v, o1) ∨ (x, y) = (o1, u)) ∧
    (∀ x y, (x, y) ∈ cycle_pairs c2 ↔
            (x, y) = (v, u) ∨ (x, y) = (u, o2) ∨ (x, y) = (o2, v)) ∧
    trimesh_split_edge u v t allow_boundary m
      = (inr (Some (next_vkey m)), m') ∧
    vertex m' = <[next_vkey m := lerp a b t]> (vertex m) ∧
    face m' =
      delete f2
        (<[S (S (S (next_fkey m))) := [next_vkey m; u; o2]]>
           (<[S (S (next_fkey m)) := [v; next_vkey m; o2]]>
              (delete f1
                 (<[S (next_fkey m) := [next_vkey m; v; o1]]>
                    (<[next_fkey m := [u; next_vkey m; o1]]> (face m)))))) ∧
    (∀ x y, he m' x y =
       removed_entry v u
         (face_entry (S (S (S (next_fkey m)))) [next_vkey m; u; o2]
            (face_entry (S (S (next_fkey m))) [v; next_vkey m; o2]
               (removed_entry u v
                  (face_entry (S (next_fkey m)) [next_vkey m; v; o1]
                     (face_entry (next_fkey m) [u; next_vkey m; o1]
                        (he m)))))) x y) ∧
    (∀ y, is_Some (halfedge m' !! y) →
          is_Some (halfedge m !! y) ∨ y ∈ [u; v; next_vkey m; o1; o2]) ∧
    next_vkey m' = S (next_vkey m) ∧
    next_fkey m' = S (S (S (S (next_fkey m)))).
Proof.
  intros Hwf Huv Hvu Hc1 Hc2 Hl1 Hl2 Ha Hb Ht0 Ht1.
  pose proof Hwf as Hwf0.
  apply mesh_wf_alt in Hwf0 as (Hf & _).
  destruct (Hf _ _ Hc1) as (_ & Hnd1 & _).
  destruct (Hf _ _ Hc2) as (_ & Hnd2 & _).
  destruct (wf_he_on_face _ _ _ _ Hwf Huv) as (c1' & Hc1' & Hin1).
  assert (c1' = c1) as -> by congruence.
  destruct (wf_he_on_face _ _ _ _ Hwf Hvu) as (c2' & Hc2' & Hin2).
  assert (c2' = c2) as -> by congruence.
  destruct (triangle_pred c1 u v Hl1 Hnd1 Hin1)
    as (i1 & o1 & Hi1 & Ho1 & H1u & H1v & Hne & Hel1 & Hp1).
  destruct (triangle_pred c2 v u Hl2 Hnd2 Hin2)
    as (i2 & o2 & Hi2 & Ho2 & H2v & H2u & _ & Hel2 & Hp2).
  destruct (wf_fresh_vkey _ Hwf) as [Hw Hwrow].
  assert (f1 ≠ f2) as Hf12.
  { intros Heq. by apply (wf_he_twin_ne m u v f1 f2 Hwf Huv Hvu). }
  destruct (trimesh_split_edge_run m u v t allow_boundary f1 f2 c1 c2
              i1 i2 o1 o2 a b)
    as (m' & Hrun & Hrest); try done.
  { by eapply wf_fkey_lt. }
  { by eapply wf_fkey_lt. }
  exists o1, o2, m'. eauto 12.
Qed.

(** X17.  [trimesh_split_edge] on an edge between two triangles: in a mesh
    that satisfies the invariants, with the triangle [f1] on the side of
    [(u → v)] and the triangle [f2] on the other, and [0 < t < 1], the
    call returns the new vertex [w] at the interpolated point and replaces
    the two triangles by four: [(u, w, o1)] and [(w, v, o1)] for [f1],
    [(v, w, o2)] and [(w, u, o2)] for [f2], where [o1] and [o2] are the
    third vertices of the two triangles. *)
Theorem trimesh_split_edge_interior m u v t allow_boundary f1 f2 c1 c2 a b :
  mesh_wf m →
  he m u v = Some (Some f1) → he m v u = Some (Some f2) →
  face m !! f1 = Some c1 → face m !! f2 = Some c2 →
  length c1 = 3 → length c2 = 3 →
  vertex m !! u = Some a → vertex m !! v = Some b →
  (0 <? t)%float = true → (t <? 1)%float = true →
  let w := next_vkey m in
  let n := next_fkey m in
  ∃ o1 o2 m',
    (∀ x, x ∈ c1 ↔ x = u ∨ x = v ∨ x = o1) ∧ o1 ≠ u ∧ o1 ≠ v ∧
    (∀ x, x ∈ c2 ↔ x = v ∨ x = u ∨ x = o2) ∧ o2 ≠ u ∧ o2 ≠ v ∧
    trimesh_split_edge u v t allow_boundary m = (inr (Some w), m') ∧
    vertex m' = <[w := lerp a b t]> (vertex m) ∧
    face m' =
      delete f2
        (<[S (S (S n)) := [w; u; o2]]>
           (<[S (S n) := [v; w; o2]]>
              (delete f1
                 (<[S n := [w; v; o1]]> (<[n := [u; w; o1]]> (face m)))))).
Proof.
  intros Hwf Huv Hvu Hc1 Hc2 Hl1 Hl2 Ha Hb Ht0 Ht1 w n.
  destruct (trimesh_split_edge_triangles m u v t allow_boundary
              f1 f2 c1 c2 a b)
    as (o1 & o2 & m' & Hel1 & H1u & H1v & Hel2 & H2u & H2v & _ & _ &
        Hrun & Hv & Hf & _); auto using ltb_leb_false.
  exists o1, o2, m'. eauto 12.
Qed.

(** X17, on the diagonal of the two triangles of the unit square. *)
Lemma trimesh_split_edge_interior_witness :
  ∃ o1 o2 m',
    (∀ x, x ∈ [0; 2; 3] ↔ x = 0 ∨ x = 2 ∨ x = o1) ∧ o1 ≠ 0 ∧ o1 ≠ 2 ∧
    (∀ x, x ∈ [0; 1; 2] ↔ x = 2 ∨ x = 0 ∨ x = o2) ∧ o2 ≠ 0 ∧ o2 ≠ 2 ∧
    trimesh_split_edge 0 2 0.5 false two_triangles = (inr (Some 4), m') ∧
    vertex m' = <[4 := lerp (0, 0, 0)%float (1, 1, 0)%float 0.5]>
                  (vertex two_triangles) ∧
    face m' =
      delete 0
        (<[5 := [4; 0; o2]]>
           (<[4 := [2; 4; o2]]>
              (delete 1
                 (<[3 := [4; 2; o1]]>
                    (<[2 := [0; 4; o1]]> (face two_triangles)))))).
Proof.
  apply (trimesh_split_edge_interior two_triangles 0 2 0.5 false 1 0
           [0; 2; 3] [0; 1; 2] (0, 0, 0)%float (1, 1, 0)%float).
  - exact two_triangles_wf.
  - vm_compute. reflexivity.
  - vm_compute. reflexivity.
  - vm_compute. reflexivity.
  - vm_compute. reflexivity.
  - reflexivity.
  - reflexivity.
  - vm_compute. reflexivity.
  - vm_compute. reflexivity.
  - reflexivity.
  - reflexivity.
Defined.

(** X18.  [trimesh_split_edge] keeps the invariants of the data model on
    a triangle mesh: for an edge between two triangles that share no
    vertex besides [u] and [v], in a mesh that satisfies the invariants and
    with [0 < t < 1], the call returns the next vertex key and the mesh it
    leaves satisfies the invariants again. *)
Theorem trimesh_split_edge_keeps_invariants
    m u v t allow_boundary f1 f2 c1 c2 :
  mesh_wf m →
  he m u v = Some (Some f1) → he m v u = Some (Some f2) →
  face m !! f1 = Some c1 → face m !! f2 = Some c2 →
  length c1 = 3 → length c2 = 3 →
  (∀ x, x ∈ c1 → x ∈ c2 → x = u ∨ x = v) →
  (0 <? t)%float = true → (t <? 1)%float = true →
  ∃ m',
    trimesh_split_edge u v t allow_boundary m
      = (inr (Some (next_vkey m)), m') ∧
    mesh_wf m'.
Proof.
  intros Hwf Huv Hvu Hc1 Hc2 Hl1 Hl2 Hshare Ht0 Ht1.
  destruct (wf_he_ends _ _ _ _ Hwf Huv) as [[a Ha] [b Hb]].
  destruct (trimesh_split_edge_triangles m u v t allow_boundary
              f1 f2 c1 c2 a b)
    as (o1 & o2 & m' & Hel1 & H1u & H1v & Hel2 & H2u & H2v & Hp1 & Hp2 &
        Hrun & Hv & Hf & Hh & Hr & Hnv & Hnf); auto using ltb_leb_false.
  exists m'. split; [done|].
  assert (u ≠ v) as Hne by (by eapply wf_he_ne).
  assert (o1 ≠ o2) as H12.
  { intros <-. destruct (Hshare o1) as [?|?]; [| |done|done].
    - apply Hel1. auto.
    - apply Hel2. auto. }
  assert (he m v o1 = Some (Some f1) ∧ he m o1 u = Some (Some f1))
    as [Hs1 Hs1'].
  { split; apply (wf_face_pairs m f1 c1); try done; apply Hp1; auto. }
  assert (he m u o2 = Some (Some f2) ∧ he m o2 v = Some (Some f2))
    as [Hs2 Hs2'].
  { split; apply (wf_face_pairs m f2 c2); try done; apply Hp2; auto. }
  pose proof Hwf as Hwf0.
  apply mesh_wf_alt in Hwf0 as (_ & _ & He & _).
  assert (∀ x y, is_Some (he m x y) →
                 x ≠ next_vkey m ∧ y ≠ next_vkey m) as Hfresh.
  { intros x y [z Hz]. destruct (wf_he_ends _ _ _ _ Hwf Hz) as [Hx Hy].
    destruct (wf_fresh_vkey _ Hwf) as [Hw _].
    split; intros ->; rewrite Hw in *; by destruct Hx, Hy. }
  destruct (Hfresh _ _ (ex_intro _ _ Huv)) as [Hwu Hwv].
  destruct (Hfresh _ _ (ex_intro _ _ Hs1)) as [_ Hw1].
  destruct (Hfresh _ _ (ex_intro _ _ Hs2)) as [_ Hw2].
  apply (trisplit_wf m m' u v (next_vkey m) o1 o2 f1 f2 c1 c2 (lerp a b t));
    try done.
  intros x y. rewrite Hh. apply trisplit_he_eq; try done; try congruence.
  - by destruct (He _ _ _ Hs1') as [? _].
  - by destruct (He _ _ _ Hs1) as [? _].
  - by destruct (He _ _ _ Hs2') as [? _].
  - by destruct (He _ _ _ Hs2) as [? _].
Qed.

(** X18, on the diagonal of the two triangles of the unit square. *)
Lemma trimesh_split_edge_keeps_invariants_witness :
  ∃ m',
    trimesh_split_edge 0 2 0.5 false two_triangles = (inr (Some 4), m') ∧
    mesh_wf m'.
Proof.
  apply (trimesh_split_edge_keeps_invariants two_triangles 0 2 0.5 false 1 0
           [0; 2; 3] [0; 1; 2]).
  - exact two_triangles_wf.
  - vm_compute. reflexivity.
  - vm_compute. reflexivity.
  - vm_compute. reflexivity.
  - vm_compute. reflexivity.
  - reflexivity.
  - reflexivity.
  - intros x H1 H2.
    repeat (apply elem_of_cons in H1 as [->|H1]; [auto|]);
      [|by apply elem_of_nil in H1].
    repeat (apply elem_of_cons in H2 as [H2|H2]; [lia|]).
    by apply elem_of_nil in H2.
  - reflexivity.
  - reflexivity.
Defined.

(** X19.  Without [allow_boundary], [trimesh_split_edge] leaves an edge
    with the outside on one of its sides alone: it returns [None] and the
    mesh is unchanged. *)
Theorem trimesh_split_edge_boundary_skipped m u v t fuv fvu :
  (0 <? t)%float = true → (t <? 1)%float = true →
  he m u v = Some fuv → he m v u = Some fvu →
  fuv = None ∨ fvu = None →
  trimesh_split_edge u v t false m = (inr None, m).
Proof.
  intros Ht0 Ht1 Huv Hvu Hout.
  unfold trimesh_split_edge.
  rewrite (ltb_leb_false _ _ Ht0), (ltb_leb_false _ _ Ht1).
  rewrite (bind_run _ _ m fuv m) by (by apply halfedge_at_run).
  rewrite (bind_run _ _ m fvu m) by (by apply halfedge_at_run).
  destruct Hout as [-> | ->]; [done|].
  simpl. by rewrite orb_true_r.
Qed.

Lemma trimesh_split_edge_boundary_skipped_witness :
  trimesh_split_edge 0 1 0.5 false two_triangles = (inr None, two_triangles).
Proof.
  apply (trimesh_split_edge_boundary_skipped two_triangles 0 1 0.5
           (Some 0) None).
  - reflexivity.
  - reflexivity.
  - vm_compute. reflexivity.
  - vm_compute. reflexivity.
  - by right.
Defined.

(** X20.  [trimesh_split_edge] rejects every number [t] that is not
    strictly between 0 and 1, before it reads the mesh: it raises
    [ValueError] and the mesh is as it was. *)
Theorem trimesh_split_edge_rejects_parameter m u v t allow_boundary :
  is_number t →
  (0 <? t)%float && (t <? 1)%float = false →
  ∃ msg, trimesh_split_edge u v t allow_boundary m
           = (inl (ValueError msg), m).
Proof.
  intros Ht Hout. unfold trimesh_split_edge.
  destruct (t <=? 0)%float eqn:H0; [by eexists|].
  destruct (1 <=? t)%float eqn:H1; [by eexists|].
  exfalso. apply andb_false_iff in Hout as [Hlt|Hlt].
  - apply ltb_false_leb in Hlt; [congruence|done|done].
  - apply ltb_false_leb in Hlt; [congruence|done|done].
Qed.

Lemma trimesh_split_edge_rejects_parameter_witness :
  ∃ msg, trimesh_split_edge 0 2 1 false two_triangles
           = (inl (ValueError msg), two_triangles).
Proof.
  apply (trimesh_split_edge_rejects_parameter two_triangles 0 2 1 false).
  - reflexivity.
  - reflexivity.
Defined.

(** *** An edge on the boundary *)

Lemma set_halfedge_step u v f m :
  is_Some (halfedge m !! u) →
  ∃ m',
    set_halfedge u v f m = (inr tt, m') ∧
    vertex m' = vertex m ∧ face m' = face m ∧
    (∀ a b, he m' a b = set_entry u v f (he m) a b) ∧
    (∀ y, is_Some (halfedge m' !! y) ↔ is_Some (halfedge m !! y)) ∧
    next_vkey m' = next_vkey m ∧ next_fkey m' = next_fkey m.
Proof.
  intros [row Hrow].
  unfold set_halfedge. unfold_monad. rewrite Hrow.
  eexists. split; [reflexivity|]. unfold with_halfedge. simpl.
  split; [done|]. split; [done|]. split; [|split; [|done]].
  - intros a b. unfold set_entry, he. simpl.
    destruct (decide (a = u)) as [->|Ha].
    + rewrite lookup_insert_eq, Hrow. simpl.
      destruct (decide (b = v)) as [->|Hb].
      * rewrite lookup_insert_eq. by rewrite decide_True.
      * rewrite lookup_insert_ne by done.
        by rewrite decide_False by congruence.
    + rewrite lookup_insert_ne by done.
      by rewrite decide_False by congruence.
  - intros y. destruct (decide (y = u)) as [->|Hy].
    + rewrite lookup_insert_eq, Hrow. split; eauto.
    + by rewrite lookup_insert_ne.
Qed.

Lemma set_entry_ext u v f old old' a b :
  (∀ x y, old x y = old' x y) →
  set_entry u v f old a b = set_entry u v f old' a b.
Proof. intros Hext. unfold set_entry. by rewrite Hext. Qed.

Lemma he_row m a b x : he m a b = Some x → is_Some (halfedge m !! a).
Proof. intros (row & Hrow & _)%he_Some. eauto. Qed.

(** The run of [trimesh_split_edge] on an edge with a face on the side of
    [(u → v)] and the outside on the other. *)
Lemma trimesh_split_edge_boundary_run m u v t f1 c1 i1 o1 a b :
  (t <=? 0)%float = false → (1 <=? t)%float = false →
  he m u v = Some (Some f1) → he m v u = Some None → u ≠ v →
  vertex m !! u = Some a → vertex m !! v = Some b →
  vertex m !! next_vkey m = None → halfedge m !! next_vkey m = None →
  face m !! f1 = Some c1 → f1 < next_fkey m →
  index u c1 = Some i1 → py_getitem c1 (Z.of_nat i1 - 1) = Some o1 →
  ∃ m',
    trimesh_split_edge u v t true m = (inr (Some (next_vkey m)), m') ∧
    vertex m' = <[next_vkey m := lerp a b t]> (vertex m) ∧
    face m' =
      delete f1
        (<[S (next_fkey m) := [next_vkey m; v; o1]]>
           (<[next_fkey m := [u; next_vkey m; o1]]> (face m))) ∧
    (∀ x y, he m' x y =
       removed_entry v u
         (set_entry (next_vkey m) u None
            (set_entry v (next_vkey m) None
               (removed_entry u v
                  (face_entry (S (next_fkey m)) [next_vkey m; v; o1]
                     (face_entry (next_fkey m) [u; next_vkey m; o1]
                        (he m)))))) x y) ∧
    (∀ y, is_Some (halfedge m' !! y) →
          is_Some (halfedge m !! y) ∨ y ∈ [u; v; next_vkey m; o1]) ∧
    next_vkey m' = S (next_vkey m) ∧
    next_fkey m' = S (S (next_fkey m)).
Proof.
  intros Ht0 Ht1 Huv Hvu Hne Ha Hb Hw Hwrow Hc1 Hlt1 Hi1 Ho1.
  assert (next_vkey m ≠ u) as Hwu by congruence.
  assert (next_vkey m ≠ v) as Hwv by congruence.
  unfold trimesh_split_edge. rewrite Ht0, Ht1.
  rewrite (bind_run _ _ m (Some f1) m) by (by apply halfedge_at_run).
  rewrite (bind_run _ _ m None m) by (by apply halfedge_at_run).
  cbn [negb andb].
  rewrite (bind_run _ _ m (lerp a b t) m) by (by apply edge_point_run).
  destruct (add_vertex_step (lerp a b t) m Hw Hwrow)
    as (m0 & Hrun0 & Hv0 & Hf0 & Hh0 & Hr0 & Hnv0 & Hnf0).
  rewrite (bind_run _ _ m _ m0 Hrun0).
  destruct (trimesh_face_side m0 u v (next_vkey m) f1 c1 i1 o1 (Some f1))
    as (m1 & Hrun1 & Hv1 & Hf1 & Hh1 & Hr1 & Hnv1 & Hnf1);
    [congruence|lia|done|done|by rewrite Hh0|done..|].
  rewrite (bind_run _ _ m0 _ m1 Hrun1).
  assert (is_Some (he m1 v u)) as [xvu Hvu1].
  { rewrite Hh1. unfold removed_entry.
    rewrite decide_False by congruence.
    do 2 apply face_entry_is_Some. rewrite Hh0. eauto. }
  assert (he m1 (next_vkey m) v = Some (Some (S (next_fkey m)))) as Hwv1.
  { rewrite Hh1. unfold removed_entry.
    rewrite decide_False by congruence.
    unfold face_entry at 1. rewrite cycle_pairs_3, Hnf0.
    by rewrite decide_True by left. }
  destruct (set_halfedge_step v (next_vkey m) None m1)
    as (m2 & Hrun2 & Hv2 & Hf2 & Hh2 & Hr2 & Hnv2 & Hnf2);
    [by eapply he_row|].
  destruct (set_halfedge_step (next_vkey m) u None m2)
    as (m3 & Hrun3 & Hv3 & Hf3 & Hh3 & Hr3 & Hnv3 & Hnf3).
  { apply Hr2. by eapply he_row. }
  destruct (del_halfedge_step v u xvu m3)
    as (m4 & Hrun4 & Hv4 & Hf4 & Hh4 & Hr4 & Hnv4 & Hnf4).
  { rewrite Hh3. unfold set_entry. rewrite decide_False by congruence.
    rewrite Hh2. unfold set_entry. by rewrite decide_False by congruence. }
  rewrite (bind_run _ _ m1 tt m4).
  2:{ rewrite (bind_run _ _ m1 _ m2 Hrun2).
      by rewrite (bind_run _ _ m2 _ m3 Hrun3). }
  exists m4. split; [done|].
  split; [congruence|]. split.
  { rewrite Hf4, Hf3, Hf2, Hf1, Hnf0, Hf0. done. }
  split.
  { intros x y. rewrite Hh4.
    apply removed_entry_ext. intros x1 y1. rewrite Hh3.
    apply set_entry_ext. intros x2 y2. rewrite Hh2.
    apply set_entry_ext. intros x3 y3. rewrite Hh1, Hnf0.
    apply removed_entry_ext. intros x4 y4.
    apply face_entry_ext. intros x5 y5.
    apply face_entry_ext. apply Hh0. }
  split; [|split; [congruence|lia]].
  intros y Hy%Hr4%Hr3%Hr2.
  repeat (rewrite elem_of_cons). rewrite elem_of_nil.
  destruct (Hr1 _ Hy) as [Hy'%Hr0|Hy'].
  - destruct Hy' as [->|?]; tauto.
  - revert Hy'. repeat (rewrite elem_of_cons). rewrite elem_of_nil. tauto.
Qed.

(** The directory after the split of a boundary edge, entry by entry. *)
Lemma trisplit_he_boundary_eq m u v w o1 n x y :
  u ≠ v → o1 ≠ u → o1 ≠ v → w ≠ u → w ≠ v → w ≠ o1 →
  (∀ a b, is_Some (he m a b) → a ≠ w ∧ b ≠ w) →
  is_Some (he m u o1) → is_Some (he m o1 v) →
  removed_entry v u
    (set_entry w u None
       (set_entry v w None
          (removed_entry u v
             (face_entry (S n) [w; v; o1]
                (face_entry n [u; w; o1] (he m)))))) x y
  = trisplit_he_boundary m u v w o1 n x y.
Proof.
  intros Huv H1u H1v Hwu Hwv Hw1 Hfresh [z1 Hz1] [z2 Hz2].
  unfold removed_entry, set_entry, face_entry, trisplit_he_boundary.
  rewrite !cycle_pairs_3.
  destruct (decide ((x, y) = (v, u))) as [[= -> ->]|N1];
    [by repeat decide_step|].
  destruct (decide ((x, y) = (u, v))) as [[= -> ->]|N2];
    [by repeat decide_step|].
  destruct (decide ((x, y) = (w, u))) as [[= -> ->]|N3];
    [by repeat decide_step|].
  destruct (decide ((x, y) = (v, w))) as [[= -> ->]|N6];
    [by repeat decide_step|].
  destruct (decide ((x, y) = (w, v))) as [[= -> ->]|N9];
    [by repeat decide_step|].
  destruct (decide ((x, y) = (v, o1))) as [[= -> ->]|N10];
    [by repeat decide_step|].
  destruct (decide ((x, y) = (o1, w))) as [[= -> ->]|N11];
    [by repeat decide_step|].
  destruct (decide ((x, y) = (u, w))) as [[= -> ->]|N12];
    [by repeat decide_step|].
  destruct (decide ((x, y) = (w, o1))) as [[= -> ->]|N13];
    [by repeat decide_step|].
  destruct (decide ((x, y) = (o1, u))) as [[= -> ->]|N14];
    [by repeat decide_step|].
  destruct (he m x y) as [z|] eqn:E.
  - rewrite !(decide_False (P := (x, y) ∈ [(w, v); (v, o1); (o1, w)]))
      by solve_decide_false.
    rewrite !(decide_False (P := (x, y) ∈ [(u, w); (w, o1); (o1, u)]))
      by solve_decide_false.
    rewrite !(decide_False (P := _ ∨ _)) by solve_decide_false.
    done.
  - by repeat decide_step.
Qed.

Section TriSplitBoundaryInvariants.
Variables (m m' : Mesh) (u v w o1 f1 : key) (c1 : list key).
Variable p : point.
Hypothesis Hwf : mesh_wf m.
Hypothesis Huv : he m u v = Some (Some f1).
Hypothesis Hvu : he m v u = Some None.
Hypothesis Hc1 : face m !! f1 = Some c1.
Hypothesis Hp1 : ∀ a b, (a, b) ∈ cycle_pairs c1 ↔
  (a, b) = (u, v) ∨ (a, b) = (v, o1) ∨ (a, b) = (o1, u).
Hypothesis Hne : u ≠ v.
Hypothesis H1u : o1 ≠ u.
Hypothesis H1v : o1 ≠ v.
Hypothesis Hw : w = next_vkey m.
Hypothesis Hvertex : vertex m' = <[w := p]> (vertex m).
Hypothesis Hface :
  face m' =
    delete f1
      (<[S (next_fkey m) := [w; v; o1]]>
         (<[next_fkey m := [u; w; o1]]> (face m))).
Hypothesis Hhe :
  ∀ x y, he m' x y = trisplit_he_boundary m u v w o1 (next_fkey m) x y.
Hypothesis Hrows :
  ∀ y, is_Some (halfedge m' !! y) →
       is_Some (halfedge m !! y) ∨ y ∈ [u; v; w; o1].
Hypothesis Hnv : next_vkey m' = S w.
Hypothesis Hnf : next_fkey m' = S (S (next_fkey m)).

Lemma triboundary_fresh k : is_Some (vertex m !! k) → k ≠ w.
Proof.
  intros Hk ->. apply mesh_wf_alt in Hwf as (_ & _ & _ & Hv & _).
  apply Hv in Hk. lia.
Qed.

Lemma triboundary_he_fresh a b : is_Some (he m a b) → a ≠ w ∧ b ≠ w.
Proof.
  intros [x Hx]. destruct (wf_he_ends _ _ _ _ Hwf Hx) as [Ha Hb].
  split; by apply triboundary_fresh.
Qed.

Lemma triboundary_side :
  he m v o1 = Some (Some f1) ∧ he m o1 u = Some (Some f1).
Proof.
  split; apply (wf_face_pairs m f1 c1); try done; apply Hp1; auto.
Qed.

Lemma triboundary_corners :
  w ≠ u ∧ w ≠ v ∧ w ≠ o1 ∧
  is_Some (vertex m !! u) ∧ is_Some (vertex m !! v) ∧
  is_Some (vertex m !! o1).
Proof.
  destruct triboundary_side as [Hs1 _].
  destruct (wf_he_ends _ _ _ _ Hwf Huv) as [Hu Hv].
  destruct (wf_he_ends _ _ _ _ Hwf Hs1) as [_ Ho1].
  repeat split; try done;
    apply not_eq_sym; by apply triboundary_fresh.
Qed.

Lemma triboundary_he_kept a b x :
  he m a b = Some x → x ≠ Some f1 → (a, b) ≠ (v, u) → he m' a b = Some x.
Proof.
  intros Hab Hx1 Hn.
  destruct (triboundary_he_fresh a b) as [Haw Hbw]; [eauto|].
  destruct triboundary_side as [Hs1 Hs1'].
  rewrite Hhe. unfold trisplit_he_boundary. rewrite !cycle_pairs_3.
  by repeat decide_step.
Qed.

Lemma triboundary_he_is_Some a b :
  (a, b) ≠ (u, v) → (a, b) ≠ (v, u) →
  is_Some (he m a b) → is_Some (he m' a b).
Proof.
  intros N1 N2 Hab. rewrite Hhe. unfold trisplit_he_boundary.
  repeat (destruct (decide _); [by eauto|]).
  destruct (decide _) as [[?|?]|_]; done.
Qed.

Lemma triboundary_he_inv a b x :
  he m' a b = Some x →
  (((a, b) = (v, w) ∨ (a, b) = (w, u)) ∧ x = None) ∨
  ((a, b) ∈ [(w, v); (v, o1); (o1, w)] ∧ x = Some (S (next_fkey m))) ∨
  ((a, b) ∈ [(u, w); (w, o1); (o1, u)] ∧ x = Some (next_fkey m)) ∨
  ((a, b) ≠ (u, v) ∧ (a, b) ≠ (v, u) ∧ he m a b = Some x ∧ x ≠ Some f1).
Proof.
  rewrite Hhe. unfold trisplit_he_boundary. rewrite !cycle_pairs_3.
  destruct (decide _) as [?|N3]; [intros [= <-]; auto|].
  destruct (decide _) as [?|N2]; [intros [= <-]; auto|].
  destruct (decide _) as [?|N1]; [intros [= <-]; auto 6|].
  destruct (decide _) as [?|N0]; [done|].
  intros Hab. do 3 right.
  split; [tauto|]. split; [tauto|]. split; [done|].
  intros ->.
  destruct (wf_he_on_face _ _ _ _ Hwf Hab) as (c & Hc & Hin).
  assert (c = c1) as -> by congruence.
  apply Hp1 in Hin as [?|[[= -> ->]|[= -> ->]]]; [tauto| |].
  - apply N2. right; left.
  - apply N1. right; right; left.
Qed.

Lemma triboundary_face_lookup h ch :
  face m' !! h = Some ch ↔
  (h = S (next_fkey m) ∧ ch = [w; v; o1]) ∨
  (h = next_fkey m ∧ ch = [u; w; o1]) ∨
  (h ≠ f1 ∧ face m !! h = Some ch).
Proof.
  pose proof (wf_fkey_lt _ _ _ Hwf Hc1) as Hlt1.
  rewrite Hface. split.
  - intros [Hh1 Hh]%lookup_delete_Some.
    apply lookup_insert_Some in Hh as [[<- <-]|[N1 Hh]]; [auto|].
    apply lookup_insert_Some in Hh as [[<- <-]|[N0 Hh]]; [auto|].
    auto.
  - intros [[-> ->]|[[-> ->]|(N1 & Hh)]].
    + rewrite lookup_delete_ne by lia. apply lookup_insert_eq.
    + rewrite lookup_delete_ne, lookup_insert_ne by lia.
      apply lookup_insert_eq.
    + pose proof (wf_fkey_lt _ _ _ Hwf Hh) as Hlt.
      by rewrite lookup_delete_ne, !lookup_insert_ne by (done || lia).
Qed.

Lemma triboundary_wf : mesh_wf m'.
Proof.
  apply mesh_wf_alt.
  pose proof Hwf as Hwf0.
  apply mesh_wf_alt in Hwf0 as (Hf & Hr & He & Hv & Hk).
  destruct triboundary_corners as (Hwu & Hwv & Hw1 & Hvu' & Hvv & Hv1).
  destruct triboundary_side as [Hs1 Hs1'].
  assert (is_Some (he m o1 v) ∧ is_Some (he m u o1)) as (Ht1 & Ht1').
  { split.
    - by destruct (He _ _ _ Hs1) as [? _].
    - by destruct (He _ _ _ Hs1') as [? _]. }
  assert (∀ k, is_Some (vertex m !! k) → is_Some (vertex m' !! k)) as Hmono.
  { intros k Hk'. rewrite Hvertex, lookup_insert_ne; [done|].
    intros <-. by apply (triboundary_fresh w). }
  assert (is_Some (vertex m' !! w)) as Hvw.
  { rewrite Hvertex, lookup_insert_eq. eauto. }
  assert (∀ k, k ∈ [u; v; w; o1] → is_Some (vertex m' !! k)) as Hcorner.
  { intros k. repeat (rewrite elem_of_cons). rewrite elem_of_nil.
    intros [->|[->|[->|[->|[]]]]]; auto. }
  split; [|split; [|split; [|split]]].
  - (* faces *)
    intros h ch Hh. apply triboundary_face_lookup in Hh
      as [[-> ->]|[[-> ->]|(N1 & Hh)]].
    + split; [done|]. split.
      { repeat (apply NoDup_cons; split;
                [repeat (rewrite elem_of_cons); rewrite elem_of_nil;
                 intros ?; destruct_or!; congruence|]).
        apply NoDup_nil_2. }
      split.
      { rewrite Forall_forall. intros k Hk'. apply Hcorner.
        revert Hk'. repeat (rewrite elem_of_cons). rewrite elem_of_nil.
        tauto. }
      rewrite cycle_pairs_3, Forall_forall. intros [a b] Hin. simpl.
      rewrite Hhe. unfold trisplit_he_boundary. rewrite !cycle_pairs_3.
      repeat (apply elem_of_cons in Hin as [[= -> ->]|Hin];
              [by repeat decide_step|]).
      by apply elem_of_nil in Hin.
    + split; [done|]. split.
      { repeat (apply NoDup_cons; split;
                [repeat (rewrite elem_of_cons); rewrite elem_of_nil;
                 intros ?; destruct_or!; congruence|]).
        apply NoDup_nil_2. }
      split.
      { rewrite Forall_forall. intros k Hk'. apply Hcorner.
        revert Hk'. repeat (rewrite elem_of_cons). rewrite elem_of_nil.
        tauto. }
      rewrite cycle_pairs_3, Forall_forall. intros [a b] Hin. simpl.
      rewrite Hhe. unfold trisplit_he_boundary. rewrite !cycle_pairs_3.
      repeat (apply elem_of_cons in Hin as [[= -> ->]|Hin];
              [by repeat decide_step|]).
      by apply elem_of_nil in Hin.
    + destruct (Hf _ _ Hh) as (Hlen & Hnd & Hvs & Hps).
      split; [done|]. split; [done|]. split.
      * rewrite Forall_forall in Hvs. rewrite Forall_forall. auto.
      * rewrite Forall_forall in Hps. rewrite Forall_forall.
        intros [a b] Hin. simpl. specialize (Hps _ Hin). simpl in Hps.
        apply triboundary_he_kept; [done|congruence|congruence].
  - (* rows *)
    intros a [Ha|Ha]%Hrows; [|by apply Hcorner].
    by apply Hmono, Hr.
  - (* entries *)
    intros a b x Hab.
    apply triboundary_he_inv in Hab
      as [[Hin ->]|[[Hin ->]|[[Hin ->]|(N1 & N2 & Hab & Hx1)]]].
    + split; [|done].
      rewrite Hhe. unfold trisplit_he_boundary. rewrite !cycle_pairs_3.
      destruct Hin as [[= -> ->]|[= -> ->]]; repeat decide_step; eauto.
    + split.
      * rewrite Hhe. unfold trisplit_he_boundary. rewrite !cycle_pairs_3.
        repeat (apply elem_of_cons in Hin as [[= -> ->]|Hin];
                [repeat decide_step; eauto|]).
        by apply elem_of_nil in Hin.
      * simpl. unfold on_face.
        assert (face m' !! S (next_fkey m) = Some [w; v; o1]) as ->
          by (apply triboundary_face_lookup; auto).
        simpl. by rewrite cycle_pairs_3.
    + split.
      * rewrite Hhe. unfold trisplit_he_boundary. rewrite !cycle_pairs_3.
        repeat (apply elem_of_cons in Hin as [[= -> ->]|Hin];
                [repeat decide_step; eauto|]).
        by apply elem_of_nil in Hin.
      * simpl. unfold on_face.
        assert (face m' !! next_fkey m = Some [u; w; o1]) as ->
          by (apply triboundary_face_lookup; auto).
        simpl. by rewrite cycle_pairs_3.
    + destruct (He _ _ _ Hab) as [Htwin Hon]. split.
      * apply triboundary_he_is_Some; [congruence|congruence|done].
      * destruct x as [h|]; [|done]. simpl.
        destruct (wf_he_on_face _ _ _ _ Hwf Hab) as (ch & Hch & Hin).
        unfold on_face.
        assert (face m' !! h = Some ch) as ->; [|done].
        apply triboundary_face_lookup. do 2 right.
        split; [congruence|done].
  - (* vertex keys *)
    intros k. rewrite Hvertex, Hnv.
    destruct (decide (k = w)) as [->|Hkw]; [lia|].
    rewrite lookup_insert_ne by done. intros Hk'%Hv. lia.
  - (* face keys *)
    intros k [ch Hk']. apply triboundary_face_lookup in Hk'
      as [[-> _]|[[-> _]|(_ & Hh)]]; try lia.
    assert (k < next_fkey m) by (apply Hk; eauto). lia.
Qed.

End TriSplitBoundaryInvariants.

(** The split of a boundary edge of a triangle, with all that the two
    theorems below read off. *)
Lemma trimesh_split_edge_boundary_full m u v t f1 c1 a b :
  mesh_wf m →
  he m u v = Some (Some f1) → he m v u = Some None →
  face m !! f1 = Some c1 → length c1 = 3 →
  vertex m !! u = Some a → vertex m !! v = Some b →
  (0 <? t)%float = true → (t <? 1)%float = true →
  ∃ o1 m',
    (∀ x, x ∈ c1 ↔ x = u ∨ x = v ∨ x = o1) ∧ o1 ≠ u ∧ o1 ≠ v ∧
    u ≠ next_vkey m ∧ v ≠ next_vkey m ∧ o1 ≠ next_vkey m ∧ u ≠ v ∧
    trimesh_split_edge u v t true m = (inr (Some (next_vkey m)), m') ∧
    vertex m' = <[next_vkey m := lerp a b t]> (vertex m) ∧
    face m' =
      delete f1
        (<[S (next_fkey m) := [next_vkey m; v; o1]]>
           (<[next_fkey m := [u; next_vkey m; o1]]> (face m))) ∧
    (∀ x y, he m' x y =
       trisplit_he_boundary m u v (next_vkey m) o1 (next_fkey m) x y) ∧
    mesh_wf m'.
Proof.
  intros Hwf Huv Hvu Hc1 Hl1 Ha Hb Ht0 Ht1.
  pose proof Hwf as Hwf0.
  apply mesh_wf_alt in Hwf0 as (Hf & _ & He & _).
  destruct (Hf _ _ Hc1) as (_ & Hnd1 & _).
  destruct (wf_he_on_face _ _ _ _ Hwf Huv) as (c1' & Hc1' & Hin1).
  assert (c1' = c1) as -> by congruence.
  destruct (triangle_pred c1 u v Hl1 Hnd1 Hin1)
    as (i1 & o1 & Hi1 & Ho1 & H1u & H1v & Hne & Hel1 & Hp1).
  destruct (wf_fresh_vkey _ Hwf) as [Hw Hwrow].
  destruct (trimesh_split_edge_boundary_run m u v t f1 c1 i1 o1 a b)
    as (m' & Hrun & Hv & Hface & Hh & Hr & Hnv & Hnf);
    auto using ltb_leb_false.
  { by eapply wf_fkey_lt. }
  assert (he m v o1 = Some (Some f1) ∧ he m o1 u = Some (Some f1))
    as [Hs1 Hs1'].
  { split; apply (wf_face_pairs m f1 c1); try done; apply Hp1; auto. }
  assert (∀ x y, is_Some (he m x y) →
                 x ≠ next_vkey m ∧ y ≠ next_vkey m) as Hfresh.
  { intros x y [z Hz]. destruct (wf_he_ends _ _ _ _ Hwf Hz) as [Hx Hy].
    split; intros ->; rewrite Hw in *; by destruct Hx, Hy. }
  destruct (Hfresh _ _ (ex_intro _ _ Huv)) as [Hwu Hwv].
  destruct (Hfresh _ _ (ex_intro _ _ Hs1)) as [_ Hw1].
  assert (∀ x y, he m' x y =
            trisplit_he_boundary m u v (next_vkey m) o1 (next_fkey m) x y)
    as Hhe.
  { intros x y. rewrite Hh.
    apply trisplit_he_boundary_eq; try done; try congruence.
    - by destruct (He _ _ _ Hs1') as [? _].
    - by destruct (He _ _ _ Hs1) as [? _]. }
  exists o1, m'. do 11 (split; [done|]).
  by apply (triboundary_wf m m' u v (next_vkey m) o1 f1 c1 (lerp a b t)).
Qed.

(** X21.  With [allow_boundary] set, [trimesh_split_edge] splits an edge
    with a triangle [f1] on the side of [(u → v)] and the outside on the
    other: it returns the new vertex [w] at the interpolated point, the
    triangles [(u, w, o1)] and [(w, v, o1)] replace [f1], where [o1] is
    the third vertex of [f1], the entries [(v → w)] and [(w → u)] map to
    the outside, and the two entries of the split edge are gone. *)
Theorem trimesh_split_edge_boundary m u v t f1 c1 a b :
  mesh_wf m →
  he m u v = Some (Some f1) → he m v u = Some None →
  face m !! f1 = Some c1 → length c1 = 3 →
  vertex m !! u = Some a → vertex m !! v = Some b →
  (0 <? t)%float = true → (t <? 1)%float = true →
  let w := next_vkey m in
  let n := next_fkey m in
  ∃ o1 m',
    (∀ x, x ∈ c1 ↔ x = u ∨ x = v ∨ x = o1) ∧ o1 ≠ u ∧ o1 ≠ v ∧
    trimesh_split_edge u v t true m = (inr (Some w), m') ∧
    vertex m' = <[w := lerp a b t]> (vertex m) ∧
    face m' =
      delete f1 (<[S n := [w; v; o1]]> (<[n := [u; w; o1]]> (face m))) ∧
    he m' u w = Some (Some n) ∧ he m' w v = Some (Some (S n)) ∧
    he m' v w = Some None ∧ he m' w u = Some None ∧
    he m' u v = None ∧ he m' v u = None.
Proof.
  intros Hwf Huv Hvu Hc1 Hl1 Ha Hb Ht0 Ht1 w n.
  destruct (trimesh_split_edge_boundary_full m u v t f1 c1 a b)
    as (o1 & m' & Hel & H1u & H1v & Hwu & Hwv & Hw1 & Hne & Hrun & Hv & Hf &
        Hhe & _); auto.
  exists o1, m'. fold w in Hwu, Hwv, Hw1, Hrun, Hv, Hf, Hhe. fold n in Hf, Hhe.
  split; [done|]. split; [done|]. split; [done|]. split; [done|].
  split; [done|]. split; [done|].
  rewrite !Hhe. unfold trisplit_he_boundary. rewrite !cycle_pairs_3.
  repeat split; by repeat decide_step.
Qed.

(** X21, on the side 0–1 of the two triangles of the unit square. *)
Lemma trimesh_split_edge_boundary_witness :
  ∃ o1 m',
    (∀ x, x ∈ [0; 1; 2] ↔ x = 0 ∨ x = 1 ∨ x = o1) ∧ o1 ≠ 0 ∧ o1 ≠ 1 ∧
    trimesh_split_edge 0 1 0.5 true two_triangles = (inr (Some 4), m') ∧
    vertex m' = <[4 := lerp (0, 0, 0)%float (1, 0, 0)%float 0.5]>
                  (vertex two_triangles) ∧
    face m' =
      delete 0 (<[3 := [4; 1; o1]]> (<[2 := [0; 4; o1]]>
                                       (face two_triangles))) ∧
    he m' 0 4 = Some (Some 2) ∧ he m' 4 1 = Some (Some 3) ∧
    he m' 1 4 = Some None ∧ he m' 4 0 = Some None ∧
    he m' 0 1 = None ∧ he m' 1 0 = None.
Proof.
  apply (trimesh_split_edge_boundary two_triangles 0 1 0.5 0 [0; 1; 2]
           (0, 0, 0)%float (1, 0, 0)%float).
  - exact two_triangles_wf.
  - vm_compute. reflexivity.
  - vm_compute. reflexivity.
  - vm_compute. reflexivity.
  - reflexivity.
  - vm_compute. reflexivity.
  - vm_compute. reflexivity.
  - reflexivity.
  - reflexivity.
Defined.

(** X22.  [trimesh_split_edge] keeps the invariants of the data model on
    the boundary of a triangle mesh: with [allow_boundary] set, for an edge
    with a triangle on the side of [(u → v)] and the outside on the other,
    in a mesh that satisfies the invariants and with [0 < t < 1], the call
    returns the next vertex key and the mesh it leaves satisfies the
    invariants again. *)
Theorem trimesh_split_edge_boundary_keeps_invariants m u v t f1 c1 :
  mesh_wf m →
  he m u v = Some (Some f1) → he m v u = Some None →
  face m !! f1 = Some c1 → length c1 = 3 →
  (0 <? t)%float = true → (t <? 1)%float = true →
  ∃ m',
    trimesh_split_edge u v t true m = (inr (Some (next_vkey m)), m') ∧
    mesh_wf m'.
Proof.
  intros Hwf Huv Hvu Hc1 Hl1 Ht0 Ht1.
  destruct (wf_he_ends _ _ _ _ Hwf Huv) as [[a Ha] [b Hb]].
  destruct (trimesh_split_edge_boundary_full m u v t f1 c1 a b)
    as (o1 & m' & _ & _ & _ & _ & _ & _ & _ & Hrun & _ & _ & _ & Hwf');
    auto.
  by exists m'.
Qed.

(** X22, on the side 0–1 of the two triangles of the unit square. *)
Lemma trimesh_split_edge_boundary_keeps_invariants_witness :
  ∃ m',
    trimesh_split_edge 0 1 0.5 true two_triangles = (inr (Some 4), m') ∧
    mesh_wf m'.
Proof.
  apply (trimesh_split_edge_boundary_keeps_invariants two_triangles 0 1 0.5
           0 [0; 1; 2]).
  - exact two_triangles_wf.
  - vm_compute. reflexivity.
  - vm_compute. reflexivity.
  - vm_compute. reflexivity.
  - reflexivity.
  - reflexivity.
  - reflexivity.
Defined.
